(** * rx-query: a shallow embedding of [query.ts]

    The development follows the source file top to bottom:
    - [JS]      : the JavaScript values that travel through the library
                  (query parameters, fetched data, thrown errors), the heap
                  that objects live in, [typeof], [JSON.stringify];
    - [Rx]      : observables as traces of notifications, and the RxJS 6
                  operators that [query.ts] composes;
    - [Query]   : [queryKeyAndParamsToCacheKey], [createRetryCondition],
                  [createRetryDelay], [parseInput], [invoke], [mutateQuery],
                  [callResult$], [paramsTrigger] and the result pipe of
                  [query];
    - [Store]   : the group state store of [cache.ts], which is not part of
                  the sources at hand and is modelled from the specification. *)

From Stdlib Require Import ZArith Ascii String Lia.
From stdpp Require Import gmap strings list pretty.

Local Open Scope string_scope.
Local Open Scope list_scope.

(* ===================================================================== *)
(** * JavaScript values *)
(* ===================================================================== *)

Module JS.

(** Objects and arrays are heap cells addressed by a location: two object
    literals with the same content are different values, and an object can
    reach itself through its own fields. *)
Definition loc := nat.

(** JavaScript numbers.  The code never calculates with the numbers it is
    given as parameters, it prints them.  A finite number is therefore known
    by the text that [Number.prototype.toString] prints for it (["1"],
    ["0.5"], ["1e+21"]), which is also its JSON text; two finite numbers
    with the same text are the same number for [===].  The three non-finite
    doubles are kept apart because [JSON.stringify] and string concatenation
    treat them differently. *)
Inductive number : Type :=
  | NFinite (text : string)
  | NNaN
  | NInfinity (negative : bool).

(** A function is known by the location of its function object in the
    heap, which holds what a call of it does. *)
Inductive value : Type :=
  | VUndefined
  | VNull
  | VBool (b : bool)
  | VNumber (n : number)
  | VString (s : string)
  | VBigInt (z : Z)
  | VSymbol (description : string)
  | VFunction (id : nat)
  | VError (name message : string)   (* an Error instance: no enumerable field *)
  | VRef (l : loc).

#[global] Instance number_eq_dec : EqDecision number.
Proof. solve_decision. Defined.

#[global] Instance value_eq_dec : EqDecision value.
Proof. solve_decision. Defined.

(** A call either returns or throws a JavaScript value. *)
Inductive outcome (A : Type) : Type :=
  | Ret (a : A)
  | Throw (e : value).
Arguments Ret {A} a.
Arguments Throw {A} e.

Definition bind {A B} (m : outcome A) (k : A -> outcome B) : outcome B :=
  match m with
  | Ret a => k a
  | Throw e => Throw e
  end.

Notation "'let!' x ':=' m 'in' k" := (bind m (fun x => k))
  (at level 10, x name, m at level 100, k at level 200).

(** A property of an object: a data property with its value, or an accessor
    property with its getter. *)
Inductive property : Type :=
  | Data (v : value)
  | Accessor (getter : nat).

(** The cells of the heap.  An object holds its own enumerable string-keyed
    properties in the order [Object.keys] lists them (its prototype is
    [Object.prototype], so that what it has beyond them, a [toJSON] method
    for one, it has as a property of its own); an array holds its elements;
    a function object holds what a call does with [this] and the arguments:
    it returns a value or throws one (a function that writes to the heap is
    beyond the model). *)
Inductive cell : Type :=
  | CObject (fields : list (string * property))
  | CArray (elems : list value)
  | CFunction (body : value -> list value -> outcome value).

Abbreviation heap := (gmap loc cell).

Definition typeof (v : value) : string :=
  match v with
  | VUndefined => "undefined"
  | VNull => "object"
  | VBool _ => "boolean"
  | VNumber _ => "number"
  | VString _ => "string"
  | VBigInt _ => "bigint"
  | VSymbol _ => "symbol"
  | VFunction _ => "function"
  | VError _ _ => "object"
  | VRef _ => "object"
  end.

(** [Number.prototype.toString] *)
Definition numberToString (n : number) : string :=
  match n with
  | NFinite text => text
  | NNaN => "NaN"
  | NInfinity false => "Infinity"
  | NInfinity true => "-Infinity"
  end.

(** [f.call(this, ...args)]; a function whose object the heap does not hold
    is one that returns [undefined]. *)
Definition call (h : heap) (f : nat) (this : value) (args : list value)
    : outcome value :=
  match h !! f with
  | Some (CFunction body) => body this args
  | _ => Ret VUndefined
  end.

(** [Get(holder, key)] on the property found under the key. *)
Definition get (h : heap) (holder : value) (p : property) : outcome value :=
  match p with
  | Data v => Ret v
  | Accessor getter => call h getter holder []
  end.

(** The property [k] of an object. *)
Fixpoint field (k : string) (fields : list (string * property))
    : option property :=
  match fields with
  | [] => None
  | (k', p) :: rest => if String.eqb k k' then Some p else field k rest
  end.

(** ** JSON.stringify *)

Definition dquote : ascii := "034"%char.
Definition backslash : ascii := "092"%char.

Definition hexDigit (n : N) : ascii :=
  ascii_of_N (if (n <? 10)%N then 48 + n else 87 + n)%N.

(** One code unit of [QuoteJSONString]. *)
Definition quoteJSONChar (c : ascii) : string :=
  let n := N_of_ascii c in
  if (n =? 34)%N then String backslash (String dquote EmptyString)
  else if (n =? 92)%N then String backslash (String backslash EmptyString)
  else if (n =? 8)%N then String backslash "b"
  else if (n =? 12)%N then String backslash "f"
  else if (n =? 10)%N then String backslash "n"
  else if (n =? 13)%N then String backslash "r"
  else if (n =? 9)%N then String backslash "t"
  else if (n <? 32)%N then
    String backslash
      (String "u" (String "0" (String "0"
        (String (hexDigit (n / 16)) (String (hexDigit (n mod 16)) EmptyString)))))
  else String c EmptyString.

Fixpoint quoteJSONBody (s : string) : string :=
  match s with
  | EmptyString => EmptyString
  | String c s' => quoteJSONChar c +:+ quoteJSONBody s'
  end.

Definition quoteJSONString (s : string) : string :=
  String dquote (quoteJSONBody s +:+ String dquote EmptyString).

Definition cyclicError : value :=
  VError "TypeError" "Converting circular structure to JSON".
Definition bigIntError : value :=
  VError "TypeError" "Do not know how to serialize a BigInt".
Definition stackError : value :=
  VError "RangeError" "Maximum call stack size exceeded".

(** The second step of [SerializeJSONProperty]: when the value is an object
    whose [toJSON] property is callable, the value is replaced by what the
    call [value.toJSON(key)] returns. *)
Definition toJSONStep (h : heap) (key : string) (v : value) : outcome value :=
  match v with
  | VRef l =>
      match h !! l with
      | Some (CObject fields) =>
          match field "toJSON" fields with
          | Some p =>
              let! toJSON := get h v p in
              match toJSON with
              | VFunction f => call h f v [VString key]
              | _ => Ret v
              end
          | None => Ret v
          end
      | _ => Ret v
      end
  | _ => Ret v
  end.

(** The members of an object: each property is read ([read]) and printed
    under its key ([ser]); a property whose value has no JSON text
    (undefined, a function, a symbol) is left out. *)
Fixpoint serializeFields (read : property -> outcome value)
    (ser : string -> value -> outcome (option string))
    (fields : list (string * property)) : outcome (list string) :=
  match fields with
  | [] => Ret []
  | (k, p) :: rest =>
      let! v := read p in
      let! o := ser k v in
      let! ms := serializeFields read ser rest in
      Ret (match o with
           | Some s => (quoteJSONString k +:+ ":" +:+ s) :: ms
           | None => ms
           end)
  end.

(** The elements of an array, each printed under its index: an element
    without JSON text prints as null. *)
Fixpoint serializeElemsFrom (ser : string -> value -> outcome (option string))
    (index : nat) (elems : list value) : outcome (list string) :=
  match elems with
  | [] => Ret []
  | v :: rest =>
      let! o := ser (pretty index) v in
      let! ms := serializeElemsFrom ser (S index) rest in
      Ret (default "null" o :: ms)
  end.

Definition serializeElems (ser : string -> value -> outcome (option string))
    (elems : list value) : outcome (list string) :=
  serializeElemsFrom ser 0 elems.

(** [SerializeJSONProperty], given the value read under [key], with its
    stack of the objects being printed: an object met again below itself is
    a cycle and throws a TypeError.  The result [None] is JavaScript's
    [undefined].  [fuel] bounds the nesting depth; running out of it is the
    engine's stack overflow. *)
Fixpoint serializeJSONProperty (fuel : nat) (h : heap) (stack : list loc)
    (key : string) (v : value) : outcome (option string) :=
  let! v := toJSONStep h key v in
  match v with
  | VUndefined | VSymbol _ | VFunction _ => Ret None
  | VNull => Ret (Some "null")
  | VBool true => Ret (Some "true")
  | VBool false => Ret (Some "false")
  | VNumber (NFinite text) => Ret (Some text)
  | VNumber _ => Ret (Some "null")
  | VString s => Ret (Some (quoteJSONString s))
  | VBigInt _ => Throw bigIntError
  | VError _ _ => Ret (Some "{}")
  | VRef l =>
      match h !! l with
      | None => Ret (Some "{}")
      | Some (CFunction _) => Ret None
      | Some c =>
          if bool_decide (l ∈ stack) then Throw cyclicError
          else match fuel with
               | O => Throw stackError
               | S fuel' =>
                   let ser := serializeJSONProperty fuel' h (l :: stack) in
                   match c with
                   | CObject fields =>
                       let! ms := serializeFields (get h v) ser fields in
                       Ret (Some ("{" +:+ String.concat "," ms +:+ "}"))
                   | CArray elems =>
                       let! ms := serializeElems ser elems in
                       Ret (Some ("[" +:+ String.concat "," ms +:+ "]"))
                   | CFunction _ => Ret None
                   end
               end
      end
  end.

(** [JSON.stringify(v)]: the value is printed under the key [""].  The
    stack only ever holds distinct objects of the heap, so a nesting deeper
    than the heap is large cannot happen and the fuel given here is never
    used up ([stringify_tree] below). *)
Definition JSON_stringify (h : heap) (v : value) : outcome (option string) :=
  serializeJSONProperty (S (size h)) h [] "" v.

(** [key + '-' + x] where [x] is what [JSON.stringify] returned. *)
Definition stringOfStringified (o : option string) : string :=
  default "undefined" o.

(** ** Shapes of values

    The predicates below are bounded by a nesting depth [n], so that they
    can be computed on a heap with cycles. *)

(** A property that [JSON.stringify] would call: a [toJSON] method. *)
Definition isToJSON (k : string) (v : value) : bool :=
  String.eqb k "toJSON" && bool_decide (typeof v = "function").

(** A data property that is no [toJSON] method and whose value is [ok]. *)
Definition plainField (ok : value -> bool) (kp : string * property) : bool :=
  match kp.2 with
  | Data v => negb (isToJSON kp.1 v) && ok v
  | Accessor _ => false
  end.

(** [plain n h v]: [v] nests objects at most [n] deep (so that no object
    contains itself), holds no BigInt, and its objects have data properties
    only, none of them a [toJSON] method: printing it runs no code of the
    caller. *)
Fixpoint plain (n : nat) (h : heap) (v : value) : bool :=
  match v with
  | VBigInt _ => false
  | VRef l =>
      match h !! l with
      | None => true
      | Some (CFunction _) => true
      | Some c =>
          match n with
          | O => false
          | S n' =>
              match c with
              | CObject fields =>
                  forallb (plainField (plain n' h)) fields
              | CArray elems => forallb (plain n' h) elems
              | CFunction _ => true
              end
          end
      end
  | _ => true
  end.

(** Reading a data property; there is no other in a plain object. *)
Definition dataOf (p : property) : outcome value :=
  match p with
  | Data v => Ret v
  | Accessor _ => Throw stackError
  end.

(** The JSON text of a plain value that nests at most [n] deep, printed
    without looking for cycles or [toJSON] methods. *)
Fixpoint treeJSON (n : nat) (h : heap) (v : value) : outcome (option string) :=
  match v with
  | VUndefined | VSymbol _ | VFunction _ => Ret None
  | VNull => Ret (Some "null")
  | VBool true => Ret (Some "true")
  | VBool false => Ret (Some "false")
  | VNumber (NFinite text) => Ret (Some text)
  | VNumber _ => Ret (Some "null")
  | VString s => Ret (Some (quoteJSONString s))
  | VBigInt _ => Throw bigIntError
  | VError _ _ => Ret (Some "{}")
  | VRef l =>
      match h !! l with
      | None => Ret (Some "{}")
      | Some (CFunction _) => Ret None
      | Some c =>
          match n with
          | O => Throw stackError
          | S n' =>
              match c with
              | CObject fields =>
                  let! ms :=
                    serializeFields dataOf (fun _ => treeJSON n' h) fields in
                  Ret (Some ("{" +:+ String.concat "," ms +:+ "}"))
              | CArray elems =>
                  let! ms := serializeElems (fun _ => treeJSON n' h) elems in
                  Ret (Some ("[" +:+ String.concat "," ms +:+ "]"))
              | CFunction _ => Ret None
              end
          end
      end
  end.

(** Two heaps that hold the same objects and arrays, and functions at the
    same places: they differ only in what their functions do. *)
Definition sameData (c c' : option cell) : Prop :=
  match c, c' with
  | Some (CFunction _), Some (CFunction _) => True
  | Some (CFunction _), _ | _, Some (CFunction _) => False
  | _, _ => c = c'
  end.

Definition agree (h h' : heap) : Prop :=
  forall l, sameData (h !! l) (h' !! l).

Fixpoint forall2b {A B} (p : A -> B -> bool) (l : list A) (l' : list B) : bool :=
  match l, l' with
  | [], [] => true
  | a :: l, b :: l' => p a b && forall2b p l l'
  | _, _ => false
  end.

(** Two properties compared by a comparison of values: data properties by
    their values, accessors by their getters. *)
Definition sameProperty (same : value -> value -> bool) (p q : property)
    : bool :=
  match p, q with
  | Data v, Data w => same v w
  | Accessor f, Accessor g => bool_decide (f = g)
  | _, _ => false
  end.

(** Deep structural equality: primitives are equal, arrays are equal element
    by element, objects have the same properties with deeply equal values,
    in whatever order they are listed. *)
Fixpoint deepEqual (n : nat) (h : heap) (v w : value) : bool :=
  match v, w with
  | VRef l, VRef l' =>
      match n with
      | O => false
      | S n' =>
          match h !! l, h !! l' with
          | Some (CObject fs), Some (CObject fs') =>
              forallb (fun kp => match field kp.1 fs' with
                                 | Some q =>
                                     sameProperty (deepEqual n' h) kp.2 q
                                 | None => false
                                 end) fs
              && forallb (fun kp => match field kp.1 fs with
                                    | Some _ => true
                                    | None => false
                                    end) fs'
          | Some (CArray es), Some (CArray es') =>
              forall2b (deepEqual n' h) es es'
          | Some (CFunction _), Some (CFunction _) => bool_decide (l = l')
          | None, None => true
          | _, _ => false
          end
      end
  | _, _ => bool_decide (v = w)
  end.

(** Deep structural equality that also asks the properties of two objects
    to be listed in the same order. *)
Fixpoint sameShape (n : nat) (h : heap) (v w : value) : bool :=
  match v, w with
  | VRef l, VRef l' =>
      match n with
      | O => false
      | S n' =>
          match h !! l, h !! l' with
          | Some (CObject fs), Some (CObject fs') =>
              forall2b (fun kp kp' =>
                          bool_decide (kp.1 = kp'.1)
                          && sameProperty (sameShape n' h) kp.2 kp'.2) fs fs'
          | Some (CArray es), Some (CArray es') =>
              forall2b (sameShape n' h) es es'
          | Some (CFunction _), Some (CFunction _) => bool_decide (l = l')
          | None, None => true
          | _, _ => false
          end
      end
  | _, _ => bool_decide (v = w)
  end.

End JS.
Export JS.


(* ===================================================================== *)
(** * Observables *)
(* ===================================================================== *)

Module Rx.

(** What a subscriber is handed, in order.  [Tick] is not a notification of
    RxJS: it marks the end of a turn of the event loop, so that two
    notifications with no [Tick] between them are delivered synchronously,
    one after the other, and a timer armed in one turn fires after a later
    [Tick]. *)
Inductive notification (A : Type) : Type :=
  | Tick
  | Next (a : A)
  | Complete
  | Error (e : value).
Arguments Tick {A}.
Arguments Next {A} a.
Arguments Complete {A}.
Arguments Error {A} e.

(** A cold observable is the trace every subscription to it produces.  A
    trace that stops without [Complete] or [Error] stays silent for ever;
    what follows the first [Complete] or [Error] is never delivered. *)
Definition trace (A : Type) : Type := list (notification A).

(** The values of a trace, up to its end. *)
Fixpoint values {A} (t : trace A) : list A :=
  match t with
  | [] => []
  | Tick :: t' => values t'
  | Next a :: t' => a :: values t'
  | Complete :: _ => []
  | Error _ :: _ => []
  end.

(** How a trace ends. *)
Inductive ending : Type :=
  | Completes
  | Fails (e : value)
  | Silent.

Fixpoint ending_of {A} (t : trace A) : ending :=
  match t with
  | [] => Silent
  | Tick :: t' => ending_of t'
  | Next _ :: t' => ending_of t'
  | Complete :: _ => Completes
  | Error e :: _ => Fails e
  end.

Definition ticks {A} (n : nat) : trace A := repeat Tick n.

(** ** Creation *)

(** [of(a, b, ...)] and [from(array)]. *)
Definition of_list {A} (l : list A) : trace A := List.map Next l ++ [Complete].

Definition throwError {A} (e : value) : trace A := [Error e].
Definition EMPTY {A} : trace A := [Complete].
Definition NEVER {A} : trace A := [].

(** [timer(d)] on the async scheduler: it never fires in the turn of the
    event loop in which it is subscribed to, not even [timer(0)].  A trace
    counts turns, not milliseconds: the fire is placed [1 + d] turns later,
    which keeps a longer delay behind a shorter one; what the properties
    below rely on is that it comes in a later turn. *)
Definition timer (d : nat) : trace nat := ticks (S d) ++ [Next 0; Complete].

(** [defer(factory)]: the factory runs at subscription, and what it throws
    is delivered as an error notification. *)
Definition defer {A} (factory : unit -> outcome (trace A)) : trace A :=
  match factory tt with
  | Ret t => t
  | Throw e => [Error e]
  end.

(** ** Operators that keep the pace of their source *)

Fixpoint map {A B} (f : A -> B) (t : trace A) : trace B :=
  match t with
  | [] => []
  | Tick :: t' => Tick :: map f t'
  | Next a :: t' => Next (f a) :: map f t'
  | Complete :: _ => [Complete]
  | Error e :: _ => [Error e]
  end.

Fixpoint filter {A} (p : A -> bool) (t : trace A) : trace A :=
  match t with
  | [] => []
  | Tick :: t' => Tick :: filter p t'
  | Next a :: t' => if p a then Next a :: filter p t' else filter p t'
  | Complete :: _ => [Complete]
  | Error e :: _ => [Error e]
  end.

(** [catchError(selector)]: the source's error is replaced by the observable
    the selector returns, subscribed on the spot. *)
Fixpoint catchError {A} (selector : value -> outcome (trace A)) (t : trace A)
    : trace A :=
  match t with
  | [] => []
  | Tick :: t' => Tick :: catchError selector t'
  | Next a :: t' => Next a :: catchError selector t'
  | Complete :: _ => [Complete]
  | Error e :: _ =>
      match selector e with
      | Ret t' => t'
      | Throw e' => [Error e']
      end
  end.

Definition startWith {A} (a : A) (t : trace A) : trace A := Next a :: t.

(** [take(count)] completes as soon as it has passed [count] values. *)
Fixpoint take {A} (count : nat) (t : trace A) : trace A :=
  match count, t with
  | O, _ => [Complete]
  | _, [] => []
  | _, Tick :: t' => Tick :: take count t'
  | S c, Next a :: t' => Next a :: take c t'
  | _, Complete :: _ => [Complete]
  | _, Error e :: _ => [Error e]
  end.

(** [distinctUntilChanged(compare)]: [compare] is called with the last value
    passed and the new one; what it throws errors the stream. *)
Fixpoint distinct_from {A} (compare : A -> A -> outcome bool)
    (last : option A) (t : trace A) : trace A :=
  match t with
  | [] => []
  | Tick :: t' => Tick :: distinct_from compare last t'
  | Next a :: t' =>
      match last with
      | None => Next a :: distinct_from compare (Some a) t'
      | Some b =>
          match compare b a with
          | Throw e => [Error e]
          | Ret true => distinct_from compare last t'
          | Ret false => Next a :: distinct_from compare (Some a) t'
          end
      end
  | Complete :: _ => [Complete]
  | Error e :: _ => [Error e]
  end.

Definition distinctUntilChanged {A} (compare : A -> A -> outcome bool)
    (t : trace A) : trace A :=
  distinct_from compare None t.

(** [pairwise()]: from the second value on, the previous value and the
    current one. *)
Fixpoint pairwise_from {A} (last : option A) (t : trace A) : trace (A * A) :=
  match t with
  | [] => []
  | Tick :: t' => Tick :: pairwise_from last t'
  | Next a :: t' =>
      match last with
      | None => pairwise_from (Some a) t'
      | Some b => Next (b, a) :: pairwise_from (Some a) t'
      end
  | Complete :: _ => [Complete]
  | Error e :: _ => [Error e]
  end.

Definition pairwise {A} (t : trace A) : trace (A * A) := pairwise_from None t.

(** ** Operators that subscribe to inner observables

    Several subscriptions run side by side.  Within a turn of the event loop
    a subscription runs to its next [Tick]; a value it emits is handled at
    once, which may start an inner subscription that runs before the outer
    one goes on (the call is nested in [next]).  The subscriptions that wait
    for a later turn are kept in the order they stopped.  The loops count
    their steps with [fuel]: an observable built with [expand] need not be
    finite, and a trace cut short by the fuel is a prefix of the real one. *)

(** [expand(project)]: every value, of the source or of an inner observable,
    is emitted and projected in turn; the result completes when the source
    and every inner observable have. [hung] records a subscription that
    will never complete. *)
Fixpoint expand_loop {A} (fuel : nat) (project : A -> outcome (trace A))
    (work parked : list (trace A)) (hung : bool) : trace A :=
  match fuel with
  | O => []
  | S fuel' =>
      match work with
      | [] =>
          match parked with
          | [] => if hung then [] else [Complete]
          | _ :: _ => Tick :: expand_loop fuel' project (rev parked) [] hung
          end
      | [] :: work' => expand_loop fuel' project work' parked true
      | (Tick :: t) :: work' =>
          expand_loop fuel' project work' (t :: parked) hung
      | (Complete :: _) :: work' => expand_loop fuel' project work' parked hung
      | (Error e :: _) :: _ => [Error e]
      | (Next a :: t) :: work' =>
          Next a ::
          match project a with
          | Throw e => [Error e]
          | Ret inner =>
              expand_loop fuel' project (inner :: t :: work') parked hung
          end
      end
  end.

Definition expand {A} (fuel : nat) (project : A -> outcome (trace A))
    (source : trace A) : trace A :=
  expand_loop fuel project [source] [] false.

(** [concatMap(project)]: one inner observable at a time; the values the
    source emits meanwhile wait in [buffer]. *)
Inductive strand (A B : Type) : Type :=
  | Outer (t : trace A)
  | Inner (t : trace B).
Arguments Outer {A B} t.
Arguments Inner {A B} t.

Fixpoint concat_loop {A B} (fuel : nat) (project : A -> outcome (trace B))
    (work parked : list (strand A B)) (buffer : list A)
    (active completed : bool) : trace B :=
  match fuel with
  | O => []
  | S fuel' =>
      match work with
      | [] =>
          match parked with
          | [] => if completed && negb active then [Complete] else []
          | _ :: _ =>
              Tick :: concat_loop fuel' project (rev parked) [] buffer
                        active completed
          end
      | Outer [] :: work' =>
          concat_loop fuel' project work' parked buffer active completed
      | Outer (Tick :: t) :: work' =>
          concat_loop fuel' project work' (Outer t :: parked) buffer
            active completed
      | Outer (Complete :: _) :: work' =>
          concat_loop fuel' project work' parked buffer active true
      | Outer (Error e :: _) :: _ => [Error e]
      | Outer (Next a :: t) :: work' =>
          if active then
            concat_loop fuel' project (Outer t :: work') parked
              (buffer ++ [a]) active completed
          else
            match project a with
            | Throw e => [Error e]
            | Ret inner =>
                concat_loop fuel' project (Inner inner :: Outer t :: work')
                  parked buffer true completed
            end
      | Inner [] :: work' =>
          concat_loop fuel' project work' parked buffer active completed
      | Inner (Tick :: t) :: work' =>
          concat_loop fuel' project work' (Inner t :: parked) buffer
            active completed
      | Inner (Next b :: t) :: work' =>
          Next b ::
          concat_loop fuel' project (Inner t :: work') parked buffer
            active completed
      | Inner (Error e :: _) :: _ => [Error e]
      | Inner (Complete :: _) :: work' =>
          match buffer with
          | [] => concat_loop fuel' project work' parked [] false completed
          | a :: buffer' =>
              match project a with
              | Throw e => [Error e]
              | Ret inner =>
                  concat_loop fuel' project (Inner inner :: work') parked
                    buffer' true completed
              end
          end
      end
  end.

Definition concatMap {A B} (fuel : nat) (project : A -> outcome (trace B))
    (source : trace A) : trace B :=
  concat_loop fuel project [Outer source] [] [] false false.

(** [debounce(durationSelector)], RxJS 6: the last value is held until the
    observable its selector returned emits or completes; a newer value
    replaces the held one and its duration; the completion of the source
    releases the held value; an error discards it. *)
Inductive due (D : Type) : Type :=
  | DueNow
  | DueLater (d : trace D)
  | DueError (e : value)
  | DueNever.
Arguments DueNow {D}.
Arguments DueLater {D} d.
Arguments DueError {D} e.
Arguments DueNever {D}.

Definition due_of {D} (d : trace D) : due D :=
  match d with
  | [] => DueNever
  | Tick :: d' => DueLater d'
  | Next _ :: _ => DueNow
  | Complete :: _ => DueNow
  | Error e :: _ => DueError e
  end.

(** The source has gone silent with a value held: its duration runs out
    alone. *)
Fixpoint flush_later {A D} (a : A) (d : trace D) : trace A :=
  match d with
  | [] => []
  | Tick :: d' => Tick :: flush_later a d'
  | Next _ :: _ => [Tick; Next a]
  | Complete :: _ => [Tick; Next a]
  | Error e :: _ => [Tick; Error e]
  end.

Fixpoint debounce_loop {A D} (durationSelector : A -> outcome (trace D))
    (held : option (A * trace D)) (t : trace A) : trace A :=
  match t with
  | [] =>
      match held with
      | Some (a, d) => flush_later a d
      | None => []
      end
  | Tick :: t' =>
      match held with
      | None => Tick :: debounce_loop durationSelector None t'
      | Some (a, d) =>
          match due_of d with
          | DueNow => Tick :: Next a :: debounce_loop durationSelector None t'
          | DueLater d' =>
              Tick :: debounce_loop durationSelector (Some (a, d')) t'
          | DueError e => [Tick; Error e]
          | DueNever => Tick :: debounce_loop durationSelector (Some (a, [])) t'
          end
      end
  | Next a :: t' =>
      match durationSelector a with
      | Throw e => [Error e]
      | Ret d =>
          match due_of d with
          | DueNow => Next a :: debounce_loop durationSelector None t'
          | DueLater d' => debounce_loop durationSelector (Some (a, d')) t'
          | DueError e => [Error e]
          | DueNever => debounce_loop durationSelector (Some (a, [])) t'
          end
      end
  | Complete :: _ =>
      match held with
      | Some (a, _) => [Next a; Complete]
      | None => [Complete]
      end
  | Error e :: _ => [Error e]
  end.

Definition debounce {A D} (durationSelector : A -> outcome (trace D))
    (t : trace A) : trace A :=
  debounce_loop durationSelector None t.

(** ** Late subscription to [shareReplay()]

    Without arguments [shareReplay] keeps every value in its buffer and never
    disconnects from the source.  A subscriber that arrives when the source
    has delivered its first [seen] notifications is handed all the values of
    that prefix at once, and then what the source goes on to deliver. *)
Definition shareReplay_late {A} (seen : nat) (t : trace A) : trace A :=
  let past := firstn seen t in
  List.map Next (values past) ++
  match ending_of past with
  | Completes => [Complete]
  | Fails e => [Error e]
  | Silent => skipn seen t
  end.

(** ** Subscription with callbacks

    [subscribe({next, error})]: what the callbacks did, in order.  There is
    no [complete] callback in the places that use it. *)
Fixpoint subscribe {A E} (next : A -> list E) (error : value -> list E)
    (t : trace A) : list E :=
  match t with
  | [] => []
  | Tick :: t' => subscribe next error t'
  | Next a :: t' => next a ++ subscribe next error t'
  | Complete :: _ => []
  | Error e :: _ => error e
  end.

(** [map(project)] with a projection that may throw: RxJS catches the
    exception and delivers it as an error. *)
Fixpoint tryMap {A B} (project : A -> outcome B) (t : trace A) : trace B :=
  match t with
  | [] => []
  | Tick :: t' => Tick :: tryMap project t'
  | Next a :: t' =>
      match project a with
      | Ret b => Next b :: tryMap project t'
      | Throw e => [Error e]
      end
  | Complete :: _ => [Complete]
  | Error e :: _ => [Error e]
  end.

(** [source.pipe(withLatestFrom(other))].  The two observables are hot and
    independent, so the input is the order in which their notifications
    arrive: [inl] from the source, [inr] from the other one.  A source value
    that arrives before the other observable has emitted is dropped. *)
Fixpoint withLatestFrom_from {A B} (latest : option B)
    (feed : list (notification A + notification B)) : trace (A * B) :=
  match feed with
  | [] => []
  | inr (Next b) :: feed' => withLatestFrom_from (Some b) feed'
  | inr (Error e) :: _ => [Error e]
  | inr _ :: feed' => withLatestFrom_from latest feed'
  | inl Tick :: feed' => Tick :: withLatestFrom_from latest feed'
  | inl (Next a) :: feed' =>
      match latest with
      | Some b => Next (a, b) :: withLatestFrom_from latest feed'
      | None => withLatestFrom_from latest feed'
      end
  | inl Complete :: _ => [Complete]
  | inl (Error e) :: _ => [Error e]
  end.

Definition withLatestFrom {A B}
    (feed : list (notification A + notification B)) : trace (A * B) :=
  withLatestFrom_from None feed.

(** The value that [withLatestFrom] pairs a source value with after the
    notifications of [feed]. *)
Fixpoint latest_from {A B} (current : option B)
    (feed : list (notification A + notification B)) : option B :=
  match feed with
  | [] => current
  | inr (Next b) :: feed' => latest_from (Some b) feed'
  | _ :: feed' => latest_from current feed'
  end.

Definition latest {A B} (feed : list (notification A + notification B))
    : option B :=
  latest_from None feed.

(** The notifications delivered before the event loop turns. *)
Fixpoint synchronous {A} (t : trace A) : trace A :=
  match t with
  | [] => []
  | Tick :: _ => []
  | n :: t' => n :: synchronous t'
  end.

(** ** Traces without an error notification *)

Definition is_error {A} (n : notification A) : bool :=
  match n with
  | Error _ => true
  | _ => false
  end.

Definition faultless {A} (t : trace A) : Prop :=
  Forall (fun n => is_error n = false) t.

Definition strand_faultless {A B} (s : strand A B) : Prop :=
  match s with
  | Outer t => faultless t
  | Inner t => faultless t
  end.

End Rx.

(* ===================================================================== *)
(** * query.ts *)
(* ===================================================================== *)

Module Query.

Import Rx.

(** ** types.ts, as [query.ts] uses it *)

(** The union of string literals that [Revalidator.trigger] ranges over. *)
Inductive Trigger : Type :=
  | QuerySubscribe
  | QueryUnsubscribe
  | GroupUnsubscribe
  | Interval
  | Focus
  | MutateOptimistic
  | MutateSuccess
  | MutateError.

#[global] Instance Trigger_eq_dec : EqDecision Trigger.
Proof. solve_decision. Defined.

(** The function [mutateQuery] that a result carries is a closure over the
    key and the parameters of the invocation; the record keeps what it
    closed over. *)
Record MutateFn : Type := { boundKey : string; boundParams : value }.

(** An absent field is [None]; [Some VUndefined] is a field that is present
    and holds [undefined]. *)
Record QueryOutput : Type := {
  status : string;
  data : option value;
  error : option value;
  retries : option nat;
  mutate : option MutateFn
}.

Definition with_status (s : string) (r : QueryOutput) : QueryOutput :=
  {| status := s; data := data r; error := error r; retries := retries r;
     mutate := mutate r |}.

Definition with_mutate (m : MutateFn) (r : QueryOutput) : QueryOutput :=
  {| status := status r; data := data r; error := error r;
     retries := retries r; mutate := Some m |}.

(** What a mutator returns: a plain value, or an observable of one. *)
Inductive MutatorResult : Type :=
  | MValue (v : value)
  | MObservable (o : trace value).

Module Config.

(** [retries?: number | ((retryAttempt, error) => boolean)]; a field can
    also be set to [undefined].  The predicate is a function of the caller:
    a call of it returns or throws. *)
Inductive retriesOption : Type :=
  | RetriesNumber (n : Z)
  | RetriesPredicate (f : nat -> value -> outcome bool)
  | RetriesUndefined.

(** [retryDelay?: number | ((retryAttempt) => number)].  The function is
    the caller's as well: a call of it returns or throws. *)
Inductive retryDelayOption : Type :=
  | DelayNumber (n : Z)
  | DelayFunction (f : nat -> outcome Z)
  | DelayUndefined.

(** [refetchInterval?: number | Observable<unknown>]; [Number.MAX_VALUE]
    turns the interval off. *)
Inductive refetchIntervalOption : Type :=
  | IntervalNumber (n : Z)
  | IntervalObservable
  | IntervalMaxValue.

(** [Required<QueryConfig>] *)
Record t : Type := {
  retries : retriesOption;
  retryDelay : retryDelayOption;
  refetchInterval : refetchIntervalOption;
  refetchOnWindowFocus : bool;
  staleTime : Z;
  cacheTime : Z;
  mutator : value -> value -> outcome MutatorResult
}.

(** [QueryConfig]: every field is optional. *)
Record partial : Type := {
  p_retries : option retriesOption;
  p_retryDelay : option retryDelayOption;
  p_refetchInterval : option refetchIntervalOption;
  p_refetchOnWindowFocus : option bool;
  p_staleTime : option Z;
  p_cacheTime : option Z;
  p_mutator : option (value -> value -> outcome MutatorResult)
}.

Definition empty : partial :=
  {| p_retries := None; p_retryDelay := None; p_refetchInterval := None;
     p_refetchOnWindowFocus := None; p_staleTime := None;
     p_cacheTime := None; p_mutator := None |}.

(** [{...defaults, ...input}] *)
Definition spread (defaults : t) (input : partial) : t :=
  {| retries := default (retries defaults) (p_retries input);
     retryDelay := default (retryDelay defaults) (p_retryDelay input);
     refetchInterval :=
       default (refetchInterval defaults) (p_refetchInterval input);
     refetchOnWindowFocus :=
       default (refetchOnWindowFocus defaults) (p_refetchOnWindowFocus input);
     staleTime := default (staleTime defaults) (p_staleTime input);
     cacheTime := default (cacheTime defaults) (p_cacheTime input);
     mutator := default (mutator defaults) (p_mutator input) |}.

End Config.

(** [type QueryInvoker = (status, params?) => Observable<QueryOutput>] *)
Definition QueryInvoker : Type := string -> value -> trace QueryOutput.

Record Revalidator : Type := {
  key : string;
  query : option QueryInvoker;
  trigger : Trigger;
  params : option value;
  config : option Config.t;
  rdata : option value          (* the field [data] *)
}.

Definition with_trigger (tr : Trigger) (r : Revalidator) : Revalidator :=
  {| key := key r; query := query r; trigger := tr; params := params r;
     config := config r; rdata := rdata r |}.

(** ** queryKeyAndParamsToCacheKey *)

Definition queryKeyAndParamsToCacheKey (h : heap) (key : string)
    (params : value) : outcome string :=
  match params with
  | VUndefined | VNull => Ret key
  | VString s => Ret (key +:+ "-" +:+ s)
  | VNumber n => Ret (key +:+ "-" +:+ numberToString n)
  | _ =>
      let! json := JSON_stringify h params in
      Ret (key +:+ "-" +:+ stringOfStringified json)
  end.

(** ** createRetryDelay, createRetryCondition *)

Definition createRetryDelay (queryConfig : Config.t) : nat -> outcome Z :=
  match Config.retryDelay queryConfig with
  | Config.DelayNumber d => fun _ => Ret d
  | Config.DelayFunction f => f
  | Config.DelayUndefined => fun _ => Ret 0%Z
  end.

(** The delay before retry [n] as the number handed to [timer] (nothing
    when [retryDelay] throws); it stands for the milliseconds of the
    source and is no measure of time. *)
Definition retryTurns (queryConfig : Config.t) (n : nat) : nat :=
  match createRetryDelay queryConfig n with
  | Ret d => Z.to_nat d
  | Throw _ => 0
  end.

Definition createRetryCondition (queryConfig : Config.t)
    : nat -> value -> outcome bool :=
  match Config.retries queryConfig with
  | Config.RetriesNumber k => fun n _ => Ret (Z.of_nat n <? k)%Z
  | Config.RetriesPredicate f => f
  | Config.RetriesUndefined => fun _ _ => Ret false
  end.

(** ** mutate.ts *)

(** Modelled from the spec: [mutate.ts] is not among the sources.  Each of
    its three functions puts one event for the key on the revalidation bus:
    [mutate(key, value)] a mutate-success, [mutateOptimistic(key, value)] a
    mutate-optimistic, [mutateError(key, error)] a mutate-error. *)
Definition mutationEvent (tr : Trigger) (cacheKey : string) (payload : value)
    : Revalidator :=
  {| key := cacheKey; query := None; trigger := tr; params := None;
     config := None; rdata := Some payload |}.

Definition mutate_ (cacheKey : string) (newData : value) : Revalidator :=
  mutationEvent MutateSuccess cacheKey newData.
Definition mutateOptimistic (cacheKey : string) (data : value) : Revalidator :=
  mutationEvent MutateOptimistic cacheKey data.
Definition mutateError (cacheKey : string) (errorData : value) : Revalidator :=
  mutationEvent MutateError cacheKey errorData.

(** ** The invoker built by [query] *)

Section invokeQuery.

(** The heap the parameters live in. *)
Variable h : heap.
(** Steps granted to [expand] and [concatMap]. *)
Variable fuel : nat.
(** The first argument of [query], called [key] there. *)
Variable queryKey : string.
(** The fetch function.  A JavaScript function need not be pure: its
    second argument here is the number of calls made before this one, so
    that every call may behave differently.  It returns an observable or
    throws. *)
Variable query : value -> nat -> outcome (trace value).
Variable queryConfig : Config.t.

Definition retryCondition : nat -> value -> outcome bool :=
  createRetryCondition queryConfig.
Definition retryDelay : nat -> outcome Z := createRetryDelay queryConfig.

Definition successOutput (retries : nat) (data : value) : QueryOutput :=
  {| status := "success"; data := Some data; error := None;
     retries := match retries with O => None | S _ => Some retries end;
     mutate := None |}.

Definition errorOutput (retries : nat) (error : value) : QueryOutput :=
  {| status := "error"; data := None; error := Some error;
     retries := Some retries; mutate := None |}.

Definition invoke (params : value) (retries : nat)
    : outcome (trace QueryOutput) :=
  let! fetched := query params retries in
  Ret (catchError (fun error => Ret (of_list [errorOutput retries error]))
         (map (successOutput retries) fetched)).

(** The events [mutateQuery(data)] puts on the bus, in order. *)
Definition mutateQuery (params : value) (data : value)
    : outcome (list Revalidator) :=
  let! mutate' := Config.mutator queryConfig data params in
  let! cacheKey := queryKeyAndParamsToCacheKey h queryKey params in
  match mutate' with
  | MObservable o =>
      Ret (subscribe (fun evt : list Revalidator => evt)
             (fun errorData => [mutateError cacheKey errorData])
             (startWith [mutateOptimistic cacheKey data]
                (take 1 (map (fun newData => [mutate_ cacheKey newData]) o))))
  | MValue v => Ret [mutate_ cacheKey v]
  end.

(** [result.retries || 0] and [result.error] *)
Definition retriesOf (result : QueryOutput) : nat := default 0 (retries result).
Definition errorOf (result : QueryOutput) : value :=
  default VUndefined (error result).

(** The projection handed to [expand].  [retryCondition] is called only
    for a state with the status ['error'], and [retryDelay] only when the
    condition allowed the retry; what either of them throws leaves the
    projection as an exception. *)
Definition retryProject (loadingStatus : string) (params : value)
    (result : QueryOutput) : outcome (trace QueryOutput) :=
  if String.eqb (status result) "error" then
    let! again := retryCondition (retriesOf result) (errorOf result) in
    if again : bool then
      let! d := retryDelay (retriesOf result) in
      Ret (startWith (with_status loadingStatus result)
             (concatMap fuel (fun _ => invoke params (retriesOf result + 1))
                (timer (Z.to_nat d))))
    else Ret EMPTY
  else Ret EMPTY.

(** The duration handed to [debounce]. *)
Definition errorDuration (result : QueryOutput) : outcome (trace nat) :=
  Ret (if String.eqb (status result) "error" then timer 0 else EMPTY).

(** [callResult$] before its last two operators. *)
Definition attempts (loadingStatus : string) (params : value)
    : outcome (trace QueryOutput) :=
  let! first := invoke params 0 in
  Ret (expand fuel (retryProject loadingStatus params) first).

(** [callResult$], which is what [invokeQuery(loadingStatus, params)]
    returns. *)
Definition callResult (loadingStatus : string) (params : value)
    : trace QueryOutput :=
  defer (fun _ =>
    let! raw := attempts loadingStatus params in
    Ret (map (with_mutate {| boundKey := queryKey; boundParams := params |})
           (debounce errorDuration raw))).

Definition invokeQuery : QueryInvoker := callResult.

End invokeQuery.

(** ** Fetch functions that always fail *)

(** The observable that the [n]-th call returns emits nothing and errors
    with [err n] after [lat n] turns of the event loop ([throwError] is
    [lat n = 0]). *)
Definition alwaysFails (lat : nat -> nat) (err : nat -> value)
    : value -> nat -> outcome (trace value) :=
  fun _ n => Ret (ticks (lat n) ++ [Error (err n)]).

(** The state the invocation shows while it waits to retry after the
    failure of attempt [i], and the state it ends with after attempt [k]. *)
Definition interimState (loadingStatus : string) (err : nat -> value)
    (i : nat) : QueryOutput :=
  with_status loadingStatus (errorOutput i (err i)).

Definition terminalState (err : nat -> value) (k : nat) : QueryOutput :=
  errorOutput k (err k).

(** Steps that are enough to run attempt [n] and the [more] attempts after
    it, when attempt [n] fails after [wait] turns. *)
Fixpoint enough (lat delay : nat -> nat) (more n wait : nat) : nat :=
  match more with
  | O => 2 * wait + 8
  | S more' =>
      2 * wait + 12 + enough lat delay more' (S n) (delay n + lat (S n))
  end.

(** What [expand] delivers from attempt [n] on when [more] retries are
    allowed after it, and what is left of it after [debounce]. *)
Fixpoint failedAttempts (loadingStatus : string) (lat delay : nat -> nat)
    (err : nat -> value) (more n : nat) : trace QueryOutput :=
  Next (terminalState err n) ::
  match more with
  | O => [Complete]
  | S more' =>
      Next (interimState loadingStatus err n) ::
      ticks (S (delay n) + lat (S n)) ++
      failedAttempts loadingStatus lat delay err more' (S n)
  end.

Fixpoint shownAttempts (loadingStatus : string) (lat delay : nat -> nat)
    (err : nat -> value) (more n : nat) : trace QueryOutput :=
  match more with
  | O => [Next (terminalState err n); Complete]
  | S more' =>
      Next (interimState loadingStatus err n) ::
      ticks (S (delay n) + lat (S n)) ++
      shownAttempts loadingStatus lat delay err more' (S n)
  end.

(** The value that [debounce] holds for [errorDuration] waits for
    [timer(0)], of which the first turn has passed. *)
Definition held_by_timer (held : option (QueryOutput * trace nat)) : Prop :=
  match held with
  | Some (_, d) => d = [Next 0; Complete]
  | None => True
  end.

(** ** Fetch functions that fail and then settle *)

(** What [expand] delivers from attempt [n] on when that attempt and the
    [more - 1] after it fail and are retried, and the attempt after them ends
    the invocation with the state [final]; and what [debounce] leaves of
    it. *)
Fixpoint attemptsUntil (loadingStatus : string) (lat delay : nat -> nat)
    (err : nat -> value) (final : QueryOutput) (more n : nat)
    : trace QueryOutput :=
  match more with
  | O => [Next final; Complete]
  | S more' =>
      Next (terminalState err n) ::
      Next (interimState loadingStatus err n) ::
      ticks (S (delay n) + lat (S n)) ++
      attemptsUntil loadingStatus lat delay err final more' (S n)
  end.

Fixpoint shownUntil (loadingStatus : string) (lat delay : nat -> nat)
    (err : nat -> value) (final : QueryOutput) (more n : nat)
    : trace QueryOutput :=
  match more with
  | O => [Next final; Complete]
  | S more' =>
      Next (interimState loadingStatus err n) ::
      ticks (S (delay n) + lat (S n)) ++
      shownUntil loadingStatus lat delay err final more' (S n)
  end.

(** The state that attempt [n] ends with when the attempts before the
    [j]-th fail and the [j]-th ends with [final]. *)
Definition attemptOf (err : nat -> value) (final : QueryOutput) (j n : nat)
    : QueryOutput :=
  if (n <? j)%nat then terminalState err n else final.

(** ** parseInput *)

(** One of the arguments of [query] after the key.  An object literal is an
    object in the heap and, where [parseInput] reads it as a configuration,
    the options it holds. *)
Inductive input : Type :=
  | InFunction (f : value -> nat -> outcome (trace value))
  | InObservable (o : trace value)
  | InObject (l : loc) (options : Config.partial)
  | InValue (v : value).

Record ParsedInput : Type := {
  parsedQuery : value -> nat -> outcome (trace value);
  parsedQueryParam : trace value;
  parsedQueryConfig : Config.t
}.

Definition isFunction (i : input) : bool :=
  match i with InFunction _ => true | _ => false end.

(** [of(firstInput)], or the input itself when it is an observable. *)
Definition inputAsParam (i : input) : trace value :=
  match i with
  | InObservable o => o
  | InObject l _ => of_list [VRef l]
  | InValue v => of_list [v]
  | InFunction _ => of_list [VFunction 0]
  end.

(** The cast [as (params?) => Observable]: calling what is not a function
    throws. *)
Definition inputAsQuery (i : input) : value -> nat -> outcome (trace value) :=
  match i with
  | InFunction f => f
  | _ => fun _ _ => Throw (VError "TypeError" "query is not a function")
  end.

(** The options spread into the configuration. *)
Definition inputAsConfig (i : input) : Config.partial :=
  match i with
  | InObject _ options => options
  | _ => Config.empty
  end.

Definition parseInput (DEFAULT_QUERY_CONFIG : Config.t) (inputs : list input)
    : ParsedInput :=
  let firstInput := nth 0 inputs (InValue VUndefined) in
  let secondInput := nth 1 inputs (InValue VUndefined) in
  let thirdInput := nth 2 inputs (InValue VUndefined) in
  let hasParamInput := negb (isFunction firstInput) in
  {| parsedQueryParam :=
       if hasParamInput then inputAsParam firstInput else of_list [VNull];
     parsedQuery :=
       inputAsQuery (if isFunction firstInput then firstInput else secondInput);
     parsedQueryConfig :=
       Config.spread DEFAULT_QUERY_CONFIG
         (inputAsConfig (if hasParamInput then thirdInput else secondInput)) |}.

(** ** paramsTrigger *)

Section triggers.

Variable h : heap.
Variable fuel : nat.
Variable queryConfig : Config.t.
Variable queryKey : string.
Variable invokeQuery : QueryInvoker.

(** [(a, b) => JSON.stringify(a) === JSON.stringify(b)] *)
Definition sameJSON (a b : value) : outcome bool :=
  let! x := JSON_stringify h a in
  let! y := JSON_stringify h b in
  Ret (bool_decide (x = y)).

Definition revalidatorFor (tr : Trigger) (cacheKey : string) (p : value)
    : Revalidator :=
  {| key := cacheKey; query := Some invokeQuery; trigger := tr;
     params := Some p; config := Some queryConfig; rdata := None |}.

(** The array the callback of [concatMap] returns. *)
Definition revalidates (pair : value * value)
    : outcome (trace Revalidator) :=
  let previous := pair.1 in
  let params := pair.2 in
  let! unsubscribe :=
    match previous with
    | VUndefined => Ret []
    | _ =>
        let! k := queryKeyAndParamsToCacheKey h queryKey previous in
        Ret [revalidatorFor QueryUnsubscribe k previous]
    end in
  let! k := queryKeyAndParamsToCacheKey h queryKey params in
  Ret (of_list (unsubscribe ++ [revalidatorFor QuerySubscribe k params])).

(** What the first subscriber of [params$] receives; [shareReplay] hands
    later ones the same values ([shareReplay_late]). *)
Definition paramsTrigger (queryParam : trace value) : trace Revalidator :=
  concatMap fuel revalidates
    (pairwise
       (distinctUntilChanged sameJSON (startWith VUndefined queryParam))).

(** The Revalidators for a run of parameter values, each with its cache key:
    the subscription of the first, and for every later value the
    unsubscription of the value before it and then its own subscription. *)
Fixpoint changesFrom (previous : value * string) (ps : list (value * string))
    : list Revalidator :=
  match ps with
  | [] => []
  | pk :: ps' =>
      revalidatorFor QueryUnsubscribe previous.2 previous.1 ::
      revalidatorFor QuerySubscribe pk.2 pk.1 ::
      changesFrom pk ps'
  end.

Definition changes (ps : list (value * string)) : list Revalidator :=
  match ps with
  | [] => []
  | pk :: ps' => revalidatorFor QuerySubscribe pk.2 pk.1 :: changesFrom pk ps'
  end.

(** The parameters [pk.1] are not [undefined] and have the cache key
    [pk.2]. *)
Definition keyed (pk : value * string) : Prop :=
  pk.1 <> VUndefined /\ queryKeyAndParamsToCacheKey h queryKey pk.1 = Ret pk.2.

(** The content of the array that the callback of [concatMap] returns for a
    pair. *)
Definition arrayOf (pair : value * value) : list Revalidator :=
  match revalidates pair with
  | Ret t => values t
  | Throw _ => []
  end.

(** ** intervalTrigger, focusTrigger *)

(** Both pair an outside event (a tick of the interval, a focus event of the
    window) with the latest parameters: in the feed, [inl] is such an event
    and [inr] a notification of [queryParam]. *)
Definition eventTrigger (tr : Trigger)
    (feed : list (notification unit + notification value))
    : trace Revalidator :=
  tryMap (fun ep : unit * value =>
            let! k := queryKeyAndParamsToCacheKey h queryKey ep.2 in
            Ret (revalidatorFor tr k ep.2))
    (withLatestFrom feed).

Definition intervalTrigger
    (feed : list (notification unit + notification value))
    : trace Revalidator :=
  match Config.refetchInterval queryConfig with
  | Config.IntervalMaxValue => NEVER
  | _ => eventTrigger Interval feed
  end.

Definition focusTrigger
    (feed : list (notification unit + notification value))
    : trace Revalidator :=
  if Config.refetchOnWindowFocus queryConfig
  then eventTrigger Focus feed
  else NEVER.

End triggers.

(** ** The observable [query] returns *)

(** Modelled from the spec: [types.ts] and [cache.ts] are not among the
    sources.  A group holds, per cache key, [subscriberCount], [result], an
    eviction timer and [mutating]; the record adds what the transitions of
    the store read besides: whether an invocation is running and which
    trigger started it, when the result was cached, and the data to restore
    when a mutation fails. *)
Record GroupState : Type := {
  subscriberCount : nat;
  result : QueryOutput;
  evictionTimer : bool;
  mutating : bool;
  invoking : bool;
  cause : Trigger;
  cachedAt : option Z;
  rollback : option value
}.

(** What [queryCache] maps a cache key to. *)
Record CacheEntry : Type := {
  groupState : GroupState;
  entryTrigger : Trigger       (* the field [trigger] *)
}.

Inductive Effect : Type :=
  | RevalidateNext (r : Revalidator)
  | UnsubscribeTriggers.

Section result.

(** [distinctUntilChanged()] compares with [===]: two results are the same
    when they are the same object, which is for the cache to decide. *)
Variable sameObject : QueryOutput -> QueryOutput -> bool.

Definition isBookkeeping (tr : Trigger) : bool :=
  bool_decide (tr ∈ [QueryUnsubscribe; GroupUnsubscribe]).

(** [(v) => !!v && !['query-unsubscribe', 'group-unsubscribe'].includes(v.trigger)] *)
Definition important (v : option CacheEntry) : bool :=
  match v with
  | Some entry => negb (isBookkeeping (entryTrigger entry))
  | None => false
  end.

(** [(v) => v.groupState.result] *)
Definition resultOf (v : option CacheEntry) : outcome QueryOutput :=
  match v with
  | Some entry => Ret (result (groupState entry))
  | None =>
      Throw (VError "TypeError" "Cannot read properties of undefined")
  end.

(** The pipe from [queryCache] to the consumer; [inl] is an emission of
    [queryCache], [inr] one of [params$].  An emission is read as a
    dictionary of its own entries: [c[k.key]] finds nothing under a key that
    the store has not put there. *)
Definition results
    (feed : list (notification (gmap string CacheEntry)
                  + notification Revalidator))
    : trace QueryOutput :=
  distinctUntilChanged (fun a b => Ret (sameObject a b))
    (tryMap resultOf
       (filter important
          (map (fun ck : gmap string CacheEntry * Revalidator =>
                  ck.1 !! key ck.2)
             (withLatestFrom feed)))).

(** The callback of [finalize], run when the consumer unsubscribes after
    [params$] has delivered [seen] notifications: what it does before it
    returns. *)
Definition finalize (seen : nat) (params' : trace Revalidator)
    : list Effect :=
  subscribe
    (fun p => [RevalidateNext (with_trigger QueryUnsubscribe p)])
    (fun _ => [])
    (synchronous (take 1 (shareReplay_late seen params')))
  ++ [UnsubscribeTriggers].

End result.

End Query.

(* ===================================================================== *)
(** * The group state store *)
(* ===================================================================== *)

Module Store.

Import Query.

(** Modelled from the spec: [cache.ts], the store behind [revalidate] and
    [queryCache], is not among the sources.  The definitions of this module
    follow the transition table of the specification: events are applied one
    at a time, in the order of the bus; the store is the only writer of the
    groups; after each event it broadcasts the group of the event's key with
    the trigger.  An invocation re-enters the bus with the states it emits
    and with its terminal state; these carry the cache key, and the store
    gives them to the group that the key has when they arrive, if that
    group records an invocation.  Deleting a group does not end the
    invocation it was running (section 5: an in-flight fetch is not
    aborted): the run goes on without its group, and is over when it has
    delivered its terminal state. *)

Inductive BusEvent : Type :=
  | Revalidate (r : Revalidator) (now : Z)
  | Emitted (k : string) (state : QueryOutput)
  | Settled (k : string) (state : QueryOutput) (now : Z)
  | EvictionTimerFired (k : string).

(** What the store does in answer to an event. *)
Inductive Action : Type :=
  | Started (k : string) (label : string)    (* an Invocation Engine run begins *)
  | Finished (k : string)                    (* a run delivered its terminal state *)
  | Orphaned (k : string)                    (* the group of a run in flight was deleted *)
  | Broadcast (c : gmap string CacheEntry).

Definition blank (s : string) (d : option value) : QueryOutput :=
  {| status := s; data := d; error := None; retries := None; mutate := None |}.

(** [data] carries the last known-good value across the states that have
    none of their own. *)
Definition carry (previous : option value) (state : QueryOutput) : QueryOutput :=
  {| status := status state;
     data := match data state with Some d => Some d | None => previous end;
     error := error state; retries := retries state; mutate := mutate state |}.

(** A cached result is fresh while [now - cachedAt < staleTime]. *)
Definition fresh (now : Z) (g : GroupState) (staleTime : Z) : bool :=
  match cachedAt g with
  | Some t => (now - t <? staleTime)%Z
  | None => false
  end.

Definition staleTimeOf (r : Revalidator) : Z :=
  match config r with
  | Some c => Config.staleTime c
  | None => 0%Z
  end.

Definition broadcast (k : string) (g : GroupState) (tr : Trigger) : Action :=
  Broadcast {[ k := {| groupState := g; entryTrigger := tr |} ]}.

(** The label of an invocation: [loading] when there is no data to show,
    [refreshing] when there is. *)
Definition labelFor (g : option GroupState) : string :=
  match g ≫= (fun g => data (result g)) with
  | Some _ => "refreshing"
  | None => "loading"
  end.

(** The group as it starts an invocation. *)
Definition begin (count : nat) (armed : bool) (tr : Trigger) (label : string)
    (g : option GroupState) : GroupState :=
  {| subscriberCount := count;
     result := blank label (g ≫= (fun g => data (result g)));
     evictionTimer := armed; mutating := from_option mutating false g;
     invoking := true; cause := tr;
     cachedAt := g ≫= cachedAt; rollback := g ≫= rollback |}.

Definition set_result (g : GroupState) (r : QueryOutput) (inv : bool)
    (at_ : option Z) : GroupState :=
  {| subscriberCount := subscriberCount g; result := r;
     evictionTimer := evictionTimer g; mutating := mutating g;
     invoking := inv; cause := cause g; cachedAt := at_;
     rollback := rollback g |}.

Definition set_count (g : GroupState) (n : nat) (armed : bool) : GroupState :=
  {| subscriberCount := n; result := result g; evictionTimer := armed;
     mutating := mutating g; invoking := invoking g; cause := cause g;
     cachedAt := cachedAt g; rollback := rollback g |}.

Definition set_mutation (g : GroupState) (r : QueryOutput) (m : bool)
    (saved : option value) : GroupState :=
  {| subscriberCount := subscriberCount g; result := r;
     evictionTimer := evictionTimer g; mutating := m;
     invoking := invoking g; cause := cause g; cachedAt := cachedAt g;
     rollback := saved |}.

(** Deleting a group leaves the invocation it was running without one. *)
Definition orphans (k : string) (g : GroupState) : list Action :=
  if invoking g then [Orphaned k] else [].

Section store.

(** [mutate-success] merges a partial value into the previous object; how
    objects are merged is left to the caller. *)
Variable merge : option value -> value -> value.

Definition subscribe_ (s : gmap string GroupState) (r : Revalidator) (now : Z)
    : gmap string GroupState * list Action :=
  let k := key r in
  match s !! k with
  | None =>
      let label := labelFor None in
      let g := begin 1 false QuerySubscribe label None in
      (<[k := g]> s, [Started k label; broadcast k g QuerySubscribe])
  | Some g =>
      let n := S (subscriberCount g) in
      if negb (fresh now g (staleTimeOf r)) && negb (invoking g) then
        let label := labelFor (Some g) in
        let g' := begin n false QuerySubscribe label (Some g) in
        (<[k := g']> s, [Started k label; broadcast k g' QuerySubscribe])
      else
        let g' := set_count g n false in
        (<[k := g']> s, [broadcast k g' QuerySubscribe])
  end.

Definition unsubscribe_ (s : gmap string GroupState) (k : string)
    : gmap string GroupState * list Action :=
  match s !! k with
  | None => (s, [])
  | Some g =>
      let n := pred (subscriberCount g) in
      let g' := set_count g n (bool_decide (n = 0)) in
      (<[k := g']> s, [broadcast k g' QueryUnsubscribe])
  end.

Definition delete_ (s : gmap string GroupState) (k : string)
    : gmap string GroupState * list Action :=
  match s !! k with
  | None => (s, [])
  | Some g => (delete k s, orphans k g)
  end.

Definition refresh_ (s : gmap string GroupState) (k : string) (tr : Trigger)
    : gmap string GroupState * list Action :=
  match s !! k with
  | None => (s, [])
  | Some g =>
      if mutating g || invoking g then (s, [])
      else
        let g' := begin (subscriberCount g) (evictionTimer g) tr
                    "refreshing" (Some g) in
        (<[k := g']> s, [Started k "refreshing"; broadcast k g' tr])
  end.

Definition mutation_ (s : gmap string GroupState) (r : Revalidator)
    : gmap string GroupState * list Action :=
  let k := key r in
  let payload := default VUndefined (rdata r) in
  match s !! k with
  | None => (s, [])
  | Some g =>
      let previous := data (result g) in
      match trigger r with
      | MutateOptimistic =>
          if mutating g then (s, [])
          else
            let g' := set_mutation g (blank "mutating" (Some payload)) true
                        previous in
            (<[k := g']> s, [broadcast k g' MutateOptimistic])
      | MutateSuccess =>
          let g' := set_mutation g
                      (blank "success" (Some (merge previous payload)))
                      false None in
          (<[k := g']> s, [broadcast k g' MutateSuccess])
      | _ =>
          let restored := if mutating g then rollback g else previous in
          let g' := set_mutation g
                      {| status := "mutate-error"; data := restored;
                         error := Some payload; retries := None;
                         mutate := None |}
                      false None in
          (<[k := g']> s, [broadcast k g' MutateError])
      end
  end.

Definition progress_ (s : gmap string GroupState) (k : string)
    (state : QueryOutput) (settled : option Z)
    : gmap string GroupState * list Action :=
  match s !! k with
  | None => (s, [])
  | Some g =>
      if invoking g then
        let r := carry (data (result g)) state in
        match settled with
        | None =>
            let g' := set_result g r true (cachedAt g) in
            (<[k := g']> s, [broadcast k g' (cause g)])
        | Some now =>
            let at_ := if String.eqb (status state) "success"
                       then Some now else cachedAt g in
            let g' := set_result g r false at_ in
            (<[k := g']> s, [broadcast k g' (cause g)])
        end
      else (s, [])
  end.

Definition apply (s : gmap string GroupState) (e : BusEvent)
    : gmap string GroupState * list Action :=
  match e with
  | Revalidate r now =>
      match trigger r with
      | QuerySubscribe => subscribe_ s r now
      | QueryUnsubscribe => unsubscribe_ s (key r)
      | GroupUnsubscribe => delete_ s (key r)
      | Interval => refresh_ s (key r) Interval
      | Focus => refresh_ s (key r) Focus
      | MutateOptimistic | MutateSuccess | MutateError => mutation_ s r
      end
  | Emitted k state => progress_ s k state None
  | Settled k state now =>
      let '(s', acts) := progress_ s k state (Some now) in
      (s', Finished k :: acts)
  | EvictionTimerFired k =>
      match s !! k with
      | Some g =>
          if evictionTimer g && bool_decide (subscriberCount g = 0)
          then delete_ s k else (s, [])
      | None => (s, [])
      end
  end.

(** The bus: the events in order, from a given store; the actions are
    logged in the order they were taken. *)
Fixpoint run_from (s : gmap string GroupState) (events : list BusEvent)
    : gmap string GroupState * list Action :=
  match events with
  | [] => (s, [])
  | e :: events' =>
      let '(s', acts) := apply s e in
      let '(s'', acts') := run_from s' events' in
      (s'', acts ++ acts')
  end.

Definition run (events : list BusEvent) : gmap string GroupState * list Action :=
  run_from ∅ events.

End store.

(** The Invocation Engine runs for key [k] that a log leaves active: those
    that were started and have not delivered their terminal state. *)
Fixpoint active (k : string) (running : nat) (log : list Action) : nat :=
  match log with
  | [] => running
  | Started k' _ :: log' =>
      active k (if String.eqb k k' then S running else running) log'
  | Finished k' :: log' =>
      active k (if String.eqb k k' then pred running else running) log'
  | Orphaned _ :: log' | Broadcast _ :: log' => active k running log'
  end.

(** The times a log deleted the group of key [k] while its run was in
    flight. *)
Definition orphaned (k : string) (log : list Action) : nat :=
  length (List.filter
            (fun a => match a with
                      | Orphaned k' => String.eqb k k'
                      | _ => false
                      end) log).

(** The runs a log started for key [k]. *)
Definition started (k : string) (log : list Action) : nat :=
  length (List.filter
            (fun a => match a with
                      | Started k' _ => String.eqb k k'
                      | _ => false
                      end) log).

(** The emissions of [queryCache] in a log. *)
Definition broadcasts (log : list Action) : list (gmap string CacheEntry) :=
  omap (fun a => match a with Broadcast c => Some c | _ => None end) log.

(** The Invocation Engine runs for key [k] that the store records. *)
Definition running (s : gmap string GroupState) (k : string) : nat :=
  match s !! k with
  | Some g => if invoking g then 1 else 0
  | None => 0
  end.

(** What an event, or a list of events, does to the runs of key [k]: when
    [a] runs are active, of which all but [o] are recorded by the store,
    then after the actions taken, and after every prefix of them, the same
    holds with the groups deleted meanwhile counted in; and when no group
    was deleted during its run, the store records exactly the active
    runs. *)
Definition settles (s : gmap string GroupState) (k : string)
    (out : gmap string GroupState * list Action) : Prop :=
  forall a o : nat,
    a <= running s k + o ->
    active k a out.2 <= running out.1 k + (o + orphaned k out.2) /\
    (forall pre rest,
       out.2 = pre ++ rest -> active k a pre <= 1 + (o + orphaned k pre)) /\
    (orphaned k out.2 = 0 -> a = running s k ->
     active k a out.2 = running out.1 k).

(** The events that leave a run for key [k] in flight and its group in
    place: all but the terminal state of a run for the key and the deletion
    of its group. *)
Definition within_cycle (k : string) (e : BusEvent) : bool :=
  match e with
  | Revalidate r _ =>
      negb (String.eqb (key r) k && bool_decide (trigger r = GroupUnsubscribe))
  | Emitted _ _ => true
  | Settled k' _ _ => negb (String.eqb k' k)
  | EvictionTimerFired k' => negb (String.eqb k' k)
  end.

(** Every group was started by a trigger that consumers are shown. *)
Definition causes_shown (s : gmap string GroupState) : Prop :=
  forall k g, s !! k = Some g -> isBookkeeping (cause g) = false.

(** The trigger that opens a cycle: a subscription to a key without a
    group, or with a stale result and no run; an interval or focus trigger
    for a group that neither mutates nor has a run. *)
Definition opens (s : gmap string GroupState) (r : Revalidator) (now : Z)
    : Prop :=
  (trigger r = QuerySubscribe /\
   (s !! key r = None \/
    exists g, s !! key r = Some g /\ invoking g = false /\
              fresh now g (staleTimeOf r) = false)) \/
  ((trigger r = Interval \/ trigger r = Focus) /\
   exists g, s !! key r = Some g /\ invoking g = false /\
             mutating g = false).

(** The events that one run puts on the bus: its states in order, the last
    of them as the terminal one. *)
Fixpoint invocationEvents (k : string) (now : Z) (states : list QueryOutput)
    : list BusEvent :=
  match states with
  | [] => []
  | [state] => [Settled k state now]
  | state :: rest => Emitted k state :: invocationEvents k now rest
  end.

(** What reaches the result pipe of a consumer whose [params$] has emitted
    [r]: that Revalidator, and then every emission of the store. *)
Definition consumerFeed (r : Revalidator) (log : list Action)
    : list (Rx.notification (gmap string CacheEntry)
            + Rx.notification Revalidator) :=
  inr (Rx.Next r) :: List.map (fun c => inl (Rx.Next c)) (broadcasts log).

End Store.

(* ===================================================================== *)
(** * Concrete inputs *)
(* ===================================================================== *)

Module Examples.

Import Query.

(** [{a: 1, b: 2}], [{b: 2, a: 1}] and a second [{a: 1, b: 2}]. *)
Definition orderHeap : heap :=
  <[0 := CObject [("a", Data (VNumber (NFinite "1")));
                 ("b", Data (VNumber (NFinite "2")))]]>
  (<[1 := CObject [("b", Data (VNumber (NFinite "2")));
                 ("a", Data (VNumber (NFinite "1")))]]>
  (<[2 := CObject [("a", Data (VNumber (NFinite "1")));
                 ("b", Data (VNumber (NFinite "2")))]]> ∅)).

(** [{toJSON: () => 'all'}], [{toJSON() { throw 'no' }}] and
    [{get id() { throw 'no' }}], with their functions. *)
Definition methodHeap : heap :=
  <[0 := CObject [("toJSON", Data (VFunction 3))]]>
  (<[1 := CObject [("toJSON", Data (VFunction 4))]]>
  (<[2 := CObject [("id", Accessor 4)]]>
  (<[3 := CFunction (fun _ _ => Ret (VString "all"))]>
  (<[4 := CFunction (fun _ _ => Throw (VString "no"))]> ∅)))).

(** [const o = {}; o.self = o] *)
Definition selfHeap : heap := <[0 := CObject [("self", Data (VRef 0))]]> ∅.

(** A configuration with the given [retries], no delay, and the mutator
    that returns what it is given. *)
Definition plainConfig (retries : Config.retriesOption) : Config.t :=
  {| Config.retries := retries;
     Config.retryDelay := Config.DelayNumber 0;
     Config.refetchInterval := Config.IntervalMaxValue;
     Config.refetchOnWindowFocus := true;
     Config.staleTime := 0;
     Config.cacheTime := 300000;
     Config.mutator := fun data _ => Ret (MValue data) |}.

(** [() => throwError('Error')] *)
Definition failsAtOnce : value -> nat -> outcome (Rx.trace value) :=
  alwaysFails (fun _ => 0) (fun _ => VString "Error").

(** [() => { throw 'boom' }] *)
Definition throwsAtOnce : value -> nat -> outcome (Rx.trace value) :=
  fun _ _ => Throw (VString "boom").

Definition todosNull : MutateFn :=
  {| boundKey := "todos"; boundParams := VNull |}.

(** A mutator that answers with an observable which completes without a
    value, and one that answers with [of(data)]. *)
Definition silentMutator : Config.t :=
  {| Config.retries := Config.RetriesNumber 3;
     Config.retryDelay := Config.DelayNumber 0;
     Config.refetchInterval := Config.IntervalMaxValue;
     Config.refetchOnWindowFocus := true;
     Config.staleTime := 0;
     Config.cacheTime := 300000;
     Config.mutator := fun _ _ => Ret (MObservable Rx.EMPTY) |}.

Definition echoMutator : Config.t :=
  {| Config.retries := Config.RetriesNumber 3;
     Config.retryDelay := Config.DelayNumber 0;
     Config.refetchInterval := Config.IntervalMaxValue;
     Config.refetchOnWindowFocus := true;
     Config.staleTime := 0;
     Config.cacheTime := 300000;
     Config.mutator := fun data _ => Ret (MObservable (Rx.of_list [data])) |}.

(** An invoker that is never called. *)
Definition idle : QueryInvoker := fun _ _ => Rx.NEVER.

(** The parameter stream emits ['a'] and, a turn later, ['b']. *)
Definition twoParams : Rx.trace value :=
  [Rx.Next (VString "a"); Rx.Tick; Rx.Next (VString "b")].

Definition twoParamsTrigger : Rx.trace Revalidator :=
  paramsTrigger ∅ 100 (plainConfig (Config.RetriesNumber 3)) "todos" idle
    twoParams.

Definition revalidatorOf (tr : Trigger) (cacheKey : string) (p : value)
    : Revalidator :=
  revalidatorFor (plainConfig (Config.RetriesNumber 3)) idle tr cacheKey p.

(** A group that holds the result [r], and what [queryCache] emits for the
    key ["todos"] when the trigger [tr] has been applied to it. *)
Definition groupOf (r : QueryOutput) : GroupState :=
  {| subscriberCount := 1; result := r; evictionTimer := false;
     mutating := false; invoking := false; cause := QuerySubscribe;
     cachedAt := None; rollback := None |}.

Definition emission (tr : Trigger) (r : QueryOutput)
    : gmap string CacheEntry :=
  {[ "todos" := {| groupState := groupOf r; entryTrigger := tr |} ]}.

Definition loadingState : QueryOutput :=
  {| status := "loading"; data := None; error := None; retries := None;
     mutate := None |}.

Definition successState : QueryOutput :=
  {| status := "success"; data := Some (VString "x"); error := None;
     retries := None; mutate := None |}.

(** A consumer subscribes to the key ["todos"]. *)
Definition subscribeTodos : Revalidator :=
  revalidatorOf QuerySubscribe "todos" VNull.

(** The last consumer of the key leaves while the fetch is in flight, and
    the eviction timer fires. *)
Definition evicted : list Store.BusEvent :=
  [Store.Revalidate subscribeTodos 0;
   Store.Revalidate (revalidatorOf QueryUnsubscribe "todos" VNull) 1;
   Store.EvictionTimerFired "todos"].

(** The merge of [mutate-success] that replaces the data. *)
Definition replaceData : option value -> value -> value := fun _ v => v.

(** [() => of({id: '3'})], the object at location 0 of [idHeap]. *)
Definition idHeap : heap := <[0 := CObject [("id", Data (VString "3"))]]> ∅.

Definition fetchesId : value -> nat -> outcome (Rx.trace value) :=
  fun _ _ => Ret (Rx.of_list [VRef 0]).

(** A fetch that fails twice and then answers ['x']. *)
Definition recoversAtThird : value -> nat -> outcome (Rx.trace value) :=
  fun _ n =>
    if (n <? 2)%nat then Ret (Rx.throwError (VString "Error"))
    else Ret (Rx.of_list [VString "x"]).

(** [retries: (n, error) => error !== 'fatal'], and a server that is busy
    twice and then gives up. *)
Definition untilFatal : Config.t :=
  {| Config.retries :=
       Config.RetriesPredicate
         (fun _ error => Ret (bool_decide (error <> VString "fatal")));
     Config.retryDelay := Config.DelayNumber 2;
     Config.refetchInterval := Config.IntervalMaxValue;
     Config.refetchOnWindowFocus := true;
     Config.staleTime := 0;
     Config.cacheTime := 300000;
     Config.mutator := fun data _ => Ret (MValue data) |}.

(** [retries: () => { throw 'no retries' }] and
    [retryDelay: () => { throw 'no delay' }]. *)
Definition retriesThrows : Config.t :=
  {| Config.retries :=
       Config.RetriesPredicate (fun _ _ => Throw (VString "no retries"));
     Config.retryDelay := Config.DelayNumber 0;
     Config.refetchInterval := Config.IntervalMaxValue;
     Config.refetchOnWindowFocus := true;
     Config.staleTime := 0;
     Config.cacheTime := 300000;
     Config.mutator := fun data _ => Ret (MValue data) |}.

Definition delayThrows : Config.t :=
  {| Config.retries := Config.RetriesNumber 3;
     Config.retryDelay :=
       Config.DelayFunction (fun _ => Throw (VString "no delay"));
     Config.refetchInterval := Config.IntervalMaxValue;
     Config.refetchOnWindowFocus := true;
     Config.staleTime := 0;
     Config.cacheTime := 300000;
     Config.mutator := fun data _ => Ret (MValue data) |}.

Definition busyThenFatal (n : nat) : value :=
  if (n <? 2)%nat then VString "busy" else VString "fatal".

(** The invocation of the test "retries then errors": three retries, a
    fetch that fails at once. *)
Definition threeRetries : Rx.trace QueryOutput :=
  callResult 100 "todos" failsAtOnce (plainConfig (Config.RetriesNumber 3))
    "loading" VNull.

(** The parameter stream counts the pages [1], [2], [3], one per turn. *)
Definition threePages : Rx.trace value :=
  [Rx.Next (VNumber (NFinite "1")); Rx.Tick; Rx.Next (VNumber (NFinite "2")); Rx.Tick;
   Rx.Next (VNumber (NFinite "3"))].

(** [{refetchOnWindowFocus: true, refetchInterval: 5}] *)
Definition refetching : Config.t :=
  {| Config.retries := Config.RetriesNumber 3;
     Config.retryDelay := Config.DelayNumber 0;
     Config.refetchInterval := Config.IntervalNumber 5;
     Config.refetchOnWindowFocus := true;
     Config.staleTime := 0;
     Config.cacheTime := 300000;
     Config.mutator := fun data _ => Ret (MValue data) |}.

(** [{id: 1, filter: undefined}] and [{id: 1}] *)
Definition filterHeap : heap :=
  <[0 := CObject [("id", Data (VNumber (NFinite "1")));
                 ("filter", Data VUndefined)]]>
  (<[1 := CObject [("id", Data (VNumber (NFinite "1")))]]> ∅).

(** Two results are the same object when they have the same status: enough
    to tell the results of [loadedFeed] apart. *)
Definition byStatus (a b : QueryOutput) : bool :=
  String.eqb (status a) (status b).

(** The consumer of ["todos"] has subscribed; the cache emits the loading
    state and then the fetched data. *)
Definition loadedFeed
    : list (Rx.notification (gmap string CacheEntry)
            + Rx.notification Revalidator) :=
  [inr (Rx.Next subscribeTodos);
   inl (Rx.Next (emission QuerySubscribe loadingState));
   inl (Rx.Next (emission QuerySubscribe successState))].

End Examples.

(* ===================================================================== *)
(** * Properties of the cache key codec *)
(* ===================================================================== *)

Section codec_facts.

Import Query.

Lemma serializeFields_ext (read read' : property -> outcome value)
    (f g : string -> value -> outcome (option string)) fields :
  (forall kp, kp ∈ fields ->
     read kp.2 = read' kp.2 /\
     forall v, read' kp.2 = Ret v -> f kp.1 v = g kp.1 v) ->
  serializeFields read f fields = serializeFields read' g fields.
Proof.
  induction fields as [|[k p] rest IH]; intros Hfg; [done|].
  cbn [serializeFields].
  destruct (Hfg (k, p)) as [Hread Hser]; [left|]. cbn in Hread, Hser.
  rewrite Hread. rewrite IH; [|intros kp Hkp; apply Hfg; by right].
  destruct (read' p) as [v|e]; [|done]. cbn [bind]. by rewrite (Hser v).
Qed.

Lemma serializeElemsFrom_ext (f g : string -> value -> outcome (option string))
    index elems :
  (forall k v, v ∈ elems -> f k v = g k v) ->
  serializeElemsFrom f index elems = serializeElemsFrom g index elems.
Proof.
  revert index. induction elems as [|v rest IH]; intros index Hfg; [done|].
  cbn [serializeElemsFrom]. rewrite (Hfg _ v); [|left].
  rewrite IH; [done|]. intros k w Hw. apply Hfg. by right.
Qed.

Lemma serializeElems_ext (f g : string -> value -> outcome (option string))
    elems :
  (forall k v, v ∈ elems -> f k v = g k v) ->
  serializeElems f elems = serializeElems g elems.
Proof. apply serializeElemsFrom_ext. Qed.

Lemma serializeFields_ret (read : property -> outcome value)
    (f : string -> value -> outcome (option string)) fields :
  (forall kp, kp ∈ fields ->
     exists v, read kp.2 = Ret v /\ exists o, f kp.1 v = Ret o) ->
  exists ms, serializeFields read f fields = Ret ms.
Proof.
  induction fields as [|[k p] rest IH]; intros Hf; [by eexists|].
  cbn [serializeFields].
  destruct (Hf (k, p)) as (v & Hv & o & Ho); [left|]. cbn in Hv, Ho.
  rewrite Hv. cbn [bind]. rewrite Ho. cbn [bind].
  destruct IH as [ms Hms]; [intros kp Hkp; apply Hf; by right|].
  rewrite Hms. cbn. by eexists.
Qed.

Lemma serializeElemsFrom_ret (f : string -> value -> outcome (option string))
    index elems :
  (forall k v, v ∈ elems -> exists o, f k v = Ret o) ->
  exists ms, serializeElemsFrom f index elems = Ret ms.
Proof.
  revert index. induction elems as [|v rest IH]; intros index Hf; [by eexists|].
  cbn [serializeElemsFrom].
  destruct (Hf (pretty index) v) as [o Ho]; [left|]. rewrite Ho. cbn [bind].
  destruct (IH (S index)) as [ms Hms]; [intros k w Hw; apply Hf; by right|].
  rewrite Hms. cbn. by eexists.
Qed.

Lemma forallb_elem {A} (p : A -> bool) l x :
  forallb p l = true -> x ∈ l -> p x = true.
Proof.
  intros Hall Hx. apply list_elem_of_In in Hx.
  by apply (proj1 (forallb_forall p l) Hall).
Qed.

Lemma field_elem k p fields : field k fields = Some p -> (k, p) ∈ fields.
Proof.
  induction fields as [|[k' q] rest IH]; [done|]. cbn [field].
  destruct (String.eqb k k') eqn:E.
  - apply String.eqb_eq in E. subst k'. intros [= ->]. left.
  - intros H. right. by apply IH.
Qed.

Lemma plainField_data ok kp :
  plainField ok kp = true ->
  exists v, kp.2 = Data v /\ isToJSON kp.1 v = false /\ ok v = true.
Proof.
  unfold plainField. destruct kp.2 as [v|g]; [|done].
  intros [Hk Hv]%andb_true_iff. apply negb_true_iff in Hk. by exists v.
Qed.

Lemma plain_object n h l fields :
  h !! l = Some (CObject fields) ->
  plain (S n) h (VRef l) = forallb (plainField (plain n h)) fields.
Proof. intros Hl. cbn [plain]. by rewrite Hl. Qed.

Lemma plain_array n h l elems :
  h !! l = Some (CArray elems) ->
  plain (S n) h (VRef l) = forallb (plain n h) elems.
Proof. intros Hl. cbn [plain]. by rewrite Hl. Qed.

Lemma plain_mono n h v : plain n h v = true -> plain (S n) h v = true.
Proof.
  revert v. induction n as [|n IH]; intros v; destruct v; try done.
  - cbn. destruct (h !! l) as [[fields|elems|body]|]; done.
  - destruct (h !! l) as [[fields|elems|body]|] eqn:Hl.
    + rewrite !(plain_object _ _ _ _ Hl).
      intros Hall. apply forallb_forall. intros kp Hkp.
      apply (proj1 (forallb_forall _ _) Hall) in Hkp.
      apply plainField_data in Hkp as (v & Hp & Hk & Hv).
      unfold plainField. rewrite Hp, Hk. cbn. by apply IH.
    + rewrite !(plain_array _ _ _ _ Hl).
      intros Hall. apply forallb_forall. intros w Hw.
      apply IH. by apply (proj1 (forallb_forall _ _) Hall).
    + cbn. by rewrite Hl.
    + cbn. by rewrite Hl.
Qed.

Lemma treeJSON_object n h l fields :
  h !! l = Some (CObject fields) ->
  treeJSON (S n) h (VRef l)
  = let! ms := serializeFields dataOf (fun _ => treeJSON n h) fields in
    Ret (Some ("{" +:+ String.concat "," ms +:+ "}")).
Proof. intros Hl. cbn [treeJSON]. by rewrite Hl. Qed.

Lemma treeJSON_array n h l elems :
  h !! l = Some (CArray elems) ->
  treeJSON (S n) h (VRef l)
  = let! ms := serializeElems (fun _ => treeJSON n h) elems in
    Ret (Some ("[" +:+ String.concat "," ms +:+ "]")).
Proof. intros Hl. cbn [treeJSON]. by rewrite Hl. Qed.

Lemma treeJSON_mono n h v :
  plain n h v = true -> treeJSON (S n) h v = treeJSON n h v.
Proof.
  revert v. induction n as [|n IH]; intros v; destruct v; try done.
  - cbn. destruct (h !! l) as [[fields|elems|body]|]; done.
  - destruct (h !! l) as [[fields|elems|body]|] eqn:Hl.
    + rewrite (plain_object _ _ _ _ Hl), !(treeJSON_object _ _ _ _ Hl).
      intros Hall.
      rewrite (serializeFields_ext dataOf dataOf _ (fun _ => treeJSON n h));
        [done|].
      intros kp Hkp. split; [done|]. intros v Hv.
      apply (forallb_elem _ _ _ Hall) in Hkp.
      apply plainField_data in Hkp as (v' & Hp & _ & Hplain).
      rewrite Hp in Hv. injection Hv as <-. by apply IH.
    + rewrite (plain_array _ _ _ _ Hl), !(treeJSON_array _ _ _ _ Hl).
      intros Hall.
      rewrite (serializeElems_ext _ (fun _ => treeJSON n h)); [done|].
      intros _ w Hw. apply IH. by apply (forallb_elem _ _ _ Hall).
    + cbn. by rewrite Hl.
    + cbn. by rewrite Hl.
Qed.

Lemma treeJSON_ret n h v :
  plain n h v = true -> exists o, treeJSON n h v = Ret o.
Proof.
  revert v. induction n as [|n IH]; intros v; destruct v;
    try done; try (by eexists); try (destruct b; by eexists);
    try (destruct n0; by eexists); try (destruct n; by eexists).
  - cbn. destruct (h !! l) as [[fields|elems|body]|]; try done; by eexists.
  - destruct (h !! l) as [[fields|elems|body]|] eqn:Hl.
    + rewrite (plain_object _ _ _ _ Hl), (treeJSON_object _ _ _ _ Hl).
      intros Hall.
      destruct (serializeFields_ret dataOf (fun _ => treeJSON n h) fields)
        as [ms Hms].
      { intros kp Hkp. apply (forallb_elem _ _ _ Hall) in Hkp.
        apply plainField_data in Hkp as (v & Hp & _ & Hplain).
        exists v. rewrite Hp. split; [done|]. by apply IH. }
      rewrite Hms. by eexists.
    + rewrite (plain_array _ _ _ _ Hl), (treeJSON_array _ _ _ _ Hl).
      intros Hall.
      destruct (serializeElemsFrom_ret (fun _ => treeJSON n h) 0 elems)
        as [ms Hms].
      { intros _ w Hw. apply IH. by apply (forallb_elem _ _ _ Hall). }
      unfold serializeElems. rewrite Hms. by eexists.
    + cbn. rewrite Hl. by eexists.
    + cbn. rewrite Hl. by eexists.
Qed.

(** A plain value has no [toJSON] method for [JSON.stringify] to call. *)
Lemma toJSONStep_plain n h key v :
  plain n h v = true -> toJSONStep h key v = Ret v.
Proof.
  destruct v; try done. cbn [toJSONStep].
  destruct (h !! l) as [[fields|elems|body]|] eqn:Hl; try done.
  destruct n as [|n]; [cbn; by rewrite Hl|].
  rewrite (plain_object _ _ _ _ Hl). intros Hall.
  destruct (field "toJSON" fields) as [p|] eqn:Hp; [|done].
  apply field_elem in Hp. apply (forallb_elem _ _ _ Hall) in Hp.
  apply plainField_data in Hp as (t & Hdata & Ht & _).
  cbn in Hdata, Ht. subst p. cbn [get bind].
  destruct t; try done.
Qed.

(** A stack of distinct objects of the heap is no longer than the heap is
    large. *)
Lemma stack_bound (h : heap) (stack : list loc) :
  NoDup stack -> (forall l, l ∈ stack -> is_Some (h !! l)) ->
  length stack <= size h.
Proof.
  intros Hnd Hin. rewrite <- (size_dom (D := gset loc) h).
  unfold size, set_size. cbn.
  apply submseteq_length, NoDup_submseteq; [done|].
  intros l Hl. apply elem_of_elements, elem_of_dom. by apply Hin.
Qed.

(** What [SerializeJSONProperty] does with a value that has no [toJSON]
    method to call. *)
Lemma serialize_object fuel h stack key l fields :
  toJSONStep h key (VRef l) = Ret (VRef l) ->
  h !! l = Some (CObject fields) -> l ∉ stack ->
  serializeJSONProperty (S fuel) h stack key (VRef l)
  = let! ms := serializeFields (get h (VRef l))
                 (serializeJSONProperty fuel h (l :: stack)) fields in
    Ret (Some ("{" +:+ String.concat "," ms +:+ "}")).
Proof.
  intros Hstep Hl Hfresh. cbn [serializeJSONProperty].
  rewrite Hstep. cbn [bind]. rewrite Hl.
  by rewrite bool_decide_eq_false_2.
Qed.

Lemma serialize_array fuel h stack key l elems :
  h !! l = Some (CArray elems) -> l ∉ stack ->
  serializeJSONProperty (S fuel) h stack key (VRef l)
  = let! ms := serializeElems (serializeJSONProperty fuel h (l :: stack))
                 elems in
    Ret (Some ("[" +:+ String.concat "," ms +:+ "]")).
Proof.
  intros Hl Hfresh. cbn [serializeJSONProperty toJSONStep].
  rewrite Hl. cbn [bind]. rewrite Hl.
  by rewrite bool_decide_eq_false_2.
Qed.

Lemma serialize_cycle fuel h stack key l :
  toJSONStep h key (VRef l) = Ret (VRef l) ->
  (exists fields, h !! l = Some (CObject fields))
  \/ (exists elems, h !! l = Some (CArray elems)) ->
  l ∈ stack ->
  serializeJSONProperty fuel h stack key (VRef l) = Throw cyclicError.
Proof.
  intros Hstep Hl Hmem.
  destruct fuel; cbn [serializeJSONProperty]; rewrite Hstep; cbn [bind];
    destruct Hl as [[x ->]|[x ->]]; by rewrite bool_decide_eq_true_2.
Qed.

(** On a value that nests finitely deep, [SerializeJSONProperty] never
    finds a cycle nor runs out of stack, whatever objects it is inside of,
    as long as these are deeper than the value. *)
Lemma serialize_tree n h v fuel stack key :
  plain n h v = true ->
  (forall l, l ∈ stack -> plain n h (VRef l) = false) ->
  NoDup stack ->
  (forall l, l ∈ stack -> is_Some (h !! l)) ->
  size h < fuel + length stack ->
  serializeJSONProperty fuel h stack key v = treeJSON n h v.
Proof.
  revert v fuel stack key.
  induction n as [|n IH]; intros v fuel stack key Hv Hdeep Hnd Hin Hfuel.
  - destruct v; try (destruct fuel; done).
    pose proof (toJSONStep_plain _ _ key _ Hv) as Hstep.
    cbn in Hv.
    destruct fuel; cbn [serializeJSONProperty]; rewrite Hstep; cbn;
      destruct (h !! l) as [[fields|elems|body]|]; done.
  - destruct v; try (destruct fuel; done).
    pose proof (toJSONStep_plain _ _ key _ Hv) as Hstep.
    destruct (h !! l) as [c|] eqn:Hl;
      [|destruct fuel; cbn [serializeJSONProperty]; rewrite Hstep; cbn;
        by rewrite Hl].
    assert (l ∉ stack) as Hfresh.
    { intros Hmem. apply Hdeep in Hmem. congruence. }
    assert (S (length stack) <= size h) as Hlen.
    { apply (stack_bound h (l :: stack)).
      - by constructor.
      - intros l' [->|Hl']%elem_of_cons; [by rewrite Hl|by apply Hin]. }
    destruct fuel as [|fuel]; [lia|].
    destruct (plain n h (VRef l)) eqn:Hshallow.
    + rewrite treeJSON_mono; [|done].
      apply IH; try done.
      intros l' Hl'. specialize (Hdeep l' Hl').
      destruct (plain n h (VRef l')) eqn:E; [|done].
      apply plain_mono in E. congruence.
    + assert (forall k w, plain n h w = true ->
                serializeJSONProperty fuel h (l :: stack) k w = treeJSON n h w)
        as Hchild.
      { intros k w Hw. apply IH; try done.
        - intros l' [->|Hl']%elem_of_cons; [done|].
          specialize (Hdeep l' Hl').
          destruct (plain n h (VRef l')) eqn:E; [|done].
          apply plain_mono in E. congruence.
        - by constructor.
        - intros l' [->|Hl']%elem_of_cons; [by rewrite Hl|by apply Hin].
        - cbn. lia. }
      destruct c as [fields|elems|body].
      * rewrite (serialize_object _ _ _ _ _ _ Hstep Hl Hfresh).
        rewrite (treeJSON_object _ _ _ _ Hl).
        rewrite (plain_object _ _ _ _ Hl) in Hv.
        rewrite (serializeFields_ext _ dataOf _ (fun _ => treeJSON n h));
          [done|].
        intros kp Hkp. apply (forallb_elem _ _ _ Hv) in Hkp.
        apply plainField_data in Hkp as (w & Hp & _ & Hw).
        rewrite Hp. split; [done|]. intros w' [= <-]. by apply Hchild.
      * rewrite (serialize_array _ _ _ _ _ _ Hl Hfresh).
        rewrite (treeJSON_array _ _ _ _ Hl).
        rewrite (plain_array _ _ _ _ Hl) in Hv.
        rewrite (serializeElems_ext _ (fun _ => treeJSON n h)); [done|].
        intros k w Hw. apply Hchild. by apply (forallb_elem _ _ _ Hv).
      * cbn [serializeJSONProperty]. rewrite Hstep. cbn. by rewrite Hl.
Qed.

Lemma stringify_tree n h v :
  plain n h v = true -> JSON_stringify h v = treeJSON n h v.
Proof.
  intros Hv. unfold JSON_stringify. apply serialize_tree; try done.
  - intros l Hl. by apply not_elem_of_nil in Hl.
  - constructor.
  - intros l Hl. by apply not_elem_of_nil in Hl.
  - cbn. lia.
Qed.

End codec_facts.

Section codec_claims.

Import Query Examples.

Lemma forall2b_elems {A B} (p : A -> B -> bool) l l' :
  forall2b p l l' = true -> Forall2 (fun a b => p a b = true) l l'.
Proof.
  revert l'. induction l as [|a l IH]; intros [|b l']; cbn; try done.
  intros [Hab Hrest]%andb_true_iff. constructor; [done|by apply IH].
Qed.

Lemma serializeFields_same (read : property -> outcome value)
    (f : string -> value -> outcome (option string)) fs fs' :
  Forall2 (fun kp kp' =>
             kp.1 = kp'.1 /\
             ((exists v v', read kp.2 = Ret v /\ read kp'.2 = Ret v' /\
                            f kp.1 v = f kp.1 v')
              \/ exists e, read kp.2 = Throw e /\ read kp'.2 = Throw e))
    fs fs' ->
  serializeFields read f fs = serializeFields read f fs'.
Proof.
  induction 1 as [|[k p] [k' p'] fs fs' [Hk Hp] _ IH]; [done|].
  cbn in Hk, Hp. subst k'. cbn [serializeFields].
  destruct Hp as [(v & v' & -> & -> & Hf)|(e & -> & ->)]; [|done].
  cbn [bind]. by rewrite Hf, IH.
Qed.

Lemma serializeElemsFrom_same (f : string -> value -> outcome (option string))
    index es es' :
  Forall2 (fun v v' => forall k, f k v = f k v') es es' ->
  serializeElemsFrom f index es = serializeElemsFrom f index es'.
Proof.
  intros Hall. revert index.
  induction Hall as [|v v' es es' Hv _ IH]; intros index; [done|].
  cbn [serializeElemsFrom]. by rewrite Hv, IH.
Qed.

Lemma sameShape_typeof n h v w :
  sameShape n h v w = true -> typeof v = typeof w.
Proof.
  destruct n, v, w; cbn [sameShape]; try done;
    intros E%bool_decide_eq_true; by inversion E.
Qed.

Lemma sameShape_object n h l l' fs fs' :
  h !! l = Some (CObject fs) -> h !! l' = Some (CObject fs') ->
  sameShape (S n) h (VRef l) (VRef l')
  = forall2b (fun kp kp' =>
                bool_decide (kp.1 = kp'.1)
                && sameProperty (sameShape n h) kp.2 kp'.2) fs fs'.
Proof. intros Hl Hl'. cbn [sameShape]. by rewrite Hl, Hl'. Qed.

Lemma sameShape_array n h l l' es es' :
  h !! l = Some (CArray es) -> h !! l' = Some (CArray es') ->
  sameShape (S n) h (VRef l) (VRef l') = forall2b (sameShape n h) es es'.
Proof. intros Hl Hl'. cbn [sameShape]. by rewrite Hl, Hl'. Qed.

Lemma treeJSON_sameShape n h v w :
  sameShape n h v w = true -> treeJSON n h v = treeJSON n h w.
Proof.
  revert v w. induction n as [|n IH]; intros v w.
  - destruct v, w; cbn; try done;
      intros E%bool_decide_eq_true; by inversion E.
  - destruct v, w; cbn [sameShape];
      try (intros E%bool_decide_eq_true; by inversion E).
    destruct (h !! l) as [[fs|es|body]|] eqn:Hl,
             (h !! l0) as [[fs'|es'|body']|] eqn:Hl'; try done.
    + rewrite (treeJSON_object _ _ _ _ Hl), (treeJSON_object _ _ _ _ Hl').
      intros Hall%forall2b_elems.
      rewrite (serializeFields_same dataOf (fun _ => treeJSON n h) fs fs');
        [done|].
      eapply Forall2_impl; [exact Hall|].
      intros [k p] [k' p'] [Hk Hp]%andb_true_iff.
      apply bool_decide_eq_true in Hk. split; [done|]. cbn in Hp |- *.
      destruct p as [x|g], p' as [x'|g']; try done.
      * left. exists x, x'. split_and!; try done. by apply IH.
      * right. by eexists.
    + rewrite (treeJSON_array _ _ _ _ Hl), (treeJSON_array _ _ _ _ Hl').
      intros Hall%forall2b_elems.
      unfold serializeElems.
      rewrite (serializeElemsFrom_same (fun _ => treeJSON n h) 0 es es');
        [done|].
      eapply Forall2_impl; [exact Hall|]. intros v v' Hvv _. by apply IH.
    + intros E%bool_decide_eq_true. by subst.
    + intros _. cbn. by rewrite Hl, Hl'.
Qed.

Lemma sameShape_plain n h v w :
  sameShape n h v w = true -> plain n h v = true -> plain n h w = true.
Proof.
  revert v w. induction n as [|n IH]; intros v w.
  - destruct v, w; cbn; try done;
      try (intros E%bool_decide_eq_true; by inversion E).
  - destruct v, w; cbn [sameShape];
      try (intros E%bool_decide_eq_true; by inversion E).
    destruct (h !! l) as [[fs|es|body]|] eqn:Hl,
             (h !! l0) as [[fs'|es'|body']|] eqn:Hl'; try done.
    + rewrite (plain_object _ _ _ _ Hl), (plain_object _ _ _ _ Hl').
      intros Hall%forall2b_elems Hfs. apply forallb_forall.
      intros kp' [i Hi]%list_elem_of_In%list_elem_of_lookup.
      destruct (Forall2_lookup_r _ _ _ _ _ Hall Hi)
        as (kp & Hkp & [Hk Hs]%andb_true_iff).
      apply bool_decide_eq_true in Hk.
      assert (plainField (plain n h) kp = true) as Hplain.
      { apply (forallb_elem _ _ _ Hfs). by eapply list_elem_of_lookup_2. }
      apply plainField_data in Hplain as (x & Hx & Hjson & Hok).
      unfold plainField. rewrite Hx in Hs.
      destruct kp'.2 as [x'|g']; [|done]. cbn in Hs.
      rewrite <- Hk. unfold isToJSON in *.
      rewrite <- (sameShape_typeof _ _ _ _ Hs), Hjson. cbn.
      by apply (IH x).
    + rewrite (plain_array _ _ _ _ Hl), (plain_array _ _ _ _ Hl').
      intros Hall%forall2b_elems Hes. apply forallb_forall.
      intros v' [i Hi]%list_elem_of_In%list_elem_of_lookup.
      destruct (Forall2_lookup_r _ _ _ _ _ Hall Hi) as (v & Hv & Hs).
      apply (IH v); [done|].
      apply (forallb_elem _ _ _ Hes). by eapply list_elem_of_lookup_2.
    + intros _ _. cbn. by rewrite Hl'.
    + intros _ _. cbn. by rewrite Hl'.
Qed.

Lemma codec_ret n h name (params : value) :
  plain n h params = true ->
  exists s, queryKeyAndParamsToCacheKey h name params = Ret s.
Proof.
  intros Hv. destruct (treeJSON_ret _ _ _ Hv) as [o Ho].
  unfold queryKeyAndParamsToCacheKey.
  destruct params; try (by eexists);
    rewrite (stringify_tree _ _ _ Hv), Ho; cbn; by eexists.
Qed.

(** C8, as stated, fails: [{a: 1, b: 2}] and [{b: 2, a: 1}] are deeply
    equal, and [queryKeyAndParamsToCacheKey] gives them different keys,
    because [JSON.stringify] prints the properties in the order of
    [Object.keys], which for these names is the insertion order. *)
Lemma key_depends_on_insertion_order :
  deepEqual 1 orderHeap (VRef 0) (VRef 1) = true /\
  queryKeyAndParamsToCacheKey orderHeap "todos" (VRef 0)
  <> queryKeyAndParamsToCacheKey orderHeap "todos" (VRef 1).
Proof. split; [reflexivity|]. vm_compute. discriminate. Qed.

(** C8, amended: for every query name and every pair of parameter values
    that are deeply equal with the properties of their objects listed in the
    same order (values that nest finitely deep, hold no BigInt, and whose
    objects have data properties only, none of them a [toJSON] method),
    [queryKeyAndParamsToCacheKey] returns the same cache key string. *)
Theorem key_of_same_shape n h name (v w : value) :
  plain n h v = true ->
  sameShape n h v w = true ->
  exists s, queryKeyAndParamsToCacheKey h name v = Ret s /\
            queryKeyAndParamsToCacheKey h name w = Ret s.
Proof.
  intros Hv Hvw.
  pose proof (sameShape_plain _ _ _ _ Hvw Hv) as Hw.
  pose proof (treeJSON_sameShape _ _ _ _ Hvw) as Hjson.
  destruct (treeJSON_ret _ _ _ Hv) as [o Ho].
  destruct (decide (v = w)) as [<-|Hne].
  { destruct (codec_ret n h name v Hv) as [s Hs]. by exists s. }
  destruct v.
  all: try (exfalso; apply Hne; destruct n; cbn in Hvw;
            by apply bool_decide_eq_true in Hvw).
  destruct w.
  all: try (destruct n; cbn in Hvw; by apply bool_decide_eq_true in Hvw).
  unfold queryKeyAndParamsToCacheKey.
  rewrite (stringify_tree _ _ _ Hv), (stringify_tree _ _ _ Hw).
  rewrite <- Hjson, Ho. cbn. eauto.
Qed.

Lemma key_of_same_shape_witness :
  exists s, queryKeyAndParamsToCacheKey orderHeap "todos" (VRef 0) = Ret s /\
            queryKeyAndParamsToCacheKey orderHeap "todos" (VRef 2) = Ret s.
Proof.
  apply (key_of_same_shape 1 orderHeap "todos" (VRef 0) (VRef 2));
    vm_compute; reflexivity.
Defined.

Lemma forallb_same {A} (p q : A -> bool) l :
  (forall x, x ∈ l -> p x = q x) -> forallb p l = forallb q l.
Proof.
  induction l as [|x l IH]; intros Hpq; [done|]. cbn [forallb].
  rewrite (Hpq x); [|left]. rewrite IH; [done|].
  intros y Hy. apply Hpq. by right.
Qed.

Lemma plain_agree n h h' v : agree h h' -> plain n h v = plain n h' v.
Proof.
  intros Hagree. revert v. induction n as [|n IH]; intros v.
  - destruct v; try done. cbn [plain]. specialize (Hagree l).
    destruct (h !! l) as [[fs|es|body]|], (h' !! l) as [[fs'|es'|body']|];
      done.
  - destruct v; try done. cbn [plain]. specialize (Hagree l).
    destruct (h !! l) as [[fs|es|body]|], (h' !! l) as [[fs'|es'|body']|];
      try done; cbn in Hagree; simplify_eq.
    + apply forallb_same. intros [k p] _. unfold plainField. cbn.
      destruct p; [|done]. by rewrite IH.
    + apply forallb_same. intros w _. apply IH.
Qed.

Lemma treeJSON_agree n h h' v : agree h h' -> treeJSON n h v = treeJSON n h' v.
Proof.
  intros Hagree. revert v. induction n as [|n IH]; intros v.
  - destruct v; try done. cbn [treeJSON]. specialize (Hagree l).
    destruct (h !! l) as [[fs|es|body]|], (h' !! l) as [[fs'|es'|body']|];
      done.
  - destruct v; try done. cbn [treeJSON]. specialize (Hagree l).
    destruct (h !! l) as [[fs|es|body]|], (h' !! l) as [[fs'|es'|body']|];
      try done; cbn in Hagree; simplify_eq.
    + rewrite (serializeFields_ext dataOf dataOf _ (fun _ => treeJSON n h'));
        [done|].
      intros kp _. split; [done|]. intros w _. apply IH.
    + rewrite (serializeElems_ext _ (fun _ => treeJSON n h')); [done|].
      intros _ w _. apply IH.
Qed.

(** [JSON.stringify] calls the [toJSON] method of an object and prints what
    it returns, and an exception of the method is one of
    [queryKeyAndParamsToCacheKey]; a getter is called likewise. *)
Lemma toJSON_method_is_called :
  queryKeyAndParamsToCacheKey methodHeap "todos" (VRef 0)
  = Ret ("todos-" +:+ quoteJSONString "all") /\
  queryKeyAndParamsToCacheKey methodHeap "todos" (VRef 1)
  = Throw (VString "no") /\
  queryKeyAndParamsToCacheKey methodHeap "todos" (VRef 2)
  = Throw (VString "no").
Proof. split_and!; reflexivity. Qed.




Lemma eventTrigger_constant h cfg name invoker tr (v : value) n :
  queryKeyAndParamsToCacheKey h name v = Ret name ->
  Rx.values
    (Rx.tryMap (fun ep : unit * value =>
                  let! k := queryKeyAndParamsToCacheKey h name ep.2 in
                  Ret (revalidatorFor cfg invoker tr k ep.2))
       (Rx.withLatestFrom_from (Some v)
          (repeat (inl (Rx.Next tt)) n)))
  = repeat (revalidatorFor cfg invoker tr name v) n.
Proof.
  intros Hkey. induction n as [|n IH]; [done|].
  cbn [repeat Rx.withLatestFrom_from Rx.tryMap snd]. rewrite Hkey.
  cbn [bind Rx.values]. by rewrite IH.
Qed.

(** C10, as stated, fails for the explicit [undefined]: [paramsTrigger]
    puts [undefined] in front of the parameters and drops what repeats, so
    that [query(key, undefined, fetchFn)] emits no Revalidator, where
    [query(key, fetchFn)] emits the subscription to the bare key; the
    consumer subscribes to no group, and its result pipe, which waits for a
    Revalidator, delivers nothing of what the store broadcasts for the bare
    key. *)
Lemma explicit_undefined_subscribes_to_nothing :
  paramsTrigger ∅ 100 (plainConfig (Config.RetriesNumber 3)) "todos" idle
    (parsedQueryParam
       (parseInput (plainConfig (Config.RetriesNumber 3))
          [InValue VUndefined; InFunction fetchesId]))
  = Rx.EMPTY /\
  paramsTrigger ∅ 100 (plainConfig (Config.RetriesNumber 3)) "todos" idle
    (parsedQueryParam
       (parseInput (plainConfig (Config.RetriesNumber 3))
          [InFunction fetchesId]))
  = Rx.of_list [subscribeTodos] /\
  Rx.values
    (results (fun _ _ => false)
       (List.map inr (@Rx.EMPTY Revalidator)
        ++ [inl (Rx.Next (emission QuerySubscribe successState))])) = [] /\
  Rx.values
    (results (fun _ _ => false)
       (List.map inr (Rx.of_list [subscribeTodos])
        ++ [inl (Rx.Next (emission QuerySubscribe successState))]))
  = [successState].
Proof. split_and!; reflexivity. Qed.

(** C10, amended: in the call shape [query(key, fetchFn, config?)] the
    parameter stream is [of(null)], as it is with an explicit [null], and the
    fetch function is the first input; an invocation with these parameters
    calls the fetch function with [null]; the codec maps [null] and
    [undefined] to the bare key; without parameters and with an explicit
    [null], [paramsTrigger] emits one and the same Revalidator, the
    subscription with the bare key and the parameters [null], and the
    Revalidators that [focusTrigger] and [intervalTrigger] build from [n]
    outside events carry the bare key and [null]: the two shapes address
    the same group.  With an explicit [undefined], [paramsTrigger] emits no
    Revalidator, so that no group is subscribed to; the Revalidators of
    [focusTrigger] and [intervalTrigger] carry the bare key there too, with
    the parameters [undefined]. *)
Theorem no_params_is_explicit_null (DEFAULT_QUERY_CONFIG : Config.t)
    (fetchFn : value -> nat -> outcome (Rx.trace value)) (rest : list input)
    (h : heap) (fuel : nat) (cfg : Config.t) (name : string)
    (invoker : QueryInvoker) (tr : Trigger) (n : nat) :
  let parsed := parseInput DEFAULT_QUERY_CONFIG (InFunction fetchFn :: rest) in
  let explicit v :=
    parseInput DEFAULT_QUERY_CONFIG (InValue v :: InFunction fetchFn :: rest) in
  let events (p : ParsedInput) :=
    List.map inr (parsedQueryParam p) ++ repeat (inl (Rx.Next tt)) n in
  parsedQueryParam parsed = Rx.of_list [VNull] /\
  parsedQueryParam (explicit VNull) = Rx.of_list [VNull] /\
  parsedQuery parsed = fetchFn /\
  parsedQuery (explicit VNull) = fetchFn /\
  (forall retries,
     invoke (parsedQuery parsed) VNull retries
     = bind (fetchFn VNull retries)
         (fun fetched =>
            Ret (Rx.catchError
                   (fun error => Ret (Rx.of_list [errorOutput retries error]))
                   (Rx.map (successOutput retries) fetched)))) /\
  queryKeyAndParamsToCacheKey h name VNull = Ret name /\
  queryKeyAndParamsToCacheKey h name VUndefined = Ret name /\
  (exists r,
     key r = name /\ params r = Some VNull /\ trigger r = QuerySubscribe /\
     query r = Some invoker /\
     paramsTrigger h (5 + fuel) cfg name invoker (parsedQueryParam parsed)
     = Rx.of_list [r] /\
     paramsTrigger h (5 + fuel) cfg name invoker
       (parsedQueryParam (explicit VNull))
     = Rx.of_list [r]) /\
  (exists r,
     key r = name /\ params r = Some VNull /\ trigger r = tr /\
     query r = Some invoker /\
     Rx.values (eventTrigger h cfg name invoker tr (events parsed))
     = repeat r n /\
     Rx.values (eventTrigger h cfg name invoker tr (events (explicit VNull)))
     = repeat r n) /\
  paramsTrigger h (5 + fuel) cfg name invoker
    (parsedQueryParam (explicit VUndefined))
  = Rx.EMPTY /\
  (exists r,
     key r = name /\ params r = Some VUndefined /\ trigger r = tr /\
     Rx.values
       (eventTrigger h cfg name invoker tr (events (explicit VUndefined)))
     = repeat r n).
Proof.
  cbn zeta. split_and!; try reflexivity.
  - exists (revalidatorFor cfg invoker QuerySubscribe name VNull).
    split_and!; reflexivity.
  - exists (revalidatorFor cfg invoker tr name VNull).
    split_and!; try reflexivity;
      unfold eventTrigger, Rx.withLatestFrom;
      cbn [parseInput parsedQueryParam nth isFunction negb inputAsParam
           Rx.of_list List.map app Rx.withLatestFrom_from];
      by apply eventTrigger_constant.
  - exists (revalidatorFor cfg invoker tr name VUndefined).
    split_and!; try reflexivity.
    unfold eventTrigger, Rx.withLatestFrom;
      cbn [parseInput parsedQueryParam nth isFunction negb inputAsParam
           Rx.of_list List.map app Rx.withLatestFrom_from];
      by apply eventTrigger_constant.
Qed.

End codec_claims.

(* ===================================================================== *)
(** * Properties of the operators *)
(* ===================================================================== *)

Section operator_facts.

Import Rx.



Lemma ticks_S {A} n : @ticks A (S n) = Tick :: ticks n.
Proof. done. Qed.

Lemma map_ticks {A B} (f : A -> B) n t : map f (ticks n ++ t) = ticks n ++ map f t.
Proof.
  induction n as [|n IH]; [done|].
  rewrite ticks_S. cbn -[ticks]. by rewrite IH.
Qed.

Lemma catchError_ticks {A} (sel : value -> outcome (trace A)) n t :
  catchError sel (ticks n ++ t) = ticks n ++ catchError sel t.
Proof.
  induction n as [|n IH]; [done|].
  rewrite ticks_S. cbn -[ticks]. by rewrite IH.
Qed.

Lemma values_ticks {A} n (t : trace A) : values (ticks n ++ t) = values t.
Proof.
  induction n as [|n IH]; [done|].
  rewrite ticks_S. cbn -[ticks]. by rewrite IH.
Qed.

Lemma ending_ticks {A} n (t : trace A) : ending_of (ticks n ++ t) = ending_of t.
Proof.
  induction n as [|n IH]; [done|].
  rewrite ticks_S. cbn -[ticks]. by rewrite IH.
Qed.

Lemma ticks_plus {A} n m (t : trace A) : ticks (n + m) ++ t = ticks n ++ ticks m ++ t.
Proof. unfold ticks. by rewrite repeat_app, <- app_assoc. Qed.

(** [concatMap] once its source has completed: the inner observable runs
    alone. *)
Lemma concat_inner_alone {A B} (project : A -> outcome (trace B)) (u : trace B) fuel :
  2 * length u + 3 <= fuel ->
  concat_loop fuel project [Inner u] [] [] true true = map (fun b => b) u.
Proof.
  revert fuel. induction u as [|[|b| |e] u IH]; intros fuel Hfuel; cbn in Hfuel.
  - do 2 (destruct fuel as [|fuel]; [lia|]). done.
  - do 2 (destruct fuel as [|fuel]; [lia|]). cbn. rewrite IH; [done|lia].
  - destruct fuel as [|fuel]; [lia|]. cbn. rewrite IH; [done|lia].
  - do 2 (destruct fuel as [|fuel]; [lia|]). done.
  - destruct fuel as [|fuel]; [lia|]. done.
Qed.

Lemma concat_inner_first {A B} (project : A -> outcome (trace B)) (u : trace B) fuel :
  2 * length u + 4 <= fuel ->
  concat_loop fuel project [Inner u; Outer [Complete]] [] [] true false
  = map (fun b => b) u.
Proof.
  revert fuel. induction u as [|[|b| |e] u IH]; intros fuel Hfuel; cbn in Hfuel.
  - do 3 (destruct fuel as [|fuel]; [lia|]). done.
  - do 3 (destruct fuel as [|fuel]; [lia|]). cbn.
    rewrite concat_inner_alone; [done|lia].
  - destruct fuel as [|fuel]; [lia|]. cbn. rewrite IH; [done|lia].
  - do 3 (destruct fuel as [|fuel]; [lia|]). done.
  - destruct fuel as [|fuel]; [lia|]. done.
Qed.

Lemma concat_timer_loop {B} (project : nat -> outcome (trace B)) (u : trace B) d fuel :
  project 0 = Ret u ->
  2 * d + 2 * length u + 5 <= fuel ->
  concat_loop fuel project [Outer (ticks d ++ [Next 0; Complete])] [] [] false false
  = ticks d ++ map (fun b => b) u.
Proof.
  intros Hu. revert fuel. induction d as [|d IH]; intros fuel Hfuel.
  - destruct fuel as [|fuel]; [lia|]. cbn. rewrite Hu. cbn.
    rewrite concat_inner_first; [done|lia].
  - do 2 (destruct fuel as [|fuel]; [lia|]). rewrite ticks_S. cbn -[ticks].
    rewrite IH; [done|lia].
Qed.

Lemma concatMap_timer {B} (project : nat -> outcome (trace B)) (u : trace B) d fuel :
  project 0 = Ret u ->
  2 * d + 2 * length u + 7 <= fuel ->
  concatMap fuel project (timer d) = ticks (S d) ++ map (fun b => b) u.
Proof.
  intros Hu Hfuel. unfold concatMap, timer.
  apply (concat_timer_loop project u (S d)); [done|lia].
Qed.


Lemma faultless_cons {A} (n : notification A) t :
  is_error n = false -> faultless t -> faultless (n :: t).
Proof. intros. by constructor. Qed.

Lemma faultless_tail {A} (n : notification A) t : faultless (n :: t) -> faultless t.
Proof. by inversion 1. Qed.

Lemma faultless_ticks {A} n : @faultless A (ticks n).
Proof. induction n; by constructor. Qed.

Lemma faultless_of_list {A} (l : list A) : faultless (of_list l).
Proof.
  unfold of_list, faultless. apply Forall_app. split.
  - by apply Forall_fmap, Forall_true.
  - by repeat constructor.
Qed.

Lemma faultless_timer d : faultless (timer d).
Proof.
  unfold timer, faultless. apply Forall_app. split.
  - apply faultless_ticks.
  - by repeat constructor.
Qed.

Lemma faultless_map {A B} (f : A -> B) t : faultless t -> faultless (map f t).
Proof.
  induction t as [|[|a| |e] t IH]; intros Ht; cbn; try (by repeat constructor).
  - constructor; [done|]. apply IH. by eapply faultless_tail.
  - constructor; [done|]. apply IH. by eapply faultless_tail.
  - by inversion Ht.
Qed.

Lemma faultless_catchError {A} (selector : value -> outcome (trace A)) t :
  (forall e, exists t', selector e = Ret t' /\ faultless t') ->
  faultless (catchError selector t).
Proof.
  intros Hsel. induction t as [|[|a| |e] t IH]; cbn; try (by repeat constructor).
  destruct (Hsel e) as (t' & -> & Ht'). done.
Qed.

Lemma faultless_concat_loop {A B} (project : A -> outcome (trace B)) fuel
    work parked buffer active completed :
  (forall a, exists u, project a = Ret u /\ faultless u) ->
  Forall strand_faultless work ->
  Forall strand_faultless parked ->
  faultless (concat_loop fuel project work parked buffer active completed).
Proof.
  intros Hproject.
  revert work parked buffer active completed.
  induction fuel as [|fuel IH]; intros work parked buffer active completed Hw Hp;
    [constructor|].
  cbn [concat_loop].
  destruct work as [|[[|[|a| |e] t]|[|[|b| |e] t]] work].
  - destruct parked as [|s parked].
    + destruct (completed && negb active); by repeat constructor.
    + constructor; [done|]. apply IH; [|constructor].
      apply Forall_rev. done.
  - apply IH; [by inversion Hw|done].
  - inversion Hw as [|? ? Hs Hw']; subst. apply IH; [done|].
    constructor; [|done]. by eapply faultless_tail.
  - inversion Hw as [|? ? Hs Hw']; subst.
    destruct active.
    + apply IH; [|done]. constructor; [|done]. by eapply faultless_tail.
    + destruct (Hproject a) as (u & -> & Hu).
      apply IH; [|done]. constructor; [done|].
      constructor; [|done]. by eapply faultless_tail.
  - apply IH; [by inversion Hw|done].
  - inversion Hw as [|? ? Hs Hw']; subst. by inversion Hs.
  - apply IH; [by inversion Hw|done].
  - inversion Hw as [|? ? Hs Hw']; subst. apply IH; [done|].
    constructor; [|done]. by eapply faultless_tail.
  - inversion Hw as [|? ? Hs Hw']; subst.
    constructor; [done|]. apply IH; [|done].
    constructor; [|done]. by eapply faultless_tail.
  - inversion Hw as [|? ? Hs Hw']; subst.
    destruct buffer as [|a buffer]; [by apply IH|].
    destruct (Hproject a) as (u & -> & Hu).
    apply IH; [|done]. by constructor.
  - inversion Hw as [|? ? Hs Hw']; subst. by inversion Hs.
Qed.

Lemma faultless_expand_loop {A} (project : A -> outcome (trace A)) fuel
    work parked hung :
  (forall a, exists u, project a = Ret u /\ faultless u) ->
  Forall faultless work ->
  Forall faultless parked ->
  faultless (expand_loop fuel project work parked hung).
Proof.
  intros Hproject. revert work parked hung.
  induction fuel as [|fuel IH]; intros work parked hung Hw Hp; [constructor|].
  cbn [expand_loop].
  destruct work as [|[|[|a| |e] t] work].
  - destruct parked as [|s parked].
    + destruct hung; by repeat constructor.
    + constructor; [done|]. apply IH; [|constructor]. by apply Forall_rev.
  - apply IH; [by inversion Hw|done].
  - inversion Hw as [|? ? Hs Hw']; subst. apply IH; [done|].
    constructor; [|done]. by eapply faultless_tail.
  - inversion Hw as [|? ? Hs Hw']; subst.
    constructor; [done|]. destruct (Hproject a) as (u & -> & Hu).
    apply IH; [|done]. constructor; [done|].
    constructor; [|done]. by eapply faultless_tail.
  - apply IH; [by inversion Hw|done].
  - inversion Hw as [|? ? Hs Hw']; subst. by inversion Hs.
Qed.

Lemma faultless_flush_later {A D} (a : A) (d : trace D) :
  faultless d -> faultless (flush_later a d).
Proof.
  induction d as [|[|x| |e] d IH]; intros Hd; cbn; try (by repeat constructor).
  - constructor; [done|]. apply IH. by eapply faultless_tail.
  - by inversion Hd.
Qed.

Lemma faultless_debounce_loop {A D} (sel : A -> outcome (trace D)) held t :
  (forall a, exists d, sel a = Ret d /\ faultless d) ->
  (forall a d, held = Some (a, d) -> faultless d) ->
  faultless t ->
  faultless (debounce_loop sel held t).
Proof.
  intros Hsel. revert held.
  induction t as [|[|a| |e] t IH]; intros held Hheld Ht; cbn [debounce_loop].
  - destruct held as [[a d]|]; [|constructor].
    apply faultless_flush_later. by eapply Hheld.
  - apply faultless_tail in Ht. destruct held as [[a d]|].
    + pose proof (Hheld a d eq_refl) as Hd.
      destruct d as [|[|x| |e] d]; cbn [due_of].
      * constructor; [done|]. apply IH; [|done]. by intros ? ? [= <- <-].
      * constructor; [done|]. apply IH; [|done].
        intros ? ? [= <- <-]. by eapply faultless_tail.
      * constructor; [done|]. constructor; [done|]. apply IH; [|done]. done.
      * constructor; [done|]. constructor; [done|]. apply IH; [|done]. done.
      * by inversion Hd.
    + constructor; [done|]. by apply IH.
  - apply faultless_tail in Ht. destruct (Hsel a) as (d & -> & Hd).
    destruct d as [|[|x| |e] d]; cbn [due_of].
    + apply IH; [|done]. by intros ? ? [= <- <-].
    + apply IH; [|done]. intros ? ? [= <- <-]. by eapply faultless_tail.
    + constructor; [done|]. by apply IH.
    + constructor; [done|]. by apply IH.
    + by inversion Hd.
  - destruct held as [[a d]|]; by repeat constructor.
  - by inversion Ht.
Qed.

End operator_facts.

(* ===================================================================== *)
(** * Properties of an invocation *)
(* ===================================================================== *)

Section invocation_facts.

Import Rx Query Examples.


Lemma expand_ticks {A} (project : A -> outcome (trace A)) wait fuel (t : trace A) :
  2 * wait <= fuel ->
  expand_loop fuel project [ticks wait ++ t] [] false
  = ticks wait ++ expand_loop (fuel - 2 * wait) project [t] [] false.
Proof.
  revert fuel. induction wait as [|wait IH]; intros fuel Hfuel.
  - cbn. by rewrite Nat.sub_0_r.
  - do 2 (destruct fuel as [|fuel]; [lia|]).
    rewrite ticks_S. cbn -[ticks Nat.mul Nat.sub].
    rewrite IH; [|lia]. do 3 f_equal. lia.
Qed.

Lemma retryTurns_ret (queryConfig : Config.t) n d :
  createRetryDelay queryConfig n = Ret d -> retryTurns queryConfig n = Z.to_nat d.
Proof. unfold retryTurns. by intros ->. Qed.

Lemma retryProject_other fuel query queryConfig loadingStatus params result :
  status result <> "error" ->
  retryProject fuel query queryConfig loadingStatus params result = Ret EMPTY.
Proof.
  intros Hs. unfold retryProject.
  by destruct (String.eqb_spec (status result) "error").
Qed.

Lemma retryProject_stop fuel query queryConfig loadingStatus params result :
  createRetryCondition queryConfig (retriesOf result) (errorOf result)
  = Ret false ->
  retryProject fuel query queryConfig loadingStatus params result = Ret EMPTY.
Proof.
  intros Hc. unfold retryProject, retryCondition. rewrite Hc.
  by destruct (String.eqb _ _).
Qed.

Lemma retryProject_again fuel query queryConfig loadingStatus params result :
  status result = "error" ->
  createRetryCondition queryConfig (retriesOf result) (errorOf result)
  = Ret true ->
  retryProject fuel query queryConfig loadingStatus params result
  = Ret (startWith (with_status loadingStatus result)
           (concatMap fuel
              (fun _ => invoke query params (retriesOf result + 1))
              (timer (retryTurns queryConfig (retriesOf result))))) \/
  exists e,
    createRetryDelay queryConfig (retriesOf result) = Throw e /\
    retryProject fuel query queryConfig loadingStatus params result = Throw e.
Proof.
  intros Hs Hc. unfold retryProject, retryCondition, retryDelay, retryTurns.
  rewrite Hs, Hc. cbn [String.eqb Ascii.eqb Bool.eqb bind].
  destruct (createRetryDelay queryConfig (retriesOf result)) as [d|e];
    [by left|right; by exists e].
Qed.

Section failing.

Variable concatFuel : nat.
Variable lat : nat -> nat.
Variable err : nat -> value.
Variable queryConfig : Config.t.
Variable loadingStatus : string.
Variable params : value.
Variable k : nat.

Hypothesis retries_k :
  forall n e, createRetryCondition queryConfig n e = Ret (n <? k)%nat.
Hypothesis delay_returns :
  forall n, n < k -> exists d, createRetryDelay queryConfig n = Ret d.
Hypothesis label_not_error : loadingStatus <> "error".

Local Abbreviation delay := (retryTurns queryConfig).
Local Abbreviation project :=
  (retryProject concatFuel (alwaysFails lat err) queryConfig loadingStatus
     params).

Lemma invoke_alwaysFails n :
  invoke (alwaysFails lat err) params n
  = Ret (ticks (lat n) ++ [Next (terminalState err n); Complete]).
Proof.
  unfold invoke, alwaysFails. cbn [bind].
  by rewrite map_ticks, catchError_ticks.
Qed.

Lemma project_interim n : project (interimState loadingStatus err n) = Ret EMPTY.
Proof. by apply retryProject_other. Qed.

Lemma project_last n :
  k <= n -> project (terminalState err n) = Ret EMPTY.
Proof.
  intros Hn. apply retryProject_stop.
  change (retriesOf (terminalState err n)) with n. rewrite retries_k.
  by destruct (Nat.ltb_spec n k); [lia|].
Qed.

Lemma project_retry n :
  n < k ->
  2 * delay n + 2 * lat (S n) + 11 <= concatFuel ->
  project (terminalState err n)
  = Ret (Next (interimState loadingStatus err n) ::
         ticks (S (delay n) + lat (S n)) ++
         [Next (terminalState err (S n)); Complete]).
Proof.
  intros Hn Hfuel.
  destruct (retryProject_again concatFuel (alwaysFails lat err) queryConfig
              loadingStatus params (terminalState err n)) as [->|(e & He & _)].
  - done.
  - change (retriesOf (terminalState err n)) with n. rewrite retries_k.
    by destruct (Nat.ltb_spec n k); [|lia].
  - change (retriesOf (terminalState err n)) with n.
    unfold startWith. do 2 f_equal.
    rewrite (concatMap_timer _
               (ticks (lat (S n)) ++ [Next (terminalState err (S n)); Complete])).
    + rewrite map_ticks. cbn [map].
      by rewrite (ticks_plus (S (delay n))).
    + rewrite Nat.add_1_r. apply invoke_alwaysFails.
    + unfold ticks. rewrite length_app, repeat_length. cbn [length]. lia.
  - change (retriesOf (terminalState err n)) with n in He.
    destruct (delay_returns n Hn) as [d Hd]. congruence.
Qed.

Lemma enough_covers more n wait i :
  n <= i < n + more ->
  2 * delay i + 2 * lat (S i) + 11 <= enough lat delay more n wait.
Proof.
  revert n wait. induction more as [|more IH]; intros n wait Hi; [lia|].
  cbn [enough]. destruct (decide (i = n)) as [->|Hne].
  - destruct more; cbn [enough]; lia.
  - specialize (IH (S n) (delay n + lat (S n))). lia.
Qed.

Lemma expand_alwaysFails more n wait fuel :
  n + more = k ->
  enough lat delay more n wait <= fuel ->
  (forall i, n <= i < k -> 2 * delay i + 2 * lat (S i) + 11 <= concatFuel) ->
  expand_loop fuel project [ticks wait ++ [Next (terminalState err n); Complete]]
    [] false
  = ticks wait ++ failedAttempts loadingStatus lat delay err more n.
Proof.
  revert n wait fuel.
  induction more as [|more IH]; intros n wait fuel Hk Hfuel Hconcat;
    cbn [enough] in Hfuel; (rewrite expand_ticks; [|lia]); f_equal.
  - remember (fuel - 2 * wait) as f eqn:Hf.
    do 4 (destruct f as [|f]; [lia|]).
    cbn [expand_loop failedAttempts]. rewrite project_last; [|lia]. done.
  - remember (fuel - 2 * wait) as f eqn:Hf.
    do 6 (destruct f as [|f]; [lia|]).
    cbn [expand_loop failedAttempts].
    rewrite project_retry; [|lia|apply Hconcat; lia].
    cbn [expand_loop]. rewrite project_interim.
    rewrite (ticks_S (delay n + lat (S n))).
    cbn [expand_loop EMPTY app rev].
    f_equal. f_equal. f_equal.
    apply IH; [lia|lia|]. intros i Hi. apply Hconcat. lia.
Qed.

Lemma debounce_ticks {A D} (sel : A -> outcome (trace D)) n (t : trace A) :
  debounce_loop sel None (ticks n ++ t) = ticks n ++ debounce_loop sel None t.
Proof.
  induction n as [|n IH]; [done|].
  rewrite ticks_S. cbn -[ticks]. by rewrite IH.
Qed.

Lemma debounce_alwaysFails more n :
  debounce_loop errorDuration None
    (failedAttempts loadingStatus lat delay err more n)
  = shownAttempts loadingStatus lat delay err more n.
Proof.
  revert n. induction more as [|more IH]; intros n; [done|].
  cbn [failedAttempts shownAttempts].
  cbn [debounce_loop errorDuration terminalState errorOutput status].
  cbn [String.eqb Ascii.eqb Bool.eqb timer ticks repeat app due_of].
  cbn [debounce_loop errorDuration interimState with_status status].
  destruct (String.eqb_spec loadingStatus "error") as [E|_]; [done|].
  cbn [EMPTY due_of]. f_equal.
  by rewrite debounce_ticks, IH.
Qed.

Lemma values_shownAttempts more n :
  values (shownAttempts loadingStatus lat delay err more n)
  = List.map (interimState loadingStatus err) (seq n more)
    ++ [terminalState err (n + more)].
Proof.
  revert n. induction more as [|more IH]; intros n.
  - cbn. by rewrite Nat.add_0_r.
  - cbn [shownAttempts values seq List.map app].
    rewrite values_ticks, IH.
    by replace (n + S more) with (S n + more) by lia.
Qed.

Lemma ending_shownAttempts more n :
  ending_of (shownAttempts loadingStatus lat delay err more n) = Completes.
Proof.
  revert n. induction more as [|more IH]; intros n; [done|].
  cbn [shownAttempts ending_of]. by rewrite ending_ticks.
Qed.

Lemma attempts_alwaysFails fuel :
  enough lat delay k 0 (lat 0) <= fuel ->
  fuel = concatFuel ->
  attempts fuel (alwaysFails lat err) queryConfig loadingStatus params
  = Ret (ticks (lat 0) ++ failedAttempts loadingStatus lat delay err k 0).
Proof.
  intros Hfuel ->. unfold attempts. rewrite invoke_alwaysFails. cbn [bind].
  unfold expand. f_equal. apply expand_alwaysFails; [done|done|].
  intros i Hi. etransitivity; [|exact Hfuel].
  apply enough_covers. lia.
Qed.

End failing.

Lemma values_map {A B} (f : A -> B) (t : trace A) :
  values (map f t) = List.map f (values t).
Proof. induction t as [|[|a| |e] t IH]; cbn; by rewrite ?IH. Qed.

Lemma ending_map {A B} (f : A -> B) (t : trace A) :
  ending_of (map f t) = ending_of t.
Proof. induction t as [|[|a| |e] t IH]; cbn; by rewrite ?IH. Qed.

Lemma retryCondition_k (queryConfig : Config.t) (k : nat) :
  Config.retries queryConfig = Config.RetriesNumber (Z.of_nat k) \/
  (exists f, Config.retries queryConfig = Config.RetriesPredicate f /\
             forall n e, f n e = Ret (n <? k)%nat) ->
  forall n e, createRetryCondition queryConfig n e = Ret (n <? k)%nat.
Proof.
  intros [E|(f & E & Hf)] n e; unfold createRetryCondition; rewrite E; [|done].
  f_equal.
  destruct (Nat.ltb_spec n k), (Z.ltb_spec (Z.of_nat n) (Z.of_nat k)); lia.
Qed.

(** C1, amended: for every fetch function that always fails and a retry
    configuration that permits exactly [k] further attempts (a numeric
    [retries = k], or the predicate [(n, err) => n < k], with a [retryDelay]
    that returns for each of them), the output of a single invocation is
    exactly [k] interim states that carry the caller's loading label
    together with the error of the attempt that just failed and
    [retries = i] for [i = 0 .. k-1], and then the terminal state
    [{status: 'error', error, retries: k}], after which the invocation
    completes.  The invocation itself emits no state before the first
    interim one: the bare loading state that a consumer sees first is not
    one of its outputs. *)
Theorem retries_then_error (lat : nat -> nat) (err : nat -> value)
    (queryConfig : Config.t) (loadingStatus : string) (params : value)
    (name : string) (k fuel : nat) :
  Config.retries queryConfig = Config.RetriesNumber (Z.of_nat k) \/
  (exists f, Config.retries queryConfig = Config.RetriesPredicate f /\
             forall n e, f n e = Ret (n <? k)%nat) ->
  (forall n, n < k -> exists d, createRetryDelay queryConfig n = Ret d) ->
  loadingStatus <> "error" ->
  enough lat (retryTurns queryConfig) k 0 (lat 0) <= fuel ->
  let out :=
    callResult fuel name (alwaysFails lat err) queryConfig loadingStatus params in
  let bound := {| boundKey := name; boundParams := params |} in
  values out
  = List.map (with_mutate bound)
      (List.map (interimState loadingStatus err) (seq 0 k)
       ++ [terminalState err k]) /\
  ending_of out = Completes.
Proof.
  intros Hretries Hdelay Hlabel Hfuel out bound. subst out.
  pose proof (retryCondition_k _ _ Hretries) as Hk.
  unfold callResult, defer.
  rewrite (attempts_alwaysFails fuel lat err queryConfig loadingStatus params k
             Hk Hdelay Hlabel fuel Hfuel eq_refl).
  cbn [bind]. unfold debounce.
  rewrite debounce_ticks, debounce_alwaysFails by done.
  rewrite values_map, ending_map, values_ticks, ending_ticks.
  rewrite values_shownAttempts, ending_shownAttempts. done.
Qed.


Lemma retries_then_error_witness :
  Rx.values (callResult 100 "todos" failsAtOnce
               (plainConfig (Config.RetriesNumber 3)) "loading" VNull)
  = List.map (with_mutate todosNull)
      (List.map (interimState "loading" (fun _ => VString "Error")) (seq 0 3)
       ++ [terminalState (fun _ => VString "Error") 3]) /\
  Rx.ending_of (callResult 100 "todos" failsAtOnce
                  (plainConfig (Config.RetriesNumber 3)) "loading" VNull)
  = Rx.Completes.
Proof.
  apply (retries_then_error (fun _ => 0) (fun _ => VString "Error")
           (plainConfig (Config.RetriesNumber 3)) "loading" VNull "todos" 3 100).
  - left. reflexivity.
  - intros n _. eexists. reflexivity.
  - discriminate.
  - vm_compute. lia.
Defined.

(** C1, as stated, fails: with [retries = 1] and [() => throwError('Error')]
    the invocation emits two states, the interim one and the terminal one;
    no state with the loading label comes before the interim state. *)
Lemma invocation_emits_no_initial_state :
  let out := callResult 100 "todos" failsAtOnce
               (plainConfig (Config.RetriesNumber 1)) "loading" VNull in
  let shown :=
    List.map (with_mutate todosNull)
      (List.map (interimState "loading" (fun _ => VString "Error")) (seq 0 1)
       ++ [terminalState (fun _ => VString "Error") 1]) in
  Rx.values out = shown /\
  forall initial : QueryOutput, Rx.values out <> initial :: shown.
Proof.
  cbn zeta. split; [reflexivity|].
  intros initial H. apply (f_equal length) in H. vm_compute in H. discriminate.
Qed.

Lemma invoke_outcome (query : value -> nat -> outcome (trace value)) params n t :
  query params n = Ret t ->
  exists t', invoke query params n = Ret t' /\ faultless t' /\
    match ending_of t with
    | Fails e =>
        values t' = List.map (successOutput n) (values t) ++ [errorOutput n e]
        /\ ending_of t' = Completes
    | other =>
        values t' = List.map (successOutput n) (values t)
        /\ ending_of t' = other
    end.
Proof.
  intros Hq. unfold invoke. rewrite Hq. cbn [bind]. eexists. split; [done|].
  split.
  - apply faultless_catchError. intros e. eexists. split; [done|].
    apply faultless_of_list.
  - clear Hq. induction t as [|[|a| |e] t IH]; [done|exact IH| |done|done].
    cbn [map catchError values ending_of List.map].
    destruct (ending_of t); destruct IH as [E1 E2]; split; try done;
      cbn [app]; by rewrite E1.
Qed.

Section returns.

Variable fuel : nat.
Variable query : value -> nat -> outcome (trace value).
Variable queryConfig : Config.t.
Variable loadingStatus : string.
Variable params : value.

Hypothesis returns : forall n, exists t, query params n = Ret t.
Hypothesis condition_returns :
  forall n e, exists b, createRetryCondition queryConfig n e = Ret b.
Hypothesis delay_returns :
  forall n, exists d, createRetryDelay queryConfig n = Ret d.

Lemma invoke_returns n :
  exists t', invoke query params n = Ret t' /\ faultless t'.
Proof.
  destruct (returns n) as [t Ht].
  destruct (invoke_outcome query params n t Ht) as (t' & E & Hf & _). eauto.
Qed.

Lemma retryProject_returns result :
  exists u, retryProject fuel query queryConfig loadingStatus params result = Ret u
            /\ faultless u.
Proof.
  unfold retryProject, retryCondition, retryDelay.
  destruct (String.eqb _ _); [|eexists; split; [done|by repeat constructor]].
  destruct (condition_returns (retriesOf result) (errorOf result)) as [b ->].
  cbn [bind].
  destruct b; [|eexists; split; [done|by repeat constructor]].
  destruct (delay_returns (retriesOf result)) as [d ->]. cbn [bind].
  eexists. split; [done|]. unfold startWith. constructor; [done|].
  apply faultless_concat_loop.
  - intros _. apply invoke_returns.
  - constructor; [apply faultless_timer|constructor].
  - constructor.
Qed.

Lemma attempts_returns :
  exists raw, attempts fuel query queryConfig loadingStatus params = Ret raw
              /\ faultless raw.
Proof.
  unfold attempts. destruct (invoke_returns 0) as (first & -> & Hfirst).
  cbn [bind]. eexists. split; [done|].
  apply faultless_expand_loop.
  - apply retryProject_returns.
  - by repeat constructor.
  - constructor.
Qed.

Lemma callResult_faultless name :
  faultless (callResult fuel name query queryConfig loadingStatus params).
Proof.
  unfold callResult, defer.
  destruct attempts_returns as (raw & -> & Hraw). cbn [bind].
  apply faultless_map, faultless_debounce_loop; [|done|done].
  intros a. unfold errorDuration. eexists. split; [done|].
  destruct (String.eqb _ _); [apply faultless_timer|by repeat constructor].
Qed.

End returns.

(** C5, amended: for every fetch function that returns an observable,
    whatever that observable does (emit, error at once or later, stay
    silent), and every configuration whose [retries] and [retryDelay]
    callbacks return when they are called, the output of the invocation
    holds no error notification, and [callResult$] is a value, not an
    exception; every failure of the fetch is delivered by [invoke] as a
    value with status ['error'] that carries the error and the retry count,
    after which the attempt completes. *)
Theorem failures_are_values (fuel : nat)
    (query : value -> nat -> outcome (trace value)) (queryConfig : Config.t)
    (loadingStatus : string) (params : value) (name : string) :
  (forall n, exists t, query params n = Ret t) ->
  (forall n e, exists b, createRetryCondition queryConfig n e = Ret b) ->
  (forall n, exists d, createRetryDelay queryConfig n = Ret d) ->
  faultless (callResult fuel name query queryConfig loadingStatus params) /\
  forall n t e,
    query params n = Ret t ->
    ending_of t = Fails e ->
    exists t',
      invoke query params n = Ret t' /\
      faultless t' /\
      values t' = List.map (successOutput n) (values t) ++ [errorOutput n e] /\
      ending_of t' = Completes.
Proof.
  intros Hret Hcondition Hdelay. split; [by apply callResult_faultless|].
  intros n t e Ht He.
  destruct (invoke_outcome query params n t Ht) as (t' & E & Hf & Hv).
  rewrite He in Hv. exists t'. by destruct Hv.
Qed.

Lemma failures_are_values_witness :
  faultless (callResult 100 "todos" failsAtOnce
               (plainConfig (Config.RetriesNumber 3)) "loading" VNull) /\
  forall n t e,
    failsAtOnce VNull n = Ret t ->
    ending_of t = Fails e ->
    exists t',
      invoke failsAtOnce VNull n = Ret t' /\
      faultless t' /\
      values t' = List.map (successOutput n) (values t) ++ [errorOutput n e] /\
      ending_of t' = Completes.
Proof.
  apply (failures_are_values 100 failsAtOnce
           (plainConfig (Config.RetriesNumber 3)) "loading" VNull "todos").
  - intros n. eexists. reflexivity.
  - intros n e. eexists. reflexivity.
  - intros n. eexists. reflexivity.
Defined.

(** C5, as stated, fails: when the fetch function throws synchronously,
    [defer] hands the exception on as an error notification and the output
    of the invocation ends with it; and when the fetch fails and the
    [retries] predicate or the [retryDelay] function of the configuration
    throws, [expand] hands that exception on in the same way. *)
Lemma synchronous_throw_ends_in_error :
  callResult 100 "todos" throwsAtOnce
    (plainConfig (Config.RetriesNumber 3)) "loading" VNull
  = [Error (VString "boom")] /\
  ~ faultless (callResult 100 "todos" throwsAtOnce
                 (plainConfig (Config.RetriesNumber 3)) "loading" VNull) /\
  callResult 100 "todos" failsAtOnce retriesThrows "loading" VNull
  = [Error (VString "no retries")] /\
  callResult 100 "todos" failsAtOnce delayThrows "loading" VNull
  = [Error (VString "no delay")].
Proof.
  split; [reflexivity|]. split; [|split; reflexivity].
  intros H. vm_compute in H. by inversion H.
Qed.

Lemma errorDuration_error x :
  status x = "error" -> errorDuration x = Ret (timer 0).
Proof. intros E. unfold errorDuration. by rewrite E. Qed.

Lemma debounce_error_replaced held held' x y post :
  status x = "error" ->
  debounce_loop errorDuration held (Next x :: Next y :: post)
  = debounce_loop errorDuration held' (Next y :: post).
Proof.
  intros E. cbn [debounce_loop]. rewrite (errorDuration_error x E).
  cbn [timer ticks repeat app due_of]. done.
Qed.

Lemma debounce_collapse held pre x y post :
  status x = "error" ->
  debounce_loop errorDuration held (pre ++ Next x :: Next y :: post)
  = debounce_loop errorDuration held (pre ++ Next y :: post).
Proof.
  intros E. revert held.
  induction pre as [|[|a| |e] pre IH]; intros held.
  - apply debounce_error_replaced, E.
  - cbn [app debounce_loop]. destruct held as [[a d]|].
    + destruct (due_of d); by rewrite ?IH.
    + by rewrite IH.
  - cbn [app debounce_loop]. destruct (errorDuration a) as [d|]; [|done].
    destruct (due_of d); by rewrite ?IH.
  - done.
  - done.
Qed.

Lemma debounce_terminal held pre x :
  held_by_timer held ->
  ending_of pre = Silent ->
  status x = "error" ->
  exists front,
    ending_of front = Silent /\
    debounce_loop errorDuration held (pre ++ [Next x; Complete])
    = front ++ [Next x; Complete].
Proof.
  intros Hheld Hpre E. revert held Hheld.
  induction pre as [|[|a| |e] pre IH]; intros held Hheld.
  - exists []. cbn [app debounce_loop]. rewrite (errorDuration_error x E).
    done.
  - cbn [app debounce_loop]. destruct held as [[a d]|].
    + cbn in Hheld. subst d. cbn [due_of].
      destruct (IH Hpre None I) as (front & Hfront & ->).
      by exists (Tick :: Next a :: front).
    + destruct (IH Hpre None I) as (front & Hfront & ->).
      by exists (Tick :: front).
  - cbn [app debounce_loop]. unfold errorDuration at 1.
    destruct (String.eqb (status a) "error").
    + cbn [timer ticks repeat app due_of]. by apply IH.
    + cbn [EMPTY due_of].
      destruct (IH Hpre None I) as (front & Hfront & ->).
      by exists (Next a :: front).
  - done.
  - done.
Qed.

Lemma debounce_next_turn held pre x post :
  held_by_timer held ->
  ending_of pre = Silent ->
  status x = "error" ->
  exists front,
    ending_of front = Silent /\
    debounce_loop errorDuration held (pre ++ Next x :: Tick :: post)
    = front ++ Tick :: Next x :: debounce_loop errorDuration None post.
Proof.
  intros Hheld Hpre E. revert held Hheld.
  induction pre as [|[|a| |e] pre IH]; intros held Hheld.
  - exists []. cbn [app debounce_loop]. rewrite (errorDuration_error x E).
    done.
  - cbn [app debounce_loop]. destruct held as [[a d]|].
    + cbn in Hheld. subst d. cbn [due_of].
      destruct (IH Hpre None I) as (front & Hfront & ->).
      by exists (Tick :: Next a :: front).
    + destruct (IH Hpre None I) as (front & Hfront & ->).
      by exists (Tick :: front).
  - cbn [app debounce_loop]. unfold errorDuration at 1.
    destruct (String.eqb (status a) "error").
    + cbn [timer ticks repeat app due_of]. by apply IH.
    + cbn [EMPTY due_of].
      destruct (IH Hpre None I) as (front & Hfront & ->).
      by exists (Next a :: front).
  - done.
  - done.
Qed.

Lemma map_app_silent {A B} (f : A -> B) (front t : trace A) :
  ending_of front = Silent -> map f (front ++ t) = map f front ++ map f t.
Proof.
  induction front as [|[|a| |e] front IH]; intros Hfront; try done;
    cbn; by rewrite IH.
Qed.

Lemma expand_next_followed {A} (project : A -> outcome (trace A)) fuel
    work parked hung pre x rest y u :
  expand_loop fuel project work parked hung = pre ++ Next x :: rest ->
  project x = Ret (Next y :: u) ->
  rest = [] \/ exists rest', rest = Next y :: rest'.
Proof.
  intros Hout Hx. revert work parked hung pre Hout.
  induction fuel as [|fuel IH]; intros work parked hung pre Hout.
  { by destruct pre. }
  cbn [expand_loop] in Hout.
  destruct work as [|[|[|a| |e] t] work].
  - destruct parked as [|s parked].
    + destruct hung; destruct pre as [|? [|? ?]]; done.
    + destruct pre as [|n pre]; [done|].
      injection Hout as _ Hout. by eapply IH.
  - by eapply IH.
  - by eapply IH.
  - destruct pre as [|n pre].
    + injection Hout as -> Hout. rewrite Hx in Hout.
      destruct fuel as [|fuel]; [by left|]. right. cbn [expand_loop] in Hout.
      destruct (project y); by eexists.
    + injection Hout as _ Hout.
      destruct (project a) as [inner|e].
      * by eapply IH.
      * destruct pre as [|? [|? ?]]; done.
  - by eapply IH.
  - destruct pre as [|? [|? ?]]; done.
Qed.



End invocation_facts.

(* ===================================================================== *)
(** * Properties of mutation, teardown and the result pipe *)
(* ===================================================================== *)

Section query_facts.

Import Rx Query Examples.

Lemma take_0 {A} (t : trace A) : take 0 t = [Complete].
Proof. by destruct t as [|[|a| |e] t]. Qed.

(** What the subscription of [mutateQuery] does with the observable of the
    mutator. *)
Lemma mutation_events (cacheKey : string) (data : value) (o : trace value) :
  subscribe (fun evt : list Revalidator => evt)
    (fun errorData => [mutateError cacheKey errorData])
    (startWith [mutateOptimistic cacheKey data]
       (take 1 (map (fun newData => [mutate_ cacheKey newData]) o)))
  = mutateOptimistic cacheKey data ::
    match values o with
    | v :: _ => [mutate_ cacheKey v]
    | [] =>
        match ending_of o with
        | Fails e => [mutateError cacheKey e]
        | _ => []
        end
    end.
Proof.
  unfold startWith. cbn [subscribe app]. f_equal.
  induction o as [|[|v| |e] o IH]; [done|exact IH| |done|done].
  cbn [map take subscribe values]. by rewrite take_0.
Qed.

(** C6, amended: if the mutator returns a value that is not an observable,
    the bound [mutate] emits a single mutate-success and nothing else; if it
    returns an observable that emits a value, the engine emits
    mutate-optimistic with the caller's value and then mutate-success with
    the first value emitted, and nothing else; if the observable errors
    before it has emitted, the engine emits mutate-optimistic and then
    mutate-error with the error, and nothing else. *)
Theorem mutate_protocol (h : heap) (name : string) (queryConfig : Config.t)
    (params data : value) (cacheKey : string) :
  queryKeyAndParamsToCacheKey h name params = Ret cacheKey ->
  (forall v,
     Config.mutator queryConfig data params = Ret (MValue v) ->
     mutateQuery h name queryConfig params data = Ret [mutate_ cacheKey v]) /\
  (forall o v rest,
     Config.mutator queryConfig data params = Ret (MObservable o) ->
     values o = v :: rest ->
     mutateQuery h name queryConfig params data
     = Ret [mutateOptimistic cacheKey data; mutate_ cacheKey v]) /\
  (forall o e,
     Config.mutator queryConfig data params = Ret (MObservable o) ->
     values o = [] ->
     ending_of o = Fails e ->
     mutateQuery h name queryConfig params data
     = Ret [mutateOptimistic cacheKey data; mutateError cacheKey e]).
Proof.
  intros Hkey. unfold mutateQuery. split_and!.
  - intros v ->. cbn [bind]. by rewrite Hkey.
  - intros o v rest -> Hv. cbn [bind]. rewrite Hkey. cbn [bind].
    by rewrite mutation_events, Hv.
  - intros o e -> Hv He. cbn [bind]. rewrite Hkey. cbn [bind].
    by rewrite mutation_events, Hv, He.
Qed.

Lemma mutate_protocol_witness :
  (forall v,
     Config.mutator echoMutator (VString "new") VNull = Ret (MValue v) ->
     mutateQuery ∅ "todos" echoMutator VNull (VString "new")
     = Ret [mutate_ "todos" v]) /\
  (forall o v rest,
     Config.mutator echoMutator (VString "new") VNull = Ret (MObservable o) ->
     values o = v :: rest ->
     mutateQuery ∅ "todos" echoMutator VNull (VString "new")
     = Ret [mutateOptimistic "todos" (VString "new"); mutate_ "todos" v]) /\
  (forall o e,
     Config.mutator echoMutator (VString "new") VNull = Ret (MObservable o) ->
     values o = [] ->
     ending_of o = Fails e ->
     mutateQuery ∅ "todos" echoMutator VNull (VString "new")
     = Ret [mutateOptimistic "todos" (VString "new"); mutateError "todos" e]).
Proof.
  apply (mutate_protocol ∅ "todos" echoMutator VNull (VString "new") "todos").
  reflexivity.
Defined.

(** C6, as stated, fails: when the observable of the mutator completes
    without a value, mutate-optimistic is followed by no terminal event. *)
Lemma empty_mutation_has_no_terminal_event :
  mutateQuery ∅ "todos" silentMutator VNull (VString "new")
  = Ret [mutateOptimistic "todos" (VString "new")].
Proof. reflexivity. Qed.

(** The callback of [finalize] takes the first value that [params$] ever
    emitted. *)
Lemma finalize_first (seen : nat) (params' : trace Revalidator) r rest :
  values (firstn seen params') = r :: rest ->
  finalize seen params'
  = [RevalidateNext (with_trigger QueryUnsubscribe r); UnsubscribeTriggers].
Proof.
  intros Hseen. unfold finalize, shareReplay_late. rewrite Hseen.
  cbn [List.map app take]. by rewrite take_0.
Qed.

(** C3, on the code: the parameter stream of a consumer has emitted ['a']
    and then ['b'], so that [params$] has emitted the subscription to
    [todos-a], its unsubscription and the subscription to [todos-b]; when
    the consumer unsubscribes, the teardown emits one query-unsubscribe, and
    its key is [todos-a], the key of the first parameters, not of the last
    ones. *)
Theorem teardown_unsubscribes_first_key :
  values twoParamsTrigger
  = [revalidatorOf QuerySubscribe "todos-a" (VString "a");
     revalidatorOf QueryUnsubscribe "todos-a" (VString "a");
     revalidatorOf QuerySubscribe "todos-b" (VString "b")] /\
  finalize (length twoParamsTrigger) twoParamsTrigger
  = [RevalidateNext (revalidatorOf QueryUnsubscribe "todos-a" (VString "a"));
     UnsubscribeTriggers].
Proof. split; reflexivity. Qed.

Lemma values_distinct {A} (compare : A -> A -> outcome bool) last (t : trace A) x :
  x ∈ values (distinct_from compare last t) -> x ∈ values t.
Proof.
  revert last. induction t as [|[|a| |e] t IH]; intros last; cbn; try done.
  - apply IH.
  - destruct last as [b|].
    + destruct (compare b a) as [[|]|]; cbn.
      * intros H. right. by eapply IH.
      * intros [->|H]%elem_of_cons; [left|right; by eapply IH].
      * by intros ?%not_elem_of_nil.
    + intros [->|H]%elem_of_cons; [left|right; by eapply IH].
Qed.

Lemma values_tryMap {A B} (f : A -> outcome B) (t : trace A) y :
  y ∈ values (tryMap f t) -> exists a, a ∈ values t /\ f a = Ret y.
Proof.
  induction t as [|[|a| |e] t IH]; cbn; try (by intros ?%not_elem_of_nil).
  - apply IH.
  - destruct (f a) as [b|] eqn:E; cbn.
    + intros [->|H]%elem_of_cons.
      * exists a. split; [left|done].
      * destruct (IH H) as (a' & Ha' & Hf). exists a'. split; [by right|done].
    + by intros ?%not_elem_of_nil.
Qed.

Lemma values_filter {A} (p : A -> bool) (t : trace A) a :
  a ∈ values (filter p t) -> a ∈ values t /\ p a = true.
Proof.
  induction t as [|[|b| |e] t IH]; cbn; try (by intros ?%not_elem_of_nil).
  - apply IH.
  - destruct (p b) eqn:E; cbn.
    + intros [->|H]%elem_of_cons; [split; [left|done]|].
      destruct (IH H). split; [by right|done].
    + intros H. destruct (IH H). split; [by right|done].
Qed.

Lemma invisible_emission l pre (c : gmap string CacheEntry) post :
  (forall r, latest_from l pre = Some r -> important (c !! key r) = false) ->
  filter important
    (map (fun ck : gmap string CacheEntry * Revalidator => ck.1 !! key ck.2)
       (withLatestFrom_from l (pre ++ inl (Next c) :: post)))
  = filter important
      (map (fun ck : gmap string CacheEntry * Revalidator => ck.1 !! key ck.2)
         (withLatestFrom_from l (pre ++ post))).
Proof.
  revert l. induction pre as [|[[|c'| |e]|[|r'| |e]] pre IH]; intros l Hl;
    cbn [app withLatestFrom_from latest_from] in *.
  - destruct l as [r|]; [|done].
    cbn [map filter fst snd]. by rewrite (Hl r eq_refl).
  - cbn [map filter]. by rewrite IH.
  - destruct l as [r|].
    + cbn [map filter fst snd]. destruct (important _); by rewrite IH.
    + by apply IH.
  - done.
  - done.
  - by apply IH.
  - by apply IH.
  - by apply IH.
  - done.
Qed.

(** C7: every state that the stream returned by [query] exposes is the
    result of the entry that a cache emission holds under the key of the
    latest Revalidator of [params$], and the trigger of that entry is
    neither query-unsubscribe nor group-unsubscribe (first part); a cache
    emission whose entry for that key has one of these two triggers, or
    which has no entry for that key, changes nothing of what the consumer
    receives (second part). *)
Theorem results_hide_bookkeeping
    (sameObject : QueryOutput -> QueryOutput -> bool) :
  (forall feed,
     Forall (fun x =>
               exists c r entry,
                 (c, r) ∈ values (withLatestFrom feed) /\
                 c !! key r = Some entry /\
                 entryTrigger entry <> QueryUnsubscribe /\
                 entryTrigger entry <> GroupUnsubscribe /\
                 x = result (groupState entry))
       (values (results sameObject feed))) /\
  (forall pre (c : gmap string CacheEntry) post,
     (forall r,
        latest pre = Some r ->
        match c !! key r with
        | Some entry =>
            entryTrigger entry = QueryUnsubscribe \/
            entryTrigger entry = GroupUnsubscribe
        | None => True
        end) ->
     results sameObject (pre ++ inl (Next c) :: post)
     = results sameObject (pre ++ post)).
Proof.
  split.
  - intros feed. apply Forall_forall. intros x Hx.
    unfold results, distinctUntilChanged in Hx.
    apply values_distinct in Hx.
    apply values_tryMap in Hx as (v & Hv & Hres).
    apply values_filter in Hv as [Hv Himp].
    rewrite values_map in Hv.
    apply list_elem_of_fmap in Hv as ([c r] & -> & Hcr).
    cbn [fst snd] in *.
    destruct (c !! key r) as [entry|] eqn:E; [|done].
    exists c, r, entry. cbn in Hres, Himp. injection Hres as <-.
    unfold isBookkeeping in Himp.
    apply negb_true_iff, bool_decide_eq_false in Himp.
    split_and!; try done.
    + intros Heq. apply Himp. rewrite Heq. set_solver.
    + intros Heq. apply Himp. rewrite Heq. set_solver.
  - intros pre c post Hc. unfold results, withLatestFrom.
    rewrite invisible_emission; [done|].
    intros r Hr. specialize (Hc r Hr).
    destruct (c !! key r) as [entry|]; [|done].
    cbn. unfold isBookkeeping.
    destruct Hc as [-> | ->]; done.
Qed.

Lemma results_hide_bookkeeping_witness :
  let subscribed := inr (Next (revalidatorOf QuerySubscribe "todos" VNull)) in
  results (fun _ _ => false)
    ([subscribed; inl (Next (emission QuerySubscribe loadingState))]
     ++ inl (Next (emission QueryUnsubscribe loadingState))
        :: [inl (Next (emission QuerySubscribe successState))])
  = results (fun _ _ => false)
      ([subscribed; inl (Next (emission QuerySubscribe loadingState))]
       ++ [inl (Next (emission QuerySubscribe successState))]).
Proof.
  apply (proj2 (results_hide_bookkeeping (fun _ _ => false))).
  intros r [= <-]. vm_compute. by left.
Defined.

End query_facts.

(* ===================================================================== *)
(** * Properties of the group state store *)
(* ===================================================================== *)

Section store_running.

Import Rx Query Examples Store.

Lemma active_app k n l1 l2 :
  active k n (l1 ++ l2) = active k (active k n l1) l2.
Proof.
  revert n. induction l1 as [|a l1 IH]; intros n; [done|].
  destruct a; cbn [app active]; apply IH.
Qed.

Lemma running_insert s k g k' :
  running (<[k := g]> s) k'
  = if String.eqb k' k then (if invoking g then 1 else 0) else running s k'.
Proof.
  unfold running. destruct (String.eqb_spec k' k) as [->|Hne].
  - by rewrite lookup_insert_eq.
  - by rewrite lookup_insert_ne.
Qed.

Lemma running_delete s k k' :
  running (delete k s) k' = if String.eqb k' k then 0 else running s k'.
Proof.
  unfold running. destruct (String.eqb_spec k' k) as [->|Hne].
  - by rewrite lookup_delete_eq.
  - by rewrite lookup_delete_ne.
Qed.

Lemma running_lookup s k g : s !! k = Some g -> running s k = if invoking g then 1 else 0.
Proof. unfold running. by intros ->. Qed.

Lemma running_none s k : s !! k = None -> running s k = 0.
Proof. unfold running. by intros ->. Qed.

End store_running.

Section store_facts.

Import Rx Query Examples Store.


Variable merge : option value -> value -> value.

Lemma running_le s k : running s k <= 1.
Proof.
  unfold running. destruct (s !! k) as [g|]; [destruct (invoking g)|]; lia.
Qed.

Lemma started_app k l1 l2 : started k (l1 ++ l2) = started k l1 + started k l2.
Proof. unfold started. by rewrite List.filter_app, length_app. Qed.

Lemma orphaned_app k l1 l2 :
  orphaned k (l1 ++ l2) = orphaned k l1 + orphaned k l2.
Proof. unfold orphaned. by rewrite List.filter_app, length_app. Qed.

Ltac prefixes :=
  let pre := fresh "pre" in
  let rest := fresh "rest" in
  let H := fresh "H" in
  intros pre rest H;
  destruct pre as [|? [|? [|? ?]]]; cbn [app] in H; simplify_eq;
  unfold orphaned; cbn [active List.filter length];
  repeat match goal with
         | |- context [String.eqb ?a ?b] => destruct (String.eqb a b)
         end;
  cbn [length]; try lia.

(** An event that starts no run, ends none and deletes no group. *)
Lemma settles_same s s' k acts :
  running s' k = running s k ->
  acts = [] \/ (exists c, acts = [Broadcast c]) ->
  settles s k (s', acts).
Proof.
  intros Hsame Hacts a o Ha. pose proof (running_le s k) as Hle.
  cbn [fst snd]. rewrite Hsame.
  destruct Hacts as [->|[c ->]]; (split_and!; [cbn; lia|prefixes|done]).
Qed.

Lemma settles_quiet s k : settles s k (s, []).
Proof. apply settles_same; [done|by left]. Qed.

(** An event that starts a run for the key [k']. *)
Lemma settles_start s s' k k' label c :
  (k = k' -> running s k = 0 /\ running s' k = 1) ->
  (k <> k' -> running s' k = running s k) ->
  settles s k (s', [Started k' label; Broadcast c]).
Proof.
  intros Hat Helse a o Ha. pose proof (running_le s k) as Hle.
  cbn [fst snd].
  destruct (String.eqb_spec k k') as [<-|Hne].
  - destruct (Hat eq_refl) as [H0 H1]. rewrite H1. rewrite H0 in Ha.
    split_and!.
    + unfold orphaned. cbn. rewrite String.eqb_refl. lia.
    + intros pre rest H.
      destruct pre as [|? [|? [|? ?]]]; cbn [app] in H; simplify_eq;
        unfold orphaned; cbn [active List.filter length];
        rewrite ?String.eqb_refl; lia.
    + intros _ ->. cbn. by rewrite String.eqb_refl, H0.
  - rewrite (Helse Hne). apply String.eqb_neq in Hne. split_and!.
    + unfold orphaned. cbn. rewrite Hne. cbn. lia.
    + intros pre rest H.
      destruct pre as [|? [|? [|? ?]]]; cbn [app] in H; simplify_eq;
        unfold orphaned; cbn [active List.filter length];
        rewrite ?Hne; lia.
    + intros _ ->. cbn. by rewrite Hne.
Qed.

(** An event that is the terminal state of a run for the key [k']. *)
Lemma settles_finish s s' k k' acts :
  (k = k' -> running s' k = 0) ->
  (k <> k' -> running s' k = running s k) ->
  acts = [] \/ (exists c, acts = [Broadcast c]) ->
  settles s k (s', Finished k' :: acts).
Proof.
  intros Hat Helse Hacts a o Ha. pose proof (running_le s k) as Hle.
  cbn [fst snd].
  destruct (String.eqb_spec k k') as [<-|Hne].
  - rewrite (Hat eq_refl).
    split_and!.
    + destruct Hacts as [->|[c ->]]; unfold orphaned; cbn;
        rewrite String.eqb_refl; lia.
    + intros pre rest H.
      destruct Hacts as [->|[c ->]];
        destruct pre as [|? [|? [|? ?]]]; cbn [app] in H; simplify_eq;
        unfold orphaned; cbn [active List.filter length];
        rewrite ?String.eqb_refl; lia.
    + intros _ ->.
      destruct Hacts as [->|[c ->]]; cbn;
        rewrite String.eqb_refl; lia.
  - rewrite (Helse Hne). apply String.eqb_neq in Hne. split_and!.
    + destruct Hacts as [->|[c ->]]; unfold orphaned; cbn;
        rewrite Hne; lia.
    + intros pre rest H.
      destruct Hacts as [->|[c ->]];
        destruct pre as [|? [|? [|? ?]]]; cbn [app] in H; simplify_eq;
        unfold orphaned; cbn [active List.filter length];
        rewrite ?Hne; lia.
    + intros _ ->.
      destruct Hacts as [->|[c ->]]; cbn; by rewrite Hne.
Qed.

(** An event that deletes the group of the key [k'] during its run. *)
Lemma settles_orphan s s' k k' :
  (k = k' -> running s' k = 0) ->
  (k <> k' -> running s' k = running s k) ->
  settles s k (s', [Orphaned k']).
Proof.
  intros Hat Helse a o Ha. pose proof (running_le s k) as Hle.
  cbn [fst snd].
  destruct (String.eqb_spec k k') as [<-|Hne].
  - rewrite (Hat eq_refl). split_and!.
    + unfold orphaned. cbn. rewrite String.eqb_refl. cbn. lia.
    + intros pre rest H.
      destruct pre as [|? [|? ?]]; cbn [app] in H; simplify_eq;
        unfold orphaned; cbn [active List.filter length];
        rewrite ?String.eqb_refl; cbn [length]; lia.
    + unfold orphaned. cbn. rewrite String.eqb_refl. done.
  - rewrite (Helse Hne). apply String.eqb_neq in Hne. split_and!.
    + unfold orphaned. cbn. rewrite Hne. cbn. lia.
    + intros pre rest H.
      destruct pre as [|? [|? ?]]; cbn [app] in H; simplify_eq;
        unfold orphaned; cbn [active List.filter length];
        rewrite ?Hne; cbn [length]; lia.
    + intros _ ->. done.
Qed.

Lemma running_insert_same s k' g g' k :
  s !! k' = Some g -> invoking g' = invoking g ->
  running (<[k' := g']> s) k = running s k.
Proof.
  intros Hg Hinv. rewrite running_insert.
  destruct (String.eqb_spec k k') as [->|]; [|done].
  by rewrite (running_lookup _ _ _ Hg), Hinv.
Qed.

Lemma running_insert_ne s k' g k :
  k <> k' -> running (<[k' := g]> s) k = running s k.
Proof.
  intros Hne. rewrite running_insert.
  by rewrite (proj2 (String.eqb_neq k k') Hne).
Qed.

Lemma running_delete_ne s k' k : k <> k' -> running (delete k' s) k = running s k.
Proof.
  intros Hne. rewrite running_delete.
  by rewrite (proj2 (String.eqb_neq k k') Hne).
Qed.

Lemma settles_subscribe s r now k : settles s k (subscribe_ s r now).
Proof.
  unfold subscribe_, broadcast.
  destruct (s !! key r) as [g|] eqn:Hg.
  - destruct (negb (fresh now g (staleTimeOf r)) && negb (invoking g)) eqn:Hstart.
    + apply andb_true_iff in Hstart as [_ Hinv%negb_true_iff].
      apply settles_start.
      * intros ->. rewrite (running_lookup _ _ _ Hg), Hinv, running_insert.
        by rewrite String.eqb_refl.
      * intros Hne. by apply running_insert_ne.
    + apply settles_same; [|right; by eexists].
      by eapply running_insert_same.
  - apply settles_start.
    + intros ->. rewrite (running_none _ _ Hg), running_insert.
      by rewrite String.eqb_refl.
    + intros Hne. by apply running_insert_ne.
Qed.

Lemma settles_unsubscribe s k' k : settles s k (unsubscribe_ s k').
Proof.
  unfold unsubscribe_, broadcast.
  destruct (s !! k') as [g|] eqn:Hg; [|apply settles_quiet].
  apply settles_same; [|right; by eexists].
  by eapply running_insert_same.
Qed.

Lemma settles_delete s k' k : settles s k (delete_ s k').
Proof.
  unfold delete_, orphans.
  destruct (s !! k') as [g|] eqn:Hg; [|apply settles_quiet].
  destruct (invoking g) eqn:Hinv.
  - apply settles_orphan.
    + intros ->. rewrite running_delete. by rewrite String.eqb_refl.
    + intros Hne. by apply running_delete_ne.
  - apply settles_same; [|by left].
    rewrite running_delete. destruct (String.eqb_spec k k') as [->|]; [|done].
    by rewrite (running_lookup _ _ _ Hg), Hinv.
Qed.

Lemma settles_refresh s k' tr k : settles s k (refresh_ s k' tr).
Proof.
  unfold refresh_, broadcast.
  destruct (s !! k') as [g|] eqn:Hg; [|apply settles_quiet].
  destruct (mutating g || invoking g) eqn:Hbusy; [apply settles_quiet|].
  apply orb_false_iff in Hbusy as [_ Hinv].
  apply settles_start.
  - intros ->. rewrite (running_lookup _ _ _ Hg), Hinv, running_insert.
    by rewrite String.eqb_refl.
  - intros Hne. by apply running_insert_ne.
Qed.

Lemma settles_mutation s r k : settles s k (mutation_ merge s r).
Proof.
  unfold mutation_, broadcast.
  destruct (s !! key r) as [g|] eqn:Hg; [|apply settles_quiet].
  destruct (trigger r); try destruct (mutating g); try apply settles_quiet;
    (apply settles_same; [by eapply running_insert_same|right; by eexists]).
Qed.

Lemma settles_emitted s k' state k :
  settles s k (progress_ s k' state None).
Proof.
  unfold progress_, broadcast.
  destruct (s !! k') as [g|] eqn:Hg; [|apply settles_quiet].
  destruct (invoking g) eqn:Hinv; [|apply settles_quiet].
  apply settles_same; [|right; by eexists].
  eapply running_insert_same; [done|]. by rewrite Hinv.
Qed.

Lemma settles_settled s k' state now k :
  settles s k
    (let '(s', acts) := progress_ s k' state (Some now) in
     (s', Finished k' :: acts)).
Proof.
  unfold progress_, broadcast.
  destruct (s !! k') as [g|] eqn:Hg.
  - destruct (invoking g) eqn:Hinv.
    + apply settles_finish; [| |right; by eexists].
      * intros ->. rewrite running_insert. by rewrite String.eqb_refl.
      * intros Hne. by apply running_insert_ne.
    + apply settles_finish; [| |by left]; [|done].
      intros ->. by rewrite (running_lookup _ _ _ Hg), Hinv.
  - apply settles_finish; [| |by left]; [|done].
    intros ->. by rewrite (running_none _ _ Hg).
Qed.

Lemma settles_apply s e k : settles s k (apply merge s e).
Proof.
  destruct e as [r now|k' state|k' state now|k']; cbn [apply].
  - destruct (trigger r);
      auto using settles_subscribe, settles_unsubscribe, settles_delete,
        settles_refresh, settles_mutation.
  - apply settles_emitted.
  - apply settles_settled.
  - destruct (s !! k') as [g|]; [|apply settles_quiet].
    destruct (_ && _); [apply settles_delete|apply settles_quiet].
Qed.

Lemma settles_run_from events s k :
  settles s k (run_from merge s events).
Proof.
  revert s. induction events as [|e events IH]; intros s; [apply settles_quiet|].
  cbn [run_from].
  pose proof (settles_apply s e k) as Hstep.
  destruct (apply merge s e) as [s' acts] eqn:Happly.
  pose proof (IH s') as Hrest.
  destruct (run_from merge s' events) as [s'' acts'] eqn:Hrun.
  intros a o Ha.
  destruct (Hstep a o Ha) as (Hend & Hpre & Hexact).
  destruct (Hrest (active k a acts) (o + orphaned k acts) Hend)
    as (Hend' & Hpre' & _).
  cbn [fst snd] in *. split_and!.
  - rewrite active_app, orphaned_app. lia.
  - intros pre rest Hsplit.
    apply app_eq_app in Hsplit as [l [[-> ->]|[-> ->]]].
    + by eapply Hpre.
    + rewrite active_app, orphaned_app.
      specialize (Hpre' l _ eq_refl). lia.
  - rewrite orphaned_app, active_app. intros Hnone Hexactly.
    assert (orphaned k acts = 0) as H0 by lia.
    assert (orphaned k acts' = 0) as H0' by lia.
    specialize (Hexact H0 Hexactly).
    destruct (Hrest (running s' k) 0) as (_ & _ & Hexact'); [lia|].
    rewrite Hexact. by apply Hexact'.
Qed.

Lemma causes_insert s k g :
  causes_shown s -> isBookkeeping (cause g) = false ->
  causes_shown (<[k := g]> s).
Proof.
  intros Hs Hg k' g' [[_ <-] | [_ H]]%lookup_insert_Some; [done|by eapply Hs].
Qed.

Lemma causes_delete s k : causes_shown s -> causes_shown (delete k s).
Proof. intros Hs k' g' [_ H]%lookup_delete_Some. by eapply Hs. Qed.

Lemma causes_delete_ s k : causes_shown s -> causes_shown (delete_ s k).1.
Proof.
  intros Hs. unfold delete_. destruct (s !! k); [|done].
  by apply causes_delete.
Qed.

Lemma causes_refresh_ s k tr :
  isBookkeeping tr = false -> causes_shown s -> causes_shown (refresh_ s k tr).1.
Proof.
  intros Htr Hs. unfold refresh_. destruct (s !! k); [|done].
  destruct (_ || _); [done|]. by apply causes_insert.
Qed.

Lemma causes_progress_ s k state settled :
  causes_shown s -> causes_shown (progress_ s k state settled).1.
Proof.
  intros Hs. unfold progress_. destruct (s !! k) as [g|] eqn:E; [|done].
  destruct (invoking g); [|done].
  destruct settled; (apply causes_insert; [done|cbn; by eapply Hs]).
Qed.

Lemma causes_apply s e : causes_shown s -> causes_shown (apply merge s e).1.
Proof.
  intros Hs.
  destruct e as [r now|k' state|k' state now|k']; cbn [apply].
  - destruct (trigger r) eqn:Htr.
    + unfold subscribe_. destruct (s !! key r) as [g|] eqn:E.
      * destruct (_ && _); (apply causes_insert; [done|cbn; try done; by eapply Hs]).
      * by apply causes_insert.
    + unfold unsubscribe_. destruct (s !! key r) as [g|] eqn:E; [|done].
      apply causes_insert; [done|cbn; by eapply Hs].
    + by apply causes_delete_.
    + by apply causes_refresh_.
    + by apply causes_refresh_.
    + unfold mutation_. rewrite Htr. destruct (s !! key r) as [g|] eqn:E; [|done].
      destruct (mutating g); [done|]. apply causes_insert; [done|cbn; by eapply Hs].
    + unfold mutation_. rewrite Htr. destruct (s !! key r) as [g|] eqn:E; [|done].
      apply causes_insert; [done|cbn; by eapply Hs].
    + unfold mutation_. rewrite Htr. destruct (s !! key r) as [g|] eqn:E; [|done].
      apply causes_insert; [done|cbn; by eapply Hs].
  - by apply causes_progress_.
  - pose proof (causes_progress_ s k' state (Some now) Hs) as H.
    by destruct (progress_ s k' state (Some now)).
  - destruct (s !! k') as [g'|] eqn:E; [|done].
    destruct (_ && _); [|done]. by apply causes_delete_.
Qed.

Lemma causes_run_from events s :
  causes_shown s -> causes_shown (run_from merge s events).1.
Proof.
  revert s. induction events as [|e events IH]; intros s Hs; [done|].
  cbn [run_from]. pose proof (causes_apply s e Hs) as Hs'.
  destruct (apply merge s e) as [s' acts].
  specialize (IH s' Hs'). by destruct (run_from merge s' events).
Qed.

Lemma causes_reachable events : causes_shown (run merge events).1.
Proof.
  apply causes_run_from. intros ? ? H. by rewrite lookup_empty in H.
Qed.

Lemma running_one s k :
  running s k = 1 -> exists g, s !! k = Some g /\ invoking g = true.
Proof.
  unfold running. destruct (s !! k) as [g|]; [|done].
  destruct (invoking g) eqn:E; [|done]. by exists g.
Qed.

Lemma busy_starts_nothing s g r now k' :
  s !! key r = Some g -> invoking g = true ->
  trigger r = QuerySubscribe \/ trigger r = Interval \/ trigger r = Focus ->
  started k' (apply merge s (Revalidate r now)).2 = 0.
Proof.
  intros Hg Hinv [Htr|[Htr|Htr]]; cbn [apply]; rewrite Htr.
  - unfold subscribe_. rewrite Hg, Hinv, andb_false_r. done.
  - unfold refresh_. rewrite Hg, Hinv, orb_true_r. done.
  - unfold refresh_. rewrite Hg, Hinv, orb_true_r. done.
Qed.

Lemma later_subscribers r ts s g :
  trigger r = QuerySubscribe ->
  s !! key r = Some g -> invoking g = true ->
  let out := run_from merge s (List.map (Revalidate r) ts) in
  started (key r) out.2 = 0 /\
  exists g', out.1 !! key r = Some g' /\ invoking g' = true /\
             subscriberCount g' = subscriberCount g + length ts.
Proof.
  intros Htr. revert s g. induction ts as [|t ts IH]; intros s g Hg Hinv.
  - cbn. split; [done|]. exists g. split_and!; [done|done|lia].
  - cbn [List.map run_from apply]. rewrite Htr.
    unfold subscribe_. rewrite Hg, Hinv, andb_false_r.
    set (g1 := set_count g (S (subscriberCount g)) false).
    destruct (IH (<[key r := g1]> s) g1) as (Hnone & g' & Hg' & Hinv' & Hcount).
    { by rewrite lookup_insert_eq. }
    { done. }
    destruct (run_from merge (<[key r := g1]> s) (List.map (Revalidate r) ts))
      as [s' acts']. cbn [fst snd] in *. split.
    + rewrite started_app, Hnone. done.
    + exists g'. split_and!; [done|done|]. rewrite Hcount. cbn. lia.
Qed.

(** While the run of a key is in flight and its group in place, whatever
    else the bus carries starts no run for the key. *)
Lemma cycle_step s k e :
  running s k = 1 -> within_cycle k e = true ->
  started k (apply merge s e).2 = 0 /\ running (apply merge s e).1 k = 1.
Proof.
  intros Hrun Hcycle.
  pose proof Hrun as (g & Hg & Hinv)%running_one.
  assert (forall k' g', (k' = k -> invoking g' = true) ->
            running (<[k' := g']> s) k = 1) as Hput.
  { intros k' g' Hk'. rewrite running_insert.
    destruct (String.eqb_spec k k') as [->|]; [|done]. by rewrite Hk'. }
  destruct e as [r now|k' state|k' state now|k']; cbn [apply within_cycle] in *.
  - destruct (trigger r) eqn:Htr.
    + unfold subscribe_.
      destruct (s !! key r) as [g'|] eqn:Hg'.
      * destruct (negb (fresh now g' (staleTimeOf r)) && negb (invoking g'))
          eqn:Hstart; cbn [fst snd].
        -- split; [|by apply Hput].
           unfold started, broadcast. cbn.
           destruct (String.eqb_spec k (key r)) as [->|]; [|done].
           rewrite Hg in Hg'. injection Hg' as <-.
           by rewrite Hinv, andb_false_r in Hstart.
        -- split; [done|]. apply Hput. intros Hk. rewrite Hk, Hg in Hg'.
           by injection Hg' as <-.
      * cbn [fst snd]. split; [|by apply Hput].
        unfold started, broadcast. cbn.
        destruct (String.eqb_spec k (key r)) as [->|]; [|done].
        by rewrite Hg in Hg'.
    + unfold unsubscribe_.
      destruct (s !! key r) as [g'|] eqn:Hg'; [|done]. cbn [fst snd].
      split; [done|]. apply Hput. intros Hk. rewrite Hk, Hg in Hg'.
      by injection Hg' as <-.
    + rewrite bool_decide_eq_true_2, andb_true_r in Hcycle by done.
      apply negb_true_iff, String.eqb_neq in Hcycle.
      unfold delete_. destruct (s !! key r) as [g'|]; [|done]. cbn [fst snd].
      split; [unfold orphans; by destruct (invoking g')|].
      rewrite running_delete_ne; [done|congruence].
    + unfold refresh_.
      destruct (s !! key r) as [g'|] eqn:Hg'; [|done].
      destruct (mutating g' || invoking g') eqn:Hbusy; [done|]. cbn [fst snd].
      apply orb_false_iff in Hbusy as [_ Hinv'].
      split; [|by apply Hput].
      unfold started, broadcast. cbn.
      destruct (String.eqb_spec k (key r)) as [->|]; [|done].
      rewrite Hg in Hg'. injection Hg' as <-. congruence.
    + unfold refresh_.
      destruct (s !! key r) as [g'|] eqn:Hg'; [|done].
      destruct (mutating g' || invoking g') eqn:Hbusy; [done|]. cbn [fst snd].
      apply orb_false_iff in Hbusy as [_ Hinv'].
      split; [|by apply Hput].
      unfold started, broadcast. cbn.
      destruct (String.eqb_spec k (key r)) as [->|]; [|done].
      rewrite Hg in Hg'. injection Hg' as <-. congruence.
    + unfold mutation_. rewrite Htr.
      destruct (s !! key r) as [g'|] eqn:Hg'; [|done].
      destruct (mutating g'); [done|]. cbn [fst snd]. split; [done|].
      apply Hput. intros Hk. rewrite Hk, Hg in Hg'. by injection Hg' as <-.
    + unfold mutation_. rewrite Htr.
      destruct (s !! key r) as [g'|] eqn:Hg'; [|done]. cbn [fst snd].
      split; [done|].
      apply Hput. intros Hk. rewrite Hk, Hg in Hg'. by injection Hg' as <-.
    + unfold mutation_. rewrite Htr.
      destruct (s !! key r) as [g'|] eqn:Hg'; [|done]. cbn [fst snd].
      split; [done|].
      apply Hput. intros Hk. rewrite Hk, Hg in Hg'. by injection Hg' as <-.
  - unfold progress_. destruct (s !! k') as [g'|] eqn:Hg'; [|done].
    destruct (invoking g'); [|done]. cbn [fst snd]. split; [done|].
    by apply Hput.
  - apply negb_true_iff, String.eqb_neq in Hcycle.
    unfold progress_. destruct (s !! k') as [g'|] eqn:Hg'; [|done].
    destruct (invoking g'); [|done]. cbn [fst snd]. split; [done|].
    rewrite running_insert_ne; [done|congruence].
  - apply negb_true_iff, String.eqb_neq in Hcycle.
    destruct (s !! k') as [g'|] eqn:Hg'; [|done].
    destruct (_ && _); [|done].
    unfold delete_. rewrite Hg'. cbn [fst snd].
    split; [unfold orphans; by destruct (invoking g')|].
    rewrite running_delete_ne; [done|congruence].
Qed.

Lemma cycle_starts_nothing events s k :
  running s k = 1 -> forallb (within_cycle k) events = true ->
  started k (run_from merge s events).2 = 0
  /\ running (run_from merge s events).1 k = 1.
Proof.
  revert s. induction events as [|e events IH]; intros s Hrun Hall; [done|].
  cbn [forallb] in Hall. apply andb_true_iff in Hall as [He Hall].
  cbn [run_from].
  destruct (cycle_step s k e Hrun He) as [Hnone Hrun'].
  destruct (apply merge s e) as [s' acts]. cbn [fst snd] in *.
  destruct (IH s' Hrun' Hall) as [Hnone' Hrun''].
  destruct (run_from merge s' events) as [s'' acts']. cbn [fst snd] in *.
  split; [|done]. rewrite started_app. lia.
Qed.

(** An event starts at most one run, and the store records the run it
    starts. *)
Lemma step_starts_one s k e :
  started k (apply merge s e).2 <= 1 /\
  (started k (apply merge s e).2 = 1 -> running (apply merge s e).1 k = 1).
Proof.
  assert (forall k' g' label c,
            invoking g' = true ->
            started k [Started k' label; Broadcast c] <= 1 /\
            (started k [Started k' label; Broadcast c] = 1 ->
             running (<[k' := g']> s) k = 1)) as Hstart.
  { intros k' g' label c Hinv. unfold started. cbn.
    destruct (String.eqb_spec k k') as [->|]; cbn; [|split; [lia|done]].
    split; [lia|]. intros _. rewrite running_insert.
    by rewrite String.eqb_refl, Hinv. }
  assert (forall s' c, started k [Broadcast c] <= 1 /\
            (started k [Broadcast c] = 1 -> running s' k = 1)) as Hcast.
  { intros s' c. unfold started. cbn. split; [lia|done]. }
  assert (forall s', started k [] <= 1 /\
            (started k [] = 1 -> running s' k = 1)) as Hnil.
  { intros s'. unfold started. cbn. split; [lia|done]. }
  destruct e as [r now|k' state|k' state now|k']; cbn [apply].
  - destruct (trigger r) eqn:Htr.
    + unfold subscribe_, broadcast. destruct (s !! key r) as [g|].
      * destruct (_ && _); cbn [fst snd]; [by apply Hstart|apply Hcast].
      * cbn [fst snd]. by apply Hstart.
    + unfold unsubscribe_, broadcast. destruct (s !! key r) as [g|];
        cbn [fst snd]; [apply Hcast|apply Hnil].
    + unfold delete_, orphans. destruct (s !! key r) as [g|]; [|apply Hnil].
      cbn [fst snd]. destruct (invoking g); [|apply Hnil].
      unfold started. cbn. split; [lia|done].
    + unfold refresh_, broadcast. destruct (s !! key r) as [g|]; [|apply Hnil].
      destruct (_ || _); cbn [fst snd]; [apply Hnil|by apply Hstart].
    + unfold refresh_, broadcast. destruct (s !! key r) as [g|]; [|apply Hnil].
      destruct (_ || _); cbn [fst snd]; [apply Hnil|by apply Hstart].
    + unfold mutation_, broadcast. rewrite Htr.
      destruct (s !! key r) as [g|]; [|apply Hnil].
      destruct (mutating g); cbn [fst snd]; [apply Hnil|apply Hcast].
    + unfold mutation_, broadcast. rewrite Htr.
      destruct (s !! key r) as [g|]; [|apply Hnil]. apply Hcast.
    + unfold mutation_, broadcast. rewrite Htr.
      destruct (s !! key r) as [g|]; [|apply Hnil]. apply Hcast.
  - unfold progress_, broadcast. destruct (s !! k') as [g|]; [|apply Hnil].
    destruct (invoking g); cbn [fst snd]; [apply Hcast|apply Hnil].
  - unfold progress_, broadcast.
    destruct (s !! k') as [g|]; [|unfold started; cbn; split; [lia|done]].
    destruct (invoking g); cbn [fst snd]; unfold started; cbn;
      (split; [lia|done]).
  - destruct (s !! k') as [g|]; [|apply Hnil].
    destruct (_ && _); [|apply Hnil].
    unfold delete_, orphans. destruct (s !! k') as [g'|]; [|apply Hnil].
    cbn [fst snd]. destruct (invoking g'); [|apply Hnil].
    unfold started. cbn. split; [lia|done].
Qed.

Lemma cycle_starts_at_most_one events s k :
  forallb (within_cycle k) events = true ->
  started k (run_from merge s events).2 <= 1.
Proof.
  revert s. induction events as [|e events IH]; intros s Hall; [cbn; lia|].
  cbn [forallb] in Hall. apply andb_true_iff in Hall as [He Hall].
  cbn [run_from].
  destruct (step_starts_one s k e) as [Hle Hone].
  destruct (apply merge s e) as [s' acts] eqn:Happly. cbn [fst snd] in *.
  pose proof (IH s' Hall) as Hrest.
  pose proof (cycle_starts_nothing events s' k) as Hbusy.
  destruct (run_from merge s' events) as [s'' acts']. cbn [fst snd] in *.
  rewrite started_app.
  destruct (decide (started k acts = 1)) as [H1|H1]; [|lia].
  destruct (Hbusy (Hone H1) Hall) as [-> _]. lia.
Qed.

Lemma opening_starts_one s r now :
  opens s r now ->
  started (key r) (apply merge s (Revalidate r now)).2 = 1 /\
  running (apply merge s (Revalidate r now)).1 (key r) = 1.
Proof.
  assert (forall g label c,
            invoking g = true ->
            started (key r) [Started (key r) label; Broadcast c] = 1 /\
            running (<[key r := g]> s) (key r) = 1) as Hstart.
  { intros g label c Hinv. unfold started. cbn.
    rewrite String.eqb_refl, running_insert, String.eqb_refl, Hinv. done. }
  intros [[Htr Hs]|[Htr (g & Hg & Hinv & Hmut)]]; cbn [apply].
  - rewrite Htr. unfold subscribe_, broadcast.
    destruct Hs as [->|(g & -> & Hinv & Hstale)].
    + cbn [fst snd]. by apply Hstart.
    + rewrite Hinv, Hstale. cbn [negb andb fst snd]. by apply Hstart.
  - assert (forall tr, started (key r) (refresh_ s (key r) tr).2 = 1 /\
              running (refresh_ s (key r) tr).1 (key r) = 1) as Hrefresh.
    { intros tr. unfold refresh_, broadcast. rewrite Hg, Hinv, Hmut.
      cbn [orb fst snd]. by apply Hstart. }
    destruct Htr as [->| ->]; apply Hrefresh.
Qed.


End store_facts.

Section store_examples.

Import Query Examples Store.



(** The test "first loads then succeeds": the invocation emits the success
    state and completes. *)
Example loads_then_succeeds :
  callResult 100 "todos" fetchesId (plainConfig (Config.RetriesNumber 3))
    "loading" VNull
  = [Rx.Next (with_mutate todosNull (successOutput 0 (VRef 0))); Rx.Complete].
Proof. reflexivity. Qed.

(** The test "retries then errors", as the first subscriber of the key sees
    it through the store: the store shows the loading state when it starts
    the invocation, and then the states of the invocation as they come. *)
Example first_subscriber_sees_loading_first :
  Rx.values
    (results (fun _ _ => false)
       (consumerFeed subscribeTodos
          (run replaceData
             (Revalidate subscribeTodos 0
              :: invocationEvents "todos" 1 (Rx.values threeRetries))).2))
  = blank "loading" None :: Rx.values threeRetries.
Proof. vm_compute. reflexivity. Qed.

End store_examples.

(* ===================================================================== *)
(** * Further properties of an invocation *)
(* ===================================================================== *)

Section invocation_more.

Import Rx Query Examples.

(** [expand] with a projection that starts nothing passes its source on. *)
Lemma expand_passes {A} (project : A -> outcome (trace A)) (t : trace A) fuel :
  (forall a, a ∈ values t -> project a = Ret EMPTY) ->
  faultless t ->
  2 * length t + 3 <= fuel ->
  expand_loop fuel project [t] [] false = map (fun a => a) t.
Proof.
  revert fuel. induction t as [|[|a| |e] t IH]; intros fuel Hp Hf Hfuel;
    cbn [length] in Hfuel.
  - do 2 (destruct fuel as [|fuel]; [lia|]). done.
  - do 2 (destruct fuel as [|fuel]; [lia|]). cbn [expand_loop rev app map].
    f_equal. apply IH; [done|by eapply faultless_tail|lia].
  - do 2 (destruct fuel as [|fuel]; [lia|]). cbn [expand_loop map].
    rewrite Hp by (cbn; left). cbn [EMPTY expand_loop]. f_equal.
    apply IH; [|by eapply faultless_tail|lia].
    intros b Hb. apply Hp. cbn. by right.
  - do 2 (destruct fuel as [|fuel]; [lia|]). done.
  - by inversion Hf.
Qed.

(** [debounce] with durations that are over at once holds nothing back. *)
Lemma debounce_passes {A D} (sel : A -> outcome (trace D)) (t : trace A) :
  (forall a, a ∈ values t -> sel a = Ret EMPTY) ->
  faultless t ->
  debounce_loop sel None t = map (fun a => a) t.
Proof.
  induction t as [|[|a| |e] t IH]; intros Hp Hf; cbn [debounce_loop map].
  - done.
  - f_equal. apply IH; [done|by eapply faultless_tail].
  - rewrite Hp by (cbn; left). cbn [EMPTY due_of]. f_equal.
    apply IH; [|by eapply faultless_tail].
    intros b Hb. apply Hp. cbn. by right.
  - done.
  - by inversion Hf.
Qed.

Lemma map_compose {A B C} (f : A -> B) (g : B -> C) (t : trace A) :
  map g (map f t) = map (fun a => g (f a)) t.
Proof. induction t as [|[|a| |e] t IH]; cbn; by rewrite ?IH. Qed.

Lemma catchError_faultless {A} (sel : value -> outcome (trace A)) (t : trace A) :
  faultless t -> catchError sel t = map (fun a => a) t.
Proof.
  induction t as [|[|a| |e] t IH]; intros Hf; cbn; try done.
  - f_equal. apply IH. by eapply faultless_tail.
  - f_equal. apply IH. by eapply faultless_tail.
  - by inversion Hf.
Qed.

Lemma length_map_le {A B} (f : A -> B) (t : trace A) :
  length (map f t) <= length t.
Proof. induction t as [|[|a| |e] t IH]; cbn; lia. Qed.

Lemma values_map_elem {A B} (f : A -> B) (t : trace A) b :
  b ∈ values (map f t) -> exists a, b = f a.
Proof.
  rewrite values_map. intros (a & -> & _)%list_elem_of_fmap. by exists a.
Qed.

(** X1: when the observable that the fetch function returns has no error,
    the invocation delivers, at the pace of that observable, one state
    [{status: 'success', data, mutate}] for every value it emits, without a
    [retries] field, and completes when the observable completes: nothing is
    held back, nothing is retried. *)
Theorem successes_pass_through (fuel : nat) (name : string)
    (query : value -> nat -> outcome (trace value)) (queryConfig : Config.t)
    (loadingStatus : string) (params : value) (t : trace value) :
  query params 0 = Ret t ->
  faultless t ->
  2 * length t + 3 <= fuel ->
  callResult fuel name query queryConfig loadingStatus params
  = map (fun v => with_mutate {| boundKey := name; boundParams := params |}
                    (successOutput 0 v)) t.
Proof.
  intros Hq Hf Hfuel. unfold callResult, defer, attempts, invoke.
  rewrite Hq. cbn [bind].
  rewrite catchError_faultless by by apply faultless_map.
  rewrite map_compose. unfold expand.
  rewrite expand_passes; first last.
  { pose proof (length_map_le (fun a => successOutput 0 a) t). lia. }
  { by apply faultless_map. }
  { intros a [v ->]%values_map_elem. reflexivity. }
  rewrite map_compose. unfold debounce.
  rewrite debounce_passes; first last.
  { by apply faultless_map. }
  { intros a [v ->]%values_map_elem. reflexivity. }
  by rewrite !map_compose.
Qed.

Lemma successes_pass_through_witness :
  callResult 100 "todos" fetchesId (plainConfig (Config.RetriesNumber 3))
    "loading" VNull
  = map (fun v => with_mutate todosNull (successOutput 0 v)) (of_list [VRef 0]).
Proof.
  apply (successes_pass_through 100 "todos" fetchesId
           (plainConfig (Config.RetriesNumber 3)) "loading" VNull
           (of_list [VRef 0])).
  - reflexivity.
  - apply faultless_of_list.
  - vm_compute. lia.
Defined.

Section settling.

Variable concatFuel : nat.
Variable query : value -> nat -> outcome (trace value).
Variable lat : nat -> nat.
Variable err : nat -> value.
Variable queryConfig : Config.t.
Variable loadingStatus : string.
Variable params : value.
Variable j : nat.
Variable final : QueryOutput.

Hypothesis fails :
  forall n, n < j -> query params n = Ret (ticks (lat n) ++ [Error (err n)]).
Hypothesis retried :
  forall n, n < j -> createRetryCondition queryConfig n (err n) = Ret true.
Hypothesis delayed :
  forall n, n < j -> exists d, createRetryDelay queryConfig n = Ret d.
Hypothesis settles_at :
  invoke query params j = Ret (ticks (lat j) ++ [Next final; Complete]).
Hypothesis final_stops :
  retryProject concatFuel query queryConfig loadingStatus params final
  = Ret EMPTY.
Hypothesis loading_label : loadingStatus <> "error".

Local Abbreviation delay := (retryTurns queryConfig).
Local Abbreviation project :=
  (retryProject concatFuel query queryConfig loadingStatus params).
Local Abbreviation attempt := (attemptOf err final j).

Lemma invoke_attempt n :
  n <= j ->
  invoke query params n = Ret (ticks (lat n) ++ [Next (attempt n); Complete]).
Proof.
  intros Hn. unfold attemptOf. destruct (Nat.ltb_spec n j) as [Hlt|Hge].
  - unfold invoke. rewrite (fails n Hlt). cbn [bind].
    by rewrite map_ticks, catchError_ticks.
  - replace n with j by lia. apply settles_at.
Qed.

Lemma project_loading n :
  project (interimState loadingStatus err n) = Ret EMPTY.
Proof. by apply retryProject_other. Qed.

Lemma project_failed n :
  n < j ->
  2 * delay n + 2 * lat (S n) + 11 <= concatFuel ->
  project (terminalState err n)
  = Ret (Next (interimState loadingStatus err n) ::
         ticks (S (delay n) + lat (S n)) ++
         [Next (attempt (S n)); Complete]).
Proof.
  intros Hn Hfuel.
  destruct (retryProject_again concatFuel query queryConfig loadingStatus
              params (terminalState err n)) as [->|(e & He & _)].
  - done.
  - by apply retried.
  - change (retriesOf (terminalState err n)) with n.
    unfold startWith. do 2 f_equal.
    rewrite (concatMap_timer _
               (ticks (lat (S n)) ++ [Next (attempt (S n)); Complete])).
    + rewrite map_ticks. cbn [map]. by rewrite (ticks_plus (S (delay n))).
    + rewrite Nat.add_1_r. apply invoke_attempt. lia.
    + unfold ticks. rewrite length_app, repeat_length. cbn [length]. lia.
  - change (retriesOf (terminalState err n)) with n in He.
    destruct (delayed n Hn) as [d Hd]. congruence.
Qed.

Lemma expand_until more n wait fuel :
  n + more = j ->
  enough lat delay more n wait <= fuel ->
  (forall i, n <= i < j -> 2 * delay i + 2 * lat (S i) + 11 <= concatFuel) ->
  expand_loop fuel project [ticks wait ++ [Next (attempt n); Complete]]
    [] false
  = ticks wait ++ attemptsUntil loadingStatus lat delay err final more n.
Proof.
  revert n wait fuel.
  induction more as [|more IH]; intros n wait fuel Hj Hfuel Hconcat;
    cbn [enough] in Hfuel; (rewrite expand_ticks; [|lia]); f_equal.
  - remember (fuel - 2 * wait) as f eqn:Hf.
    do 4 (destruct f as [|f]; [lia|]).
    unfold attemptOf. destruct (Nat.ltb_spec n j); [lia|].
    cbn [expand_loop attemptsUntil]. by rewrite final_stops.
  - remember (fuel - 2 * wait) as f eqn:Hf.
    do 6 (destruct f as [|f]; [lia|]).
    unfold attemptOf at 1. destruct (Nat.ltb_spec n j); [|lia].
    cbn [expand_loop attemptsUntil].
    rewrite project_failed; [|lia|apply Hconcat; lia].
    cbn [expand_loop]. rewrite project_loading.
    rewrite (ticks_S (delay n + lat (S n))).
    cbn [expand_loop EMPTY app rev].
    f_equal. f_equal. f_equal.
    apply IH; [lia|lia|]. intros i Hi. apply Hconcat. lia.
Qed.

Lemma debounce_until more n :
  debounce_loop errorDuration None
    (attemptsUntil loadingStatus lat delay err final more n)
  = shownUntil loadingStatus lat delay err final more n.
Proof.
  revert n. induction more as [|more IH]; intros n.
  - cbn [attemptsUntil shownUntil debounce_loop]. unfold errorDuration.
    by destruct (String.eqb (status final) "error").
  - cbn [attemptsUntil shownUntil].
    cbn [debounce_loop errorDuration terminalState errorOutput status].
    cbn [String.eqb Ascii.eqb Bool.eqb timer ticks repeat app due_of].
    cbn [debounce_loop errorDuration interimState with_status status].
    destruct (String.eqb_spec loadingStatus "error") as [E|_]; [done|].
    cbn [EMPTY due_of]. f_equal.
    by rewrite debounce_ticks, IH.
Qed.

Lemma callResult_until name fuel :
  enough lat delay j 0 (lat 0) <= fuel ->
  fuel = concatFuel ->
  callResult fuel name query queryConfig loadingStatus params
  = map (with_mutate {| boundKey := name; boundParams := params |})
      (ticks (lat 0) ++ shownUntil loadingStatus lat delay err final j 0).
Proof.
  intros Hfuel ->. unfold callResult, defer, attempts.
  rewrite (invoke_attempt 0) by lia. cbn [bind]. unfold expand.
  rewrite (expand_until j 0); [|done|done|].
  - unfold debounce. by rewrite debounce_ticks, debounce_until.
  - intros i Hi. etransitivity; [|exact Hfuel]. apply enough_covers. lia.
Qed.

End settling.

Lemma values_shownUntil loadingStatus lat delay err final more n :
  values (shownUntil loadingStatus lat delay err final more n)
  = List.map (interimState loadingStatus err) (seq n more) ++ [final].
Proof.
  revert n. induction more as [|more IH]; intros n; [done|].
  cbn [shownUntil values seq List.map app]. by rewrite values_ticks, IH.
Qed.

Lemma ending_shownUntil loadingStatus lat delay err final more n :
  ending_of (shownUntil loadingStatus lat delay err final more n) = Completes.
Proof.
  revert n. induction more as [|more IH]; intros n; [done|].
  cbn [shownUntil ending_of]. by rewrite ending_ticks.
Qed.

(** X2: when the first [j] calls of the fetch function fail, the retry
    condition lets each of them be retried (and the retry delay returns),
    and call [j] answers with one value, the invocation delivers the [j]
    interim states (the loading label with the error of the attempt that
    just failed and [retries = i] for [i = 0 .. j-1]) and then
    [{status: 'success', data}], which carries
    [retries: j] when [j > 0] and no [retries] field when [j = 0]; then it
    completes. *)
Theorem recovers_after_failures (query : value -> nat -> outcome (trace value))
    (lat : nat -> nat) (err : nat -> value) (queryConfig : Config.t)
    (loadingStatus : string) (params v : value) (name : string)
    (j fuel : nat) :
  (forall n, n < j -> query params n = Ret (ticks (lat n) ++ [Error (err n)])) ->
  (forall n, n < j -> createRetryCondition queryConfig n (err n) = Ret true) ->
  (forall n, n < j -> exists d, createRetryDelay queryConfig n = Ret d) ->
  query params j = Ret (ticks (lat j) ++ [Next v; Complete]) ->
  loadingStatus <> "error" ->
  enough lat (retryTurns queryConfig) j 0 (lat 0) <= fuel ->
  let out := callResult fuel name query queryConfig loadingStatus params in
  let bound := {| boundKey := name; boundParams := params |} in
  values out
  = List.map (with_mutate bound)
      (List.map (interimState loadingStatus err) (seq 0 j)
       ++ [successOutput j v]) /\
  ending_of out = Completes.
Proof.
  intros Hfails Hretried Hdelayed Hlast Hlabel Hfuel out bound. subst out.
  rewrite (callResult_until fuel query lat err queryConfig loadingStatus
             params j (successOutput j v) Hfails Hretried Hdelayed); try done.
  - rewrite values_map, ending_map, values_ticks, ending_ticks.
    by rewrite values_shownUntil, ending_shownUntil.
  - unfold invoke. rewrite Hlast. cbn [bind].
    by rewrite map_ticks, catchError_ticks.
Qed.

Lemma recovers_after_failures_witness :
  values (callResult 100 "todos" recoversAtThird
            (plainConfig (Config.RetriesNumber 3)) "loading" VNull)
  = List.map (with_mutate todosNull)
      (List.map (interimState "loading" (fun _ => VString "Error")) (seq 0 2)
       ++ [successOutput 2 (VString "x")]) /\
  ending_of (callResult 100 "todos" recoversAtThird
               (plainConfig (Config.RetriesNumber 3)) "loading" VNull)
  = Completes.
Proof.
  apply (recovers_after_failures recoversAtThird (fun _ => 0)
           (fun _ => VString "Error") (plainConfig (Config.RetriesNumber 3))
           "loading" VNull (VString "x") "todos" 2 100).
  - intros [|[|n]] Hn; [reflexivity|reflexivity|lia].
  - intros [|[|n]] Hn; [reflexivity|reflexivity|lia].
  - intros n _. eexists. reflexivity.
  - reflexivity.
  - discriminate.
  - vm_compute. lia.
Defined.

(** X3: for a fetch function that always fails, with whatever [retries]
    option (a number, a predicate of the attempt and its error, or
    undefined) makes the retry condition accept the errors of the attempts
    [0 .. k-1] and reject the error of attempt [k], and a retry delay that
    returns: the interim state of attempt [n] is delivered in the turn of
    the event loop in which the attempt failed, and the state after it in a
    later turn; the last state is [{status: 'error', error, retries: k}],
    delivered when attempt [k] fails, and the invocation completes with
    it. *)
Theorem retries_while_condition_holds (lat : nat -> nat) (err : nat -> value)
    (queryConfig : Config.t) (loadingStatus : string) (params : value)
    (name : string) (k fuel : nat) :
  (forall n, n < k -> createRetryCondition queryConfig n (err n) = Ret true) ->
  createRetryCondition queryConfig k (err k) = Ret false ->
  (forall n, n < k -> exists d, createRetryDelay queryConfig n = Ret d) ->
  loadingStatus <> "error" ->
  enough lat (retryTurns queryConfig) k 0 (lat 0) <= fuel ->
  exists later : nat -> nat,
    callResult fuel name (alwaysFails lat err) queryConfig loadingStatus params
    = map (with_mutate {| boundKey := name; boundParams := params |})
        (ticks (lat 0) ++
         shownUntil loadingStatus lat later err (terminalState err k) k 0).
Proof.
  intros Hretried Hstop Hdelayed Hlabel Hfuel.
  exists (retryTurns queryConfig).
  apply (callResult_until fuel (alwaysFails lat err) lat err queryConfig
           loadingStatus params k (terminalState err k)); try done.
  - unfold invoke, alwaysFails. cbn [bind].
    by rewrite map_ticks, catchError_ticks.
  - by apply retryProject_stop.
Qed.

Lemma retries_while_condition_holds_witness :
  exists later : nat -> nat,
    callResult 100 "todos" (alwaysFails (fun _ => 0) busyThenFatal)
      untilFatal "loading" VNull
    = map (with_mutate todosNull)
        (ticks 0 ++
         shownUntil "loading" (fun _ => 0) later busyThenFatal
           (terminalState busyThenFatal 2) 2 0).
Proof.
  apply (retries_while_condition_holds (fun _ => 0) busyThenFatal untilFatal
           "loading" VNull "todos" 2 100).
  - intros [|[|n]] Hn; [reflexivity|reflexivity|lia].
  - reflexivity.
  - intros n _. eexists. reflexivity.
  - discriminate.
  - vm_compute. lia.
Defined.

End invocation_more.

(* ===================================================================== *)
(** * Further properties of the triggers *)
(* ===================================================================== *)

Section trigger_facts.

Import Rx Query Examples.

Lemma distinct_prefix {A} (compare : A -> A -> outcome bool) pre (t u : trace A) :
  (forall last, distinct_from compare last t = distinct_from compare last u) ->
  forall last,
    distinct_from compare last (pre ++ t) = distinct_from compare last (pre ++ u).
Proof.
  intros Htu. induction pre as [|[|a| |e] pre IH]; intros last;
    cbn [app distinct_from]; try done.
  - by rewrite IH.
  - destruct last as [b|]; [|by rewrite IH].
    destruct (compare b a) as [[|]|]; by rewrite ?IH.
Qed.

Lemma distinct_ticks {A} (compare : A -> A -> outcome bool) last n (t : trace A) :
  distinct_from compare last (ticks n ++ t)
  = ticks n ++ distinct_from compare last t.
Proof.
  induction n as [|n IH]; [done|].
  rewrite ticks_S. cbn -[ticks]. by rewrite IH.
Qed.

Lemma sameJSON_trans h (a b c : value) :
  sameJSON h a b = Ret true -> sameJSON h b c = Ret true ->
  sameJSON h a c = Ret true.
Proof.
  unfold sameJSON.
  destruct (JSON_stringify h a) as [x|]; [|done].
  destruct (JSON_stringify h b) as [y|]; [|done].
  destruct (JSON_stringify h c) as [z|]; [|done].
  cbn. intros [= Hxy%bool_decide_eq_true] [= Hyz%bool_decide_eq_true].
  f_equal. apply bool_decide_eq_true. congruence.
Qed.

Lemma distinct_repeat h last (p q : value) n post :
  sameJSON h p q = Ret true ->
  distinct_from (sameJSON h) last (Next p :: ticks n ++ Next q :: post)
  = distinct_from (sameJSON h) last (Next p :: ticks n ++ post).
Proof.
  intros Hpq. cbn [distinct_from].
  assert (Hdrop : distinct_from (sameJSON h) (Some p) (ticks n ++ Next q :: post)
                  = distinct_from (sameJSON h) (Some p) (ticks n ++ post)).
  { rewrite !distinct_ticks. cbn [distinct_from]. by rewrite Hpq. }
  destruct last as [b|]; [|by rewrite Hdrop].
  destruct (sameJSON h b p) as [[|]|] eqn:Hbp; [|by rewrite Hdrop|done].
  rewrite !distinct_ticks. cbn [distinct_from].
  by rewrite (sameJSON_trans h b p q Hbp Hpq).
Qed.

(** X4: a parameter value that prints the same JSON text as the value the
    parameter stream emitted just before it, in the same turn of the event
    loop or any number of turns later, changes nothing of what
    [paramsTrigger] emits: no unsubscription, no new subscription. *)
Theorem repeated_params_are_ignored (h : heap) (fuel : nat)
    (queryConfig : Config.t) (name : string) (invoker : QueryInvoker)
    (pre post : trace value) (p q : value) (n : nat) :
  sameJSON h p q = Ret true ->
  paramsTrigger h fuel queryConfig name invoker
    (pre ++ Next p :: ticks n ++ Next q :: post)
  = paramsTrigger h fuel queryConfig name invoker
      (pre ++ Next p :: ticks n ++ post).
Proof.
  intros Hpq. unfold paramsTrigger, distinctUntilChanged, startWith.
  do 2 f_equal.
  apply (distinct_prefix (sameJSON h) (Next VUndefined :: pre)).
  intros last. by apply distinct_repeat.
Qed.

Lemma repeated_params_are_ignored_witness :
  paramsTrigger ∅ 100 (plainConfig (Config.RetriesNumber 3)) "todos" idle
    ([] ++ Next (VString "same") :: ticks 5 ++ Next (VString "same")
        :: [Tick; Next (VString "other")])
  = paramsTrigger ∅ 100 (plainConfig (Config.RetriesNumber 3)) "todos" idle
      ([] ++ Next (VString "same") :: ticks 5 ++ [Tick; Next (VString "other")]).
Proof.
  apply (repeated_params_are_ignored ∅ 100 (plainConfig (Config.RetriesNumber 3))
           "todos" idle [] [Tick; Next (VString "other")]
           (VString "same") (VString "same") 5).
  reflexivity.
Defined.

Lemma values_nexts {A} (l : list A) (t : trace A) :
  values (List.map Next l ++ t) = l ++ values t.
Proof. induction l as [|a l IH]; cbn; by rewrite ?IH. Qed.

Lemma ending_nexts {A} (l : list A) (t : trace A) :
  ending_of (List.map Next l ++ t) = ending_of t.
Proof. induction l as [|a l IH]; cbn; by rewrite ?IH. Qed.

Lemma values_of_list {A} (l : list A) : values (of_list l) = l.
Proof. unfold of_list. rewrite values_nexts. cbn. by rewrite app_nil_r. Qed.

(** [concatMap] while the array that its callback returned is delivered:
    nothing else happens until the array is through. *)
Lemma concat_array {A B} (project : A -> outcome (trace B)) (l : list B)
    (t : trace A) fuel :
  length l + 1 <= fuel ->
  concat_loop fuel project [Inner (of_list l); Outer t] [] [] true false
  = List.map Next l ++
    concat_loop (fuel - (length l + 1)) project [Outer t] [] [] false false.
Proof.
  revert fuel. induction l as [|b l IH]; intros fuel Hfuel; cbn [length] in Hfuel.
  - destruct fuel as [|fuel]; [lia|]. cbn. by rewrite Nat.sub_0_r.
  - destruct fuel as [|fuel]; [lia|].
    change (concat_loop (S fuel) project [Inner (of_list (b :: l)); Outer t]
              [] [] true false)
      with (Next b :: concat_loop fuel project [Inner (of_list l); Outer t]
                        [] [] true false).
    rewrite IH by lia. done.
Qed.

(** [concatMap] with a callback that returns arrays. *)
Lemma concat_arrays {A B} (project : A -> outcome (trace B)) (g : A -> list B)
    (t : trace A) fuel :
  (forall a, a ∈ values t -> project a = Ret (of_list (g a))) ->
  2 * length t + length (concat (List.map g (values t))) + 2 <= fuel ->
  values (concat_loop fuel project [Outer t] [] [] false false)
  = concat (List.map g (values t)) /\
  ending_of (concat_loop fuel project [Outer t] [] [] false false)
  = ending_of t.
Proof.
  revert fuel. induction t as [|[|a| |e] t IH]; intros fuel Hp Hfuel;
    cbn [length values List.map concat] in Hfuel.
  - do 2 (destruct fuel as [|fuel]; [lia|]). done.
  - do 2 (destruct fuel as [|fuel]; [lia|]).
    cbn [concat_loop rev app values ending_of]. apply IH; [done|lia].
  - rewrite length_app in Hfuel.
    destruct fuel as [|fuel]; [lia|]. cbn [concat_loop].
    rewrite Hp by (cbn; left).
    rewrite concat_array by lia.
    rewrite values_nexts, ending_nexts. cbn [values List.map concat ending_of].
    destruct (IH (fuel - (length (g a) + 1))) as [Hv He].
    { intros b Hb. apply Hp. cbn. by right. }
    { lia. }
    by rewrite Hv, He.
  - do 2 (destruct fuel as [|fuel]; [lia|]). done.
  - destruct fuel as [|fuel]; [lia|]. done.
Qed.

Lemma values_pairwise {A} (b : A) (t : trace A) :
  values (pairwise_from (Some b) t) = zip (b :: values t) (values t).
Proof.
  revert b. induction t as [|[|a| |e] t IH]; intros b; cbn; try done.
  by rewrite IH.
Qed.

Lemma ending_pairwise {A} (last : option A) (t : trace A) :
  ending_of (pairwise_from last t) = ending_of t.
Proof.
  revert last. induction t as [|[|a| |e] t IH]; intros last; cbn; try done.
  destruct last; cbn; by rewrite IH.
Qed.

Lemma length_pairwise {A} (last : option A) (t : trace A) :
  length (pairwise_from last t) <= length t.
Proof.
  revert last. induction t as [|[|a| |e] t IH]; intros last; cbn; try lia.
  - specialize (IH last). lia.
  - destruct last; cbn; [specialize (IH (Some a))|specialize (IH (Some a))]; lia.
Qed.

Lemma length_distinct {A} (compare : A -> A -> outcome bool) last (t : trace A) :
  length (distinct_from compare last t) <= length t.
Proof.
  revert last. induction t as [|[|a| |e] t IH]; intros last; cbn; try lia.
  - specialize (IH last). lia.
  - destruct last as [b|].
    + destruct (compare b a) as [[|]|]; cbn;
        [specialize (IH (Some b))|specialize (IH (Some a))|]; lia.
    + cbn. specialize (IH (Some a)). lia.
Qed.

Section changing.

Variable h : heap.
Variable queryConfig : Config.t.
Variable name : string.
Variable invoker : QueryInvoker.

Local Abbreviation project := (revalidates h queryConfig name invoker).
Local Abbreviation array := (arrayOf h queryConfig name invoker).

Lemma revalidates_first pk :
  keyed h name pk ->
  project (VUndefined, pk.1)
  = Ret (of_list [revalidatorFor queryConfig invoker QuerySubscribe pk.2 pk.1]).
Proof.
  intros [_ Hk]. unfold revalidates. cbn [fst snd bind]. by rewrite Hk.
Qed.

Lemma revalidates_next prev pk :
  keyed h name prev -> keyed h name pk ->
  project (prev.1, pk.1)
  = Ret (of_list
           [revalidatorFor queryConfig invoker QueryUnsubscribe prev.2 prev.1;
            revalidatorFor queryConfig invoker QuerySubscribe pk.2 pk.1]).
Proof.
  intros [Hne Hprev] [_ Hk]. unfold revalidates. cbn [fst snd].
  rewrite Hprev, Hk. by destruct (prev.1).
Qed.

Lemma arrays_changesFrom pks prev :
  keyed h name prev -> Forall (keyed h name) pks ->
  (forall pair, pair ∈ zip (prev.1 :: pks.*1) pks.*1 ->
     project pair = Ret (of_list (array pair))) /\
  concat (List.map array (zip (prev.1 :: pks.*1) pks.*1))
  = changesFrom queryConfig invoker prev pks.
Proof.
  intros Hprev Hall. revert prev Hprev.
  induction Hall as [|pk pks Hpk _ IH]; intros prev Hprev.
  - split; [|done]. by intros pair ?%not_elem_of_nil.
  - change (zip (prev.1 :: (pk :: pks).*1) (pk :: pks).*1)
      with ((prev.1, pk.1) :: zip (pk.1 :: pks.*1) pks.*1).
    cbn [List.map concat changesFrom].
    destruct (IH pk Hpk) as [IHp IHc]. split.
    + intros pair [->|Hin]%elem_of_cons; [|by apply IHp].
      unfold arrayOf.
      by rewrite (revalidates_next prev pk Hprev Hpk), values_of_list.
    + rewrite IHc. unfold arrayOf.
      by rewrite (revalidates_next prev pk Hprev Hpk), values_of_list.
Qed.

Lemma arrays_changes pks :
  Forall (keyed h name) pks ->
  (forall pair, pair ∈ zip (VUndefined :: pks.*1) pks.*1 ->
     project pair = Ret (of_list (array pair))) /\
  concat (List.map array (zip (VUndefined :: pks.*1) pks.*1))
  = changes queryConfig invoker pks.
Proof.
  intros Hall. destruct Hall as [|pk pks Hpk Hall].
  - split; [|done]. by intros pair ?%not_elem_of_nil.
  - change (zip (VUndefined :: (pk :: pks).*1) (pk :: pks).*1)
      with ((VUndefined, pk.1) :: zip (pk.1 :: pks.*1) pks.*1).
    cbn [List.map concat changes].
    destruct (arrays_changesFrom pks pk Hpk Hall) as [IHp IHc]. split.
    + intros pair [->|Hin]%elem_of_cons; [|by apply IHp].
      unfold arrayOf. by rewrite (revalidates_first pk Hpk), values_of_list.
    + rewrite IHc. unfold arrayOf.
      by rewrite (revalidates_first pk Hpk), values_of_list.
Qed.

Lemma length_changesFrom prev pks :
  length (changesFrom queryConfig invoker prev pks) = 2 * length pks.
Proof.
  revert prev. induction pks as [|pk pks IH]; intros prev; [done|].
  cbn [changesFrom length]. rewrite IH. lia.
Qed.

Lemma length_changes pks :
  length (changes queryConfig invoker pks) <= 2 * length pks.
Proof.
  destruct pks as [|pk pks]; [done|].
  cbn [changes length]. rewrite length_changesFrom. lia.
Qed.

(** What [paramsTrigger] emits when the values that pass its
    [distinctUntilChanged] are those of [pks]. *)
Lemma paramsTrigger_changes fuel (queryParam : trace value) pks :
  values (distinctUntilChanged (sameJSON h) (startWith VUndefined queryParam))
  = VUndefined :: pks.*1 ->
  Forall (keyed h name) pks ->
  2 * length queryParam + 2 * length pks + 2 <= fuel ->
  values (paramsTrigger h fuel queryConfig name invoker queryParam)
  = changes queryConfig invoker pks /\
  ending_of (paramsTrigger h fuel queryConfig name invoker queryParam)
  = ending_of
      (distinctUntilChanged (sameJSON h) (startWith VUndefined queryParam)).
Proof.
  unfold paramsTrigger, distinctUntilChanged, startWith, pairwise, concatMap.
  cbn [distinct_from pairwise_from values ending_of].
  intros [= Hds] Hall Hfuel.
  destruct (arrays_changes pks Hall) as [Hp Hc].
  set (d := distinct_from (sameJSON h) (Some VUndefined) queryParam) in *.
  destruct (concat_arrays project array
              (pairwise_from (Some VUndefined) d) fuel) as [Hv He].
  - rewrite values_pairwise, Hds. exact Hp.
  - rewrite values_pairwise, Hds, Hc.
    pose proof (length_changes pks).
    pose proof (length_pairwise (Some VUndefined) d).
    pose proof (length_distinct (sameJSON h) (Some VUndefined) queryParam).
    subst d. lia.
  - rewrite Hv, He, values_pairwise, Hds, Hc, ending_pairwise. done.
Qed.

End changing.

(** X5: let the parameter values that differ in JSON text from the value
    before them (the ones that pass [distinctUntilChanged]) be [p1, ..., pn],
    none of them [undefined], with the cache keys [k1, ..., kn].  Then
    [paramsTrigger] emits the query-subscribe for [k1] and, for every later
    [pi], the query-unsubscribe for the key and parameters of [p(i-1)]
    followed by the query-subscribe for [ki], in this order and nothing
    else; and it ends as the parameter stream ends. *)
Theorem params_change_sequence (h : heap) (fuel : nat) (queryConfig : Config.t)
    (name : string) (invoker : QueryInvoker) (queryParam : trace value)
    (pks : list (value * string)) :
  values (distinctUntilChanged (sameJSON h) (startWith VUndefined queryParam))
  = VUndefined :: pks.*1 ->
  Forall (fun pk => pk.1 <> VUndefined /\
                    queryKeyAndParamsToCacheKey h name pk.1 = Ret pk.2) pks ->
  2 * length queryParam + 2 * length pks + 2 <= fuel ->
  values (paramsTrigger h fuel queryConfig name invoker queryParam)
  = changes queryConfig invoker pks /\
  ending_of (paramsTrigger h fuel queryConfig name invoker queryParam)
  = ending_of
      (distinctUntilChanged (sameJSON h) (startWith VUndefined queryParam)).
Proof. apply paramsTrigger_changes. Qed.

Lemma params_change_sequence_witness :
  values twoParamsTrigger
  = changes (plainConfig (Config.RetriesNumber 3)) idle
      [(VString "a", "todos-a"); (VString "b", "todos-b")] /\
  ending_of twoParamsTrigger
  = ending_of
      (distinctUntilChanged (sameJSON ∅) (startWith VUndefined twoParams)).
Proof.
  apply (params_change_sequence ∅ 100 (plainConfig (Config.RetriesNumber 3))
           "todos" idle twoParams
           [(VString "a", "todos-a"); (VString "b", "todos-b")]).
  - reflexivity.
  - repeat constructor; discriminate.
  - vm_compute. lia.
Defined.

Lemma pairwise_ticks {A} (last : option A) n (t : trace A) :
  pairwise_from last (ticks n ++ t) = ticks n ++ pairwise_from last t.
Proof.
  induction n as [|n IH]; [done|].
  rewrite ticks_S. cbn -[ticks]. by rewrite IH.
Qed.

Lemma concat_outer_ticks {A B} (project : A -> outcome (trace B)) n
    (t : trace A) fuel :
  2 * n <= fuel ->
  concat_loop fuel project [Outer (ticks n ++ t)] [] [] false false
  = ticks n ++ concat_loop (fuel - 2 * n) project [Outer t] [] [] false false.
Proof.
  revert fuel. induction n as [|n IH]; intros fuel Hfuel.
  - cbn. by rewrite Nat.sub_0_r.
  - do 2 (destruct fuel as [|fuel]; [lia|]).
    rewrite !ticks_S. cbn -[ticks Nat.mul Nat.sub].
    rewrite IH; [|lia]. do 3 f_equal. lia.
Qed.

(** X6: when the first value of the parameter stream cannot be printed by
    [JSON.stringify] (an object that contains itself, a BigInt), the
    exception is thrown inside [distinctUntilChanged]: [paramsTrigger] emits
    no Revalidator and fails with that exception in the turn of the event
    loop in which the value arrived, whatever the stream would have emitted
    afterwards. *)
Theorem unserialisable_params_fail (h : heap) (fuel : nat)
    (queryConfig : Config.t) (name : string) (invoker : QueryInvoker)
    (p e : value) (n : nat) (post : trace value) :
  JSON_stringify h p = Throw e ->
  2 * n < fuel ->
  paramsTrigger h fuel queryConfig name invoker (ticks n ++ Next p :: post)
  = ticks n ++ [Error e].
Proof.
  intros Hp Hfuel.
  unfold paramsTrigger, distinctUntilChanged, startWith, pairwise, concatMap.
  cbn [distinct_from pairwise_from].
  rewrite distinct_ticks, pairwise_ticks. cbn [distinct_from].
  unfold sameJSON at 1. rewrite Hp.
  change (JSON_stringify h VUndefined) with (@Ret (option string) None).
  cbn [bind pairwise_from].
  rewrite concat_outer_ticks by lia.
  destruct (fuel - 2 * n) as [|f] eqn:E; [lia|]. done.
Qed.

Lemma unserialisable_params_fail_witness :
  paramsTrigger selfHeap 100 (plainConfig (Config.RetriesNumber 3)) "todos" idle
    (ticks 0 ++ Next (VRef 0) :: of_list [])
  = ticks 0 ++ [Error cyclicError].
Proof.
  apply (unserialisable_params_fail selfHeap 100
           (plainConfig (Config.RetriesNumber 3)) "todos" idle (VRef 0)
           cyclicError 0 (of_list [])).
  - reflexivity.
  - lia.
Defined.

Lemma tryMap_app_silent {A B} (f : A -> outcome B) (front t : trace A) :
  ending_of (tryMap f front) = Silent ->
  tryMap f (front ++ t) = tryMap f front ++ tryMap f t.
Proof.
  induction front as [|[|a| |e] front IH]; cbn; try done.
  - intros H. by rewrite IH.
  - destruct (f a); cbn; [|done]. intros H. by rewrite IH.
Qed.

Lemma withLatest_event {A B} (l : option B)
    (pre : list (notification A + notification B)) (a : A) :
  withLatestFrom_from l (pre ++ [inl (Next a)])
  = withLatestFrom_from l pre ++
    match ending_of (withLatestFrom_from l pre), latest_from l pre with
    | Silent, Some b => [Next (a, b)]
    | _, _ => []
    end.
Proof.
  revert l. induction pre as [|[[|c| |e]|[|b| |e]] pre IH]; intros l;
    cbn [app withLatestFrom_from latest_from ending_of]; try done.
  - by rewrite IH.
  - destruct l as [b|]; cbn [app ending_of]; by rewrite IH.
Qed.

Lemma ending_tryMap_silent {A B} (f : A -> outcome B) (t : trace A) :
  ending_of (tryMap f t) = Silent -> ending_of t = Silent.
Proof.
  induction t as [|[|a| |e] t IH]; cbn; try done.
  destruct (f a); cbn; done.
Qed.

Lemma eventTrigger_event h cfg name invoker tr pre (p : value) k :
  latest pre = Some p ->
  queryKeyAndParamsToCacheKey h name p = Ret k ->
  ending_of (eventTrigger h cfg name invoker tr pre) = Silent ->
  eventTrigger h cfg name invoker tr (pre ++ [inl (Next tt)])
  = eventTrigger h cfg name invoker tr pre
    ++ [Next (revalidatorFor cfg invoker tr k p)].
Proof.
  unfold eventTrigger, withLatestFrom, latest. intros Hp Hk Hsilent.
  rewrite withLatest_event, Hp.
  rewrite (ending_tryMap_silent _ _ Hsilent).
  rewrite tryMap_app_silent by done.
  cbn [tryMap snd]. by rewrite Hk.
Qed.

Lemma eventTrigger_early h cfg name invoker tr pre :
  latest pre = None ->
  eventTrigger h cfg name invoker tr (pre ++ [inl (Next tt)])
  = eventTrigger h cfg name invoker tr pre.
Proof.
  unfold eventTrigger, withLatestFrom, latest. intros Hp.
  rewrite withLatest_event, Hp.
  destruct (ending_of _); by rewrite app_nil_r.
Qed.

(** X7: a focus event of the window (when [refetchOnWindowFocus] is on) and
    a tick of the refetch interval (when [refetchInterval] is not
    [Number.MAX_VALUE]) each add exactly one Revalidator to what the trigger
    has emitted so far, with the trigger ['focus'] or ['interval'], the
    parameters that the parameter stream emitted last, and the cache key of
    these parameters. *)
Theorem refetch_uses_latest_params (h : heap) (queryConfig : Config.t)
    (name : string) (invoker : QueryInvoker)
    (pre : list (notification unit + notification value)) (p : value)
    (k : string) :
  latest pre = Some p ->
  queryKeyAndParamsToCacheKey h name p = Ret k ->
  (Config.refetchOnWindowFocus queryConfig = true ->
   ending_of (focusTrigger h queryConfig name invoker pre) = Silent ->
   focusTrigger h queryConfig name invoker (pre ++ [inl (Next tt)])
   = focusTrigger h queryConfig name invoker pre
     ++ [Next (revalidatorFor queryConfig invoker Focus k p)]) /\
  (Config.refetchInterval queryConfig <> Config.IntervalMaxValue ->
   ending_of (intervalTrigger h queryConfig name invoker pre) = Silent ->
   intervalTrigger h queryConfig name invoker (pre ++ [inl (Next tt)])
   = intervalTrigger h queryConfig name invoker pre
     ++ [Next (revalidatorFor queryConfig invoker Interval k p)]).
Proof.
  intros Hp Hk. split.
  - unfold focusTrigger. intros ->. by apply eventTrigger_event.
  - unfold intervalTrigger.
    destruct (Config.refetchInterval queryConfig); try done;
      intros _; by apply eventTrigger_event.
Qed.

Lemma refetch_uses_latest_params_witness :
  focusTrigger ∅ refetching "todos" idle
    ([inr (Next (VString "a")); inl Tick] ++ [inl (Next tt)])
  = focusTrigger ∅ refetching "todos" idle [inr (Next (VString "a")); inl Tick]
    ++ [Next (revalidatorFor refetching idle Focus "todos-a" (VString "a"))] /\
  intervalTrigger ∅ refetching "todos" idle
    ([inr (Next (VString "a")); inl Tick] ++ [inl (Next tt)])
  = intervalTrigger ∅ refetching "todos" idle
      [inr (Next (VString "a")); inl Tick]
    ++ [Next (revalidatorFor refetching idle Interval "todos-a" (VString "a"))].
Proof.
  destruct (refetch_uses_latest_params ∅ refetching "todos" idle
              [inr (Next (VString "a")); inl Tick] (VString "a") "todos-a"
              eq_refl eq_refl) as [Hfocus Hinterval].
  split.
  - apply Hfocus; reflexivity.
  - apply Hinterval; [discriminate|reflexivity].
Defined.



End trigger_facts.

(* ===================================================================== *)
(** * Further properties of the result pipe, teardown and mutation *)
(* ===================================================================== *)

Section pipe_facts.

Import Rx Query Examples.

Lemma faultless_withLatest {A B} (l : option B)
    (feed : list (notification A + notification B)) :
  Forall (fun x => match x with
                   | inl n => is_error n = false
                   | inr n => is_error n = false
                   end) feed ->
  faultless (withLatestFrom_from l feed).
Proof.
  intros Hfeed. revert l.
  induction Hfeed as [|[[|c| |e]|[|b| |e]] feed Hx _ IH]; intros l;
    cbn [withLatestFrom_from]; try done; try (by repeat constructor).
  - constructor; [done|apply IH].
  - destruct l; [constructor; [done|apply IH]|apply IH].
Qed.

Lemma faultless_filter {A} (p : A -> bool) (t : trace A) :
  faultless t -> faultless (filter p t).
Proof.
  induction t as [|[|a| |e] t IH]; intros Ht; cbn; try (by repeat constructor).
  - constructor; [done|]. apply IH. by eapply faultless_tail.
  - apply faultless_tail in Ht.
    destruct (p a); [constructor; [done|]|]; by apply IH.
  - by inversion Ht.
Qed.

Lemma faultless_tryMap {A B} (f : A -> outcome B) (t : trace A) :
  (forall a, a ∈ values t -> exists b, f a = Ret b) ->
  faultless t -> faultless (tryMap f t).
Proof.
  induction t as [|[|a| |e] t IH]; intros Hf Ht; cbn;
    try (by repeat constructor).
  - constructor; [done|]. apply IH; [done|by eapply faultless_tail].
  - destruct (Hf a) as [b ->]; [cbn; left|].
    constructor; [done|]. apply IH; [|by eapply faultless_tail].
    intros a' Ha'. apply Hf. cbn. by right.
  - by inversion Ht.
Qed.

Lemma faultless_distinct {A} (same : A -> A -> bool) last (t : trace A) :
  faultless t -> faultless (distinct_from (fun a b => Ret (same a b)) last t).
Proof.
  revert last. induction t as [|[|a| |e] t IH]; intros last Ht; cbn;
    try (by repeat constructor).
  - constructor; [done|]. apply IH. by eapply faultless_tail.
  - apply faultless_tail in Ht. destruct last as [b|].
    + destruct (same b a); [by apply IH|]. constructor; [done|by apply IH].
    + constructor; [done|by apply IH].
  - by inversion Ht.
Qed.

(** X9: as long as neither the cache nor the parameter stream delivers an
    error, the stream that [query] returns delivers none: a cache emission
    that has no entry under the current key is dropped by the filter before
    [v.groupState] is read, so that reading the result never throws. *)
Theorem results_never_read_a_missing_entry
    (sameObject : QueryOutput -> QueryOutput -> bool)
    (feed : list (notification (gmap string CacheEntry)
                  + notification Revalidator)) :
  Forall (fun x => match x with
                   | inl n => is_error n = false
                   | inr n => is_error n = false
                   end) feed ->
  faultless (results sameObject feed).
Proof.
  intros Hfeed. unfold results, distinctUntilChanged.
  apply faultless_distinct, faultless_tryMap.
  - intros v [_ Hv]%values_filter.
    destruct v as [entry|]; [by eexists|done].
  - by apply faultless_filter, faultless_map, faultless_withLatest.
Qed.

Lemma results_never_read_a_missing_entry_witness :
  faultless (results byStatus (inl (Next ∅) :: loadedFeed)).
Proof.
  apply (results_never_read_a_missing_entry byStatus (inl (Next ∅) :: loadedFeed)).
  repeat constructor.
Defined.

Lemma distinct_head {A} (same : A -> A -> bool) b (t : trace A) x rest :
  values (distinct_from (fun a b => Ret (same a b)) (Some b) t) = x :: rest ->
  same b x = false.
Proof.
  induction t as [|[|a| |e] t IH]; cbn; try done.
  destruct (same b a) eqn:E; cbn; [done|]. by intros [= <- _].
Qed.

Lemma distinct_adjacent {A} (same : A -> A -> bool) last (t : trace A)
    pre x y post :
  values (distinct_from (fun a b => Ret (same a b)) last t)
  = pre ++ x :: y :: post ->
  same x y = false.
Proof.
  revert last pre. induction t as [|[|a| |e] t IH]; intros last pre; cbn;
    try (by destruct pre).
  - apply IH.
  - assert (Hpass :
      a :: values (distinct_from (fun a b => Ret (same a b)) (Some a) t)
      = pre ++ x :: y :: post -> same x y = false).
    { destruct pre as [|a' pre]; cbn.
      - intros [= <- H]. by eapply distinct_head.
      - intros [= _ H]. by eapply IH. }
    destruct last as [b|]; [|exact Hpass].
    destruct (same b a); [apply IH|exact Hpass].
Qed.

(** X10: the stream that [query] returns never delivers the same result
    object twice in a row: of two states that a consumer receives one after
    the other, the second is not the object the first was. *)
Theorem results_never_repeat
    (sameObject : QueryOutput -> QueryOutput -> bool)
    (feed : list (notification (gmap string CacheEntry)
                  + notification Revalidator))
    (pre post : list QueryOutput) (x y : QueryOutput) :
  values (results sameObject feed) = pre ++ x :: y :: post ->
  sameObject x y = false.
Proof. unfold results, distinctUntilChanged. apply distinct_adjacent. Qed.

Lemma results_never_repeat_witness :
  byStatus loadingState successState = false.
Proof.
  apply (results_never_repeat byStatus
           (loadedFeed ++ [inl (Next (emission Focus successState))])
           [] [] loadingState successState).
  reflexivity.
Defined.

Lemma values_app_silent {A} (front t : trace A) :
  ending_of front = Silent -> values (front ++ t) = values front ++ values t.
Proof.
  induction front as [|[|a| |e] front IH]; cbn; try done.
  intros H. by rewrite IH.
Qed.

Lemma values_firstn {A} (t : trace A) n x :
  x ∈ values (firstn n t) -> x ∈ values t.
Proof.
  revert n. induction t as [|[|a| |e] t IH]; intros [|n]; cbn;
    try (by intros ?%not_elem_of_nil).
  - apply IH.
  - intros [->|H]%elem_of_cons; [left|right; by eapply IH].
Qed.

Lemma values_shareReplay_late {A} (t : trace A) seen x :
  x ∈ values (shareReplay_late seen t) -> x ∈ values t.
Proof.
  unfold shareReplay_late. rewrite values_nexts.
  intros [H|H]%elem_of_app; [by eapply values_firstn|].
  destruct (ending_of (firstn seen t)) eqn:E;
    try (by apply not_elem_of_nil in H).
  rewrite <- (firstn_skipn seen t), values_app_silent by done.
  apply elem_of_app. by right.
Qed.

Lemma take_one_synchronous {A E} (next : A -> list E) (t : trace A) :
  subscribe next (fun _ => []) (synchronous (take 1 t)) = [] \/
  exists r, r ∈ values t /\
    subscribe next (fun _ => []) (synchronous (take 1 t)) = next r.
Proof.
  destruct t as [|[|a| |e] t]; cbn; try (by left).
  right. exists a. split; [left|]. rewrite take_0. cbn. by rewrite app_nil_r.
Qed.

(** X11: before it returns, the callback of [finalize] puts at most one
    event on the revalidation bus, a query-unsubscribe that repeats the key,
    the parameters, the invoker and the configuration of a Revalidator that
    [params$] emitted, and then it unsubscribes the triggers; once [params$]
    has emitted anything when the consumer unsubscribes, the event is sent
    and the Revalidator it repeats is the first one [params$] ever
    emitted. *)
Theorem teardown_unsubscribes_once (seen : nat) (params' : trace Revalidator) :
  (finalize seen params' = [UnsubscribeTriggers] \/
   exists r, r ∈ values params' /\
     finalize seen params'
     = [RevalidateNext (with_trigger QueryUnsubscribe r); UnsubscribeTriggers]) /\
  (forall r rest,
     values (firstn seen params') = r :: rest ->
     finalize seen params'
     = [RevalidateNext (with_trigger QueryUnsubscribe r); UnsubscribeTriggers]).
Proof.
  split; [|intros r rest; apply finalize_first].
  unfold finalize.
  destruct (take_one_synchronous
              (fun p => [RevalidateNext (with_trigger QueryUnsubscribe p)])
              (shareReplay_late seen params')) as [->|(r & Hr & ->)].
  - by left.
  - right. exists r. split; [by eapply values_shareReplay_late|done].
Qed.

(** X12: when the parameter stream has gone through the values
    [p1, ..., pn] ([n >= 1], each different in JSON text from the one before
    it, none [undefined]) by the time the consumer unsubscribes, the teardown
    sends one query-unsubscribe, and it is the one for the key and the
    parameters of [p1], whatever [n] is. *)
Theorem teardown_after_param_changes (h : heap) (fuel : nat)
    (queryConfig : Config.t) (name : string) (invoker : QueryInvoker)
    (queryParam : trace value) (pk : value * string)
    (pks : list (value * string)) :
  values (distinctUntilChanged (sameJSON h) (startWith VUndefined queryParam))
  = VUndefined :: (pk :: pks).*1 ->
  Forall (fun pk => pk.1 <> VUndefined /\
                    queryKeyAndParamsToCacheKey h name pk.1 = Ret pk.2)
    (pk :: pks) ->
  2 * length queryParam + 2 * length (pk :: pks) + 2 <= fuel ->
  let emitted := paramsTrigger h fuel queryConfig name invoker queryParam in
  finalize (length emitted) emitted
  = [RevalidateNext
       (revalidatorFor queryConfig invoker QueryUnsubscribe pk.2 pk.1);
     UnsubscribeTriggers].
Proof.
  intros Hds Hall Hfuel emitted.
  destruct (paramsTrigger_changes h queryConfig name invoker fuel queryParam
              (pk :: pks) Hds Hall Hfuel) as [Hv _].
  apply (finalize_first (length emitted) emitted
           (revalidatorFor queryConfig invoker QuerySubscribe pk.2 pk.1)
           (changesFrom queryConfig invoker pk pks)).
  rewrite firstn_all. exact Hv.
Qed.

Lemma teardown_after_param_changes_witness :
  finalize
    (length (paramsTrigger ∅ 100 refetching "todos" idle threePages))
    (paramsTrigger ∅ 100 refetching "todos" idle threePages)
  = [RevalidateNext
       (revalidatorFor refetching idle QueryUnsubscribe "todos-1"
          (VNumber (NFinite "1")));
     UnsubscribeTriggers].
Proof.
  apply (teardown_after_param_changes ∅ 100 refetching "todos" idle threePages
           (VNumber (NFinite "1"), "todos-1")
           [(VNumber (NFinite "2"), "todos-2"); (VNumber (NFinite "3"), "todos-3")]).
  - reflexivity.
  - repeat constructor; discriminate.
  - vm_compute. lia.
Defined.

(** X13: when the mutator returns and the parameters have a cache key,
    [mutateQuery] returns without an exception and makes at most two calls,
    all with that cache key: for a mutator that returns a plain value,
    [mutate] with that value alone; for a mutator that returns an
    observable, first [mutateOptimistic] with the caller's data, and then
    either nothing more (the observable completed or stayed silent without a
    value), or [mutate] with the first value the observable emitted, or
    [mutateError] with the error it failed with. *)
Theorem mutation_events_bounded (h : heap) (name : string)
    (queryConfig : Config.t) (params data : value) (m : MutatorResult)
    (cacheKey : string) :
  Config.mutator queryConfig data params = Ret m ->
  queryKeyAndParamsToCacheKey h name params = Ret cacheKey ->
  exists events,
    mutateQuery h name queryConfig params data = Ret events /\
    match m with
    | MValue v => events = [mutate_ cacheKey v]
    | MObservable o =>
        events = [mutateOptimistic cacheKey data] \/
        (exists v rest,
           values o = v :: rest /\
           events = [mutateOptimistic cacheKey data; mutate_ cacheKey v]) \/
        (exists e,
           ending_of o = Fails e /\
           events = [mutateOptimistic cacheKey data; mutateError cacheKey e])
    end.
Proof.
  intros Hm Hk. unfold mutateQuery. rewrite Hm. cbn [bind]. rewrite Hk.
  cbn [bind]. destruct m as [v|o].
  - by eexists.
  - rewrite mutation_events. eexists. split; [done|].
    destruct (values o) as [|v rest].
    + destruct (ending_of o) as [|e|]; [by left| |by left].
      right. right. by exists e.
    + right. left. by exists v, rest.
Qed.

Lemma mutation_events_bounded_witness :
  exists events,
    mutateQuery ∅ "todos" echoMutator VNull (VString "new") = Ret events /\
    (events = [mutateOptimistic "todos" (VString "new")] \/
     (exists v rest,
        values (of_list [VString "new"]) = v :: rest /\
        events = [mutateOptimistic "todos" (VString "new"); mutate_ "todos" v]) \/
     (exists e,
        ending_of (of_list [VString "new"]) = Fails e /\
        events
        = [mutateOptimistic "todos" (VString "new"); mutateError "todos" e])).
Proof.
  apply (mutation_events_bounded ∅ "todos" echoMutator VNull (VString "new")
           (MObservable (of_list [VString "new"])) "todos"); reflexivity.
Defined.

End pipe_facts.

(* ===================================================================== *)
(** * Further properties of the cache key codec *)
(* ===================================================================== *)

Section codec_more.

Import Query Examples.

Lemma string_append_assoc (a b c : string) :
  (a +:+ b) +:+ c = a +:+ (b +:+ c).
Proof.
  induction a as [|x a IH]; [done|].
  change (String x ((a +:+ b) +:+ c) = String x (a +:+ (b +:+ c))).
  by rewrite IH.
Qed.

(** X14: the cache key does not tell parameters from the string that
    spells them, nor the key from the parameters: whatever parameters other
    than [undefined] and [null] have a cache key, the string parameter made
    of the text after the dash has the same one (the number [1] and the
    string ['1'], [true] and ['true'], an object and its JSON text); and a
    key that ends in [-a] with the string parameter [b] has the cache key of
    the key without that ending with the parameter [a-b]. *)
Theorem cache_keys_collide (h : heap) (name : string) :
  (forall (params : value) (k : string),
     queryKeyAndParamsToCacheKey h name params = Ret k ->
     params <> VUndefined -> params <> VNull ->
     exists text,
       k = name +:+ "-" +:+ text /\
       queryKeyAndParamsToCacheKey h name (VString text) = Ret k) /\
  (forall a b : string,
     queryKeyAndParamsToCacheKey h (name +:+ "-" +:+ a) (VString b)
     = queryKeyAndParamsToCacheKey h name (VString (a +:+ "-" +:+ b))).
Proof.
  split.
  - intros params k Hk Hu Hn. unfold queryKeyAndParamsToCacheKey in *.
    destruct params; try done;
      try (injection Hk as <-; by eexists);
      destruct (JSON_stringify h _) as [o|]; try done;
      injection Hk as <-; by eexists.
  - intros a b. cbn. by rewrite !string_append_assoc.
Qed.

Lemma cache_keys_collide_witness :
  exists text,
    "todos-true" = "todos" +:+ "-" +:+ text /\
    queryKeyAndParamsToCacheKey ∅ "todos" (VString text) = Ret "todos-true".
Proof.
  apply (proj1 (cache_keys_collide ∅ "todos") (VBool true) "todos-true");
    [reflexivity|discriminate|discriminate].
Defined.

Lemma serializeFields_app read ser fs1 fs2 :
  serializeFields read ser (fs1 ++ fs2)
  = bind (serializeFields read ser fs1) (fun ms1 =>
      bind (serializeFields read ser fs2) (fun ms2 => Ret (ms1 ++ ms2))).
Proof.
  induction fs1 as [|[k p] fs1 IH]; cbn [app serializeFields bind].
  - by destruct (serializeFields read ser fs2).
  - destruct (read p) as [v|]; [|done]. cbn [bind].
    destruct (ser k v) as [o|]; [|done]. cbn [bind]. rewrite IH.
    destruct (serializeFields read ser fs1) as [ms1|]; [|done]. cbn [bind].
    destruct (serializeFields read ser fs2) as [ms2|]; [|done]. cbn [bind].
    by destruct o.
Qed.

Lemma serializeFields_absent read ser fs1 k p u fs2 :
  read p = Ret u -> ser k u = Ret None ->
  serializeFields read ser (fs1 ++ (k, p) :: fs2)
  = serializeFields read ser (fs1 ++ fs2).
Proof.
  intros Hp Hu. rewrite !serializeFields_app. cbn [serializeFields].
  rewrite Hp. cbn [bind]. rewrite Hu. cbn [bind].
  destruct (serializeFields read ser fs1) as [ms1|]; [|done]. cbn [bind].
  by destruct (serializeFields read ser fs2).
Qed.

Lemma treeJSON_textless n h u :
  typeof u ∈ ["undefined"; "function"; "symbol"] -> treeJSON n h u = Ret None.
Proof.
  intros Hu. destruct u; try (by destruct n); exfalso; cbn in Hu;
    repeat (apply elem_of_cons in Hu as [Hu|Hu]; [done|]);
    by apply not_elem_of_nil in Hu.
Qed.

Lemma plain_without n h l l' fs1 kp fs2 :
  h !! l = Some (CObject (fs1 ++ kp :: fs2)) ->
  h !! l' = Some (CObject (fs1 ++ fs2)) ->
  plain n h (VRef l) = true -> plain n h (VRef l') = true.
Proof.
  intros Hl Hl'. destruct n as [|n]; [cbn [plain]; by rewrite Hl, Hl'|].
  rewrite (plain_object _ _ _ _ Hl), (plain_object _ _ _ _ Hl').
  rewrite !forallb_app. cbn [forallb].
  intros [H1 [_ H2]%andb_true_iff]%andb_true_iff. by rewrite H1, H2.
Qed.

(** X15: in a parameter object that nests finitely deep, with data
    properties only and no [toJSON] method, a property whose value is
    [undefined], a function or a symbol does not count for the cache key:
    the object and the one without that property (as
    [{id: 1, filter: undefined}] and [{id: 1}]) have the same cache key. *)
Theorem absent_property_shares_key (n : nat) (h : heap) (name : string)
    (l l' : loc) (fs1 fs2 : list (string * property)) (k : string)
    (u : value) :
  h !! l = Some (CObject (fs1 ++ (k, Data u) :: fs2)) ->
  h !! l' = Some (CObject (fs1 ++ fs2)) ->
  typeof u ∈ ["undefined"; "function"; "symbol"] ->
  plain n h (VRef l) = true ->
  queryKeyAndParamsToCacheKey h name (VRef l)
  = queryKeyAndParamsToCacheKey h name (VRef l').
Proof.
  intros Hl Hl' Hu Hplain.
  pose proof (plain_without n h l l' fs1 _ fs2 Hl Hl' Hplain) as Hplain'.
  unfold queryKeyAndParamsToCacheKey.
  rewrite (stringify_tree _ _ _ Hplain), (stringify_tree _ _ _ Hplain').
  destruct n as [|n]; [cbn [plain] in Hplain; by rewrite Hl in Hplain|].
  rewrite (treeJSON_object _ _ _ _ Hl), (treeJSON_object _ _ _ _ Hl').
  rewrite (serializeFields_absent _ _ _ _ _ u); [done|done|].
  by apply treeJSON_textless.
Qed.

Lemma absent_property_shares_key_witness :
  queryKeyAndParamsToCacheKey filterHeap "todos" (VRef 0)
  = queryKeyAndParamsToCacheKey filterHeap "todos" (VRef 1).
Proof.
  apply (absent_property_shares_key 1 filterHeap "todos" 0 1
           [("id", Data (VNumber (NFinite "1")))] [] "filter" VUndefined).
  - reflexivity.
  - reflexivity.
  - cbn. left.
  - reflexivity.
Defined.

Lemma serializeFields_throws read ser fs k p v e :
  (k, p) ∈ fs -> read p = Ret v -> ser k v = Throw e ->
  exists e', serializeFields read ser fs = Throw e'.
Proof.
  intros Hin Hp Hv.
  induction fs as [|[k' p'] fs IH]; [by apply not_elem_of_nil in Hin|].
  cbn [serializeFields].
  apply elem_of_cons in Hin as [[= <- <-]|Hin].
  - rewrite Hp. cbn [bind]. rewrite Hv. by eexists.
  - destruct (read p') as [v'|]; [|by eexists]. cbn [bind].
    destruct (ser k' v') as [o|]; [|by eexists]. cbn [bind].
    destruct (IH Hin) as [e' ->]. by eexists.
Qed.

Lemma serializeElemsFrom_throws ser index es v e :
  v ∈ es -> (forall k, ser k v = Throw e) ->
  exists e', serializeElemsFrom ser index es = Throw e'.
Proof.
  intros Hin Hv. revert index.
  induction es as [|v' es IH]; intros index;
    [by apply not_elem_of_nil in Hin|].
  cbn [serializeElemsFrom].
  apply elem_of_cons in Hin as [<-|Hin].
  - rewrite Hv. by eexists.
  - destruct (ser (pretty index) v') as [o|]; [|by eexists]. cbn [bind].
    destruct (IH Hin (S index)) as [e' ->]. by eexists.
Qed.

Lemma toJSONStep_no_method h key l fs :
  h !! l = Some (CObject fs) -> field "toJSON" fs = None ->
  toJSONStep h key (VRef l) = Ret (VRef l).
Proof. intros Hl Hnone. cbn [toJSONStep]. by rewrite Hl, Hnone. Qed.

Lemma toJSONStep_array h key l es :
  h !! l = Some (CArray es) -> toJSONStep h key (VRef l) = Ret (VRef l).
Proof. intros Hl. cbn [toJSONStep]. by rewrite Hl. Qed.



End codec_more.
